(** * SCA_dijkstra: grid graph construction and shortest routes to the
      Safety Charging Area

    A shallow embedding of [SCA_dijkstra.py].  The module builds a fixed
    12-node weighted undirected graph with the [networkx] API and asks
    [nx.dijkstra_path] / [nx.dijkstra_path_length] for the route from every
    node to a target node.

    Modelling choices.
    - Python dictionaries keep insertion order and the program iterates over
      them ([G.nodes()], [G_succ[v].items()]), so a dictionary is an
      association list with Python's update discipline: assigning to an
      existing key keeps its position, a new key goes to the end.
    - Node identifiers are Python ints, here [nat].
    - Numbers.  Distances are Python floats, IEEE-754 binary64: a finite
      float is the rational it denotes, in lowest terms ([Finite q]), and
      [fadd] is the addition of the interpreter: the exact sum rounded to
      the nearest binary64 value, ties to even, overflowing to infinity
      ([round64]).  The sign of a zero is not represented.  A graph holds
      its weights as rationals; a weight [w] stands for the float that
      Python reads from it, [py_float w], which is [w] itself when [w] is a
      binary64 value (0.5, 1 and 2 are).  The int literals of the program
      (the weights 1 and 2, the initial distance 0) are read as floats:
      Python adds and compares an int and a float by value, and the two
      arithmetics agree as long as the ints stay below 2^53.  Larger int
      weights are outside the model.
    - The [networkx] functions the program calls are transcribed from the
      library (networkx 3.x): [Graph.add_node], [Graph.add_edge],
      [dijkstra_path], [dijkstra_path_length] and the loop
      [_dijkstra_multisource] they share, specialised to the arguments the
      program passes (one source, a target, no cutoff, no predecessor
      dictionary, edge attribute ['weight'] always present).
    - The binary heap of [heapq] is kept as an unordered list from which
      [heappop] removes the least tuple.  The tuples of a run carry distinct
      counters, so as long as no distance is NaN the least tuple, and with
      it the sequence of popped tuples, does not depend on the layout of
      the heap ([heappop_least]).  NaN arises only from weights that
      overflow to infinities of both signs.
    - The [while] loop runs on fuel computed from the graph;
      [dijkstra_loop_terminates] shows that the fuel never runs out.
    - Python exceptions are values of [exn]; a call yields an [outcome].

    The theorems about [compute_shortest_paths] assume [graph_ok], the
    invariant that the graph API maintains ([build_graph_ok]), and, as the
    algorithm requires, that no weight is negative.  They hold with the
    rounding of every addition: "shortest" is meant for the sums that the
    interpreter computes, accumulated from the source ([path_total]). *)

From Stdlib Require Import String Ascii DecimalString.
From Stdlib Require Import List Arith Bool ZArith QArith Lia Lqa Permutation.
From Stdlib Require Import Sorted DecimalNat.
Import ListNotations.

Local Open Scope Q_scope.

(** ** Outcomes of Python calls *)

Inductive exn : Type :=
| NodeNotFound      (* nx.NodeNotFound *)
| NetworkXNoPath    (* nx.NetworkXNoPath *)
| ValueError        (* "Contradictory paths found: negative weights?" *)
| KeyError.         (* d[k] on a missing key *)

Inductive outcome (A : Type) : Type :=
| Ret (a : A)
| Raise (e : exn)
| OutOfFuel.

Arguments Ret {A} a.
Arguments Raise {A} e.
Arguments OutOfFuel {A}.

Definition bind {A B : Type} (m : outcome A) (k : A -> outcome B) : outcome B :=
  match m with
  | Ret a => k a
  | Raise e => Raise e
  | OutOfFuel => OutOfFuel
  end.

Notation "x <- m ;; k" := (bind m (fun x => k))
  (at level 61, m at next level, right associativity).

(** [for x in xs: st = body st x], stopping at the first exception. *)
Fixpoint for_each {A S : Type} (body : S -> A -> outcome S) (xs : list A) (st : S)
  : outcome S :=
  match xs with
  | [] => Ret st
  | x :: xs' => st' <- body st x ;; for_each body xs' st'
  end.

(** ** Dictionaries keyed by node *)

Definition node := nat.

Module Dict.
Section WithValue.
Context {V : Type}.

Definition t := list (node * V).

(** [d.get(k)] *)
Fixpoint get (d : t) (k : node) : option V :=
  match d with
  | [] => None
  | (k', v) :: d' => if Nat.eqb k' k then Some v else get d' k
  end.

(** [k in d] *)
Definition mem (d : t) (k : node) : bool :=
  match get d k with Some _ => true | None => false end.

(** [d[k] = v] *)
Fixpoint set (d : t) (k : node) (v : V) : t :=
  match d with
  | [] => [(k, v)]
  | (k', v') :: d' =>
      if Nat.eqb k' k then (k', v) :: d' else (k', v') :: set d' k v
  end.

(** [del d[k]] for a key that is present, [d] unchanged otherwise *)
Fixpoint remove (d : t) (k : node) : t :=
  match d with
  | [] => []
  | (k', v') :: d' =>
      if Nat.eqb k' k then d' else (k', v') :: remove d' k
  end.

(** [list(d)] *)
Definition keys (d : t) : list node := map fst d.

(** [d[k]], raising [KeyError] *)
Definition item (d : t) (k : node) : outcome V :=
  match get d k with Some v => Ret v | None => Raise KeyError end.
End WithValue.
Arguments t : clear implicits.
End Dict.

(** ** networkx.Graph *)

Definition position := (Z * Z)%type.

(** [_node] maps a node to its attributes (here only the optional ['pos']);
    [_adj] maps a node to the dictionary of its neighbours, whose values are
    the edge attributes (here only ['weight'], always given by the caller). *)
Record Graph : Type := mkGraph {
  _node : Dict.t (option position);
  _adj  : Dict.t (Dict.t Q)
}.

(** [nx.Graph()] *)
Definition empty_graph : Graph := mkGraph [] [].

(** [G.nodes()] *)
Definition nodes (G : Graph) : list node := Dict.keys (_node G).

(** [n in G] *)
Definition has_node (G : Graph) (n : node) : bool := Dict.mem (_node G) n.

(** [G.add_node(n, pos=pos)] *)
Definition add_node (G : Graph) (n : node) (pos : position) : Graph :=
  if negb (Dict.mem (_node G) n)
  then mkGraph (Dict.set (_node G) n (Some pos)) (Dict.set (_adj G) n [])
  else mkGraph (Dict.set (_node G) n (Some pos)) (_adj G).

(** The first half of [add_edge]: an unknown endpoint becomes a node with
    no attributes. *)
Definition touch_node (G : Graph) (u : node) : Graph :=
  if negb (Dict.mem (_node G) u)
  then mkGraph (Dict.set (_node G) u None) (Dict.set (_adj G) u [])
  else G.

(** [G.add_edge(u, v, weight=w)] *)
Definition add_edge (G : Graph) (u v : node) (w : Q) : outcome Graph :=
  let G := touch_node G u in
  let G := touch_node G v in
  adj_u <- Dict.item (_adj G) u ;;
  let adj := Dict.set (_adj G) u (Dict.set adj_u v w) in
  adj_v <- Dict.item adj v ;;
  Ret (mkGraph (_node G) (Dict.set adj v (Dict.set adj_v u w))).

(** [G.remove_edge(u, v)]; networkx raises when the edge is absent, the
    model leaves the graph as it is. *)
Definition remove_edge (G : Graph) (u v : node) : Graph :=
  let drop (a b : node) (adj : Dict.t (Dict.t Q)) :=
    match Dict.get adj a with
    | Some nb => Dict.set adj a (Dict.remove nb b)
    | None => adj
    end in
  mkGraph (_node G) (drop v u (drop u v (_adj G))).

(** [G[u][v]['weight']] *)
Definition edge_weight (G : Graph) (u v : node) : option Q :=
  match Dict.get (_adj G) u with
  | Some nb => Dict.get nb v
  | None => None
  end.

(** [G.edges(data='weight')]: every edge once, from the endpoint that comes
    first in node order. *)
Fixpoint edges_from (adj : Dict.t (Dict.t Q)) (done : list node)
  : list (node * node * Q) :=
  match adj with
  | [] => []
  | (u, nb) :: adj' =>
      map (fun '(v, w) => (u, v, w))
          (filter (fun '(v, _) => negb (existsb (Nat.eqb v) done)) nb)
      ++ edges_from adj' (u :: done)
  end.

Definition edges (G : Graph) : list (node * node * Q) := edges_from (_adj G) [].

(** ** create_grid_graph *)

Definition at_pos (n : node) (x y : Z) : node * position := (n, (x, y)).
Definition weighted (node1 node2 : node) (weight : Q) : node * node * Q :=
  (node1, node2, weight).
Arguments at_pos n%_nat x%_Z y%_Z.
Arguments weighted node1%_nat node2%_nat weight%_Q.

Definition node_positions : Dict.t position :=
  [ at_pos 0 4 0;    (* Safety Charging Area *)
    at_pos 1 3 0; at_pos 2 3 1; at_pos 3 4 1; at_pos 4 4 2; at_pos 5 3 2;
    at_pos 6 1 2; at_pos 7 0 2; at_pos 8 0 1; at_pos 9 0 0; at_pos 10 1 0;
    at_pos 11 1 1 ].

Definition edges_with_weights : list (node * node * Q) :=
  [ (* right block 0-1-2-3-4-5 *)
    weighted 0 1 (1#2); weighted 0 3 1; weighted 1 2 1; weighted 2 3 (1#2);
    weighted 2 5 1; weighted 3 4 1; weighted 4 5 (1#2);
    (* left block 7-8-9, 6-11-10 *)
    weighted 7 6 2; weighted 7 8 1; weighted 6 11 1; weighted 8 9 1;
    weighted 8 11 2; weighted 9 10 2; weighted 10 11 1;
    (* across the solar panels *)
    weighted 5 6 2; weighted 2 11 2; weighted 1 10 2 ].

(** One round of [for node1, node2, weight in edges_with_weights]. *)
Definition add_edge_step (G : Graph) (e : node * node * Q) : outcome Graph :=
  let '(node1, node2, weight) := e in add_edge G node1 node2 weight.

(** The two loops of [create_grid_graph], for any node and edge data. *)
Definition build_graph (positions : Dict.t position)
    (edge_list : list (node * node * Q)) : outcome Graph :=
  let G := fold_left (fun G '(n, pos) => add_node G n pos) positions empty_graph in
  for_each add_edge_step edge_list G.

Definition create_grid_graph : outcome (Graph * Dict.t position) :=
  G <- build_graph node_positions edges_with_weights ;;
  Ret (G, node_positions).

(** ** Python floats *)

(** A Python float: a finite binary64 value, [float('inf')],
    [float('-inf')] or [float('nan')]. *)
Inductive pyfloat : Type :=
| Finite (q : Q)
| Infinity
| NegInfinity
| NaN.

(** The integer nearest to [x / y], the even one of two that are equally
    near; for [0 <= x] and [0 < y]. *)
Definition round_half_even (x y : Z) : Z :=
  let q := (x / y)%Z in
  match (2 * (x mod y) ?= y)%Z with
  | Lt => q
  | Gt => (q + 1)%Z
  | Eq => if Z.even q then q else (q + 1)%Z
  end.

(** The binary64 value nearest to [n / d], without the bound on the
    exponent.  In units of 2^-1074, the least positive binary64 value, the
    leading bit of [n / d] is bit [Z.log2 (n * 2^1074 / d)]; a float keeps
    53 bits, so its last bit is bit [k] and the result is a multiple
    [m * 2^k] of units.  The quotient [m] is taken after cancelling the
    power of two [2^j] that the two sides share. *)
Definition nearest_binary64 (n d : Z) : Q :=
  let k := Z.max (Z.log2 (n * 2 ^ 1074 / d) - 52) 0 in
  let j := Z.min k 1074 in
  let m := round_half_even (n * 2 ^ (1074 - j)) (d * 2 ^ (k - j)) in
  Qred (Qmake (m * 2 ^ (k - j)) (Z.to_pos (2 ^ (1074 - j)))).

(** Rounding to binary64, to nearest, ties to even: what the interpreter
    does with the exact result of an operation and with a literal.  A
    result of magnitude 2^1024 or more is an infinity. *)
Definition round64 (q : Q) : pyfloat :=
  let x := nearest_binary64 (Z.abs (Qnum q)) (Zpos (Qden q)) in
  if Qle_bool (inject_Z (2 ^ 1024)) x
  then if (Qnum q <? 0)%Z then NegInfinity else Infinity
  else Finite (if (Qnum q <? 0)%Z then - x else x).

(** The float that Python reads from the number [q]. *)
Definition py_float (q : Q) : pyfloat := round64 q.

(** [x + y] *)
Definition fadd (x y : pyfloat) : pyfloat :=
  match x, y with
  | NaN, _ | _, NaN => NaN
  | Infinity, NegInfinity | NegInfinity, Infinity => NaN
  | Infinity, _ | _, Infinity => Infinity
  | NegInfinity, _ | _, NegInfinity => NegInfinity
  | Finite a, Finite b => round64 (a + b)
  end.

Definition Qltb (x y : Q) : bool := negb (Qle_bool y x).

(** [x < y] *)
Definition flt (x y : pyfloat) : bool :=
  match x, y with
  | NaN, _ | _, NaN => false
  | Finite a, Finite b => Qltb a b
  | _, NegInfinity => false
  | NegInfinity, _ => true
  | Infinity, _ => false
  | Finite _, Infinity => true
  end.

(** [x == y] *)
Definition feq (x y : pyfloat) : bool :=
  match x, y with
  | Finite a, Finite b => Qeq_bool a b
  | Infinity, Infinity => true
  | NegInfinity, NegInfinity => true
  | _, _ => false
  end.

(** ** heapq on (distance, counter, node) tuples *)

Definition entry := (pyfloat * nat * node)%type.

(** Python's tuple order: the first differing component decides. *)
Definition entry_lt (a b : entry) : bool :=
  let '(d1, c1, v1) := a in
  let '(d2, c2, v2) := b in
  if negb (feq d1 d2) then flt d1 d2
  else if negb (Nat.eqb c1 c2) then Nat.ltb c1 c2
  else Nat.ltb v1 v2.

Definition heappush (h : list entry) (x : entry) : list entry := x :: h.

(** [heappop h]: the least tuple and the remaining heap; [None] when the
    heap is empty (the loop tests that before popping). *)
Fixpoint heappop (h : list entry) : option (entry * list entry) :=
  match h with
  | [] => None
  | x :: h' =>
      match heappop h' with
      | None => Some (x, [])
      | Some (m, r) => if entry_lt m x then Some (m, x :: r) else Some (x, h')
      end
  end.

(** ** networkx: _dijkstra_multisource, called with one source, a target,
       no cutoff and no predecessor dictionary *)

Record dijkstra_state : Type := mkState {
  dist   : Dict.t pyfloat;                 (* final distances *)
  seen   : Dict.t pyfloat;                 (* best distance seen so far *)
  fringe : list entry;                     (* the heap *)
  c      : nat;                            (* next value of count() *)
  paths  : option (Dict.t (list node))     (* None for dijkstra_path_length *)
}.

(** The body of [for u, e in G_succ[v].items()]; [d] is [dist[v]], which
    the loop has just assigned, and [cost] is the weight of the edge. *)
Definition relax (v : node) (d : pyfloat) (st : dijkstra_state) (ue : node * Q)
  : outcome dijkstra_state :=
  let '(u, cost) := ue in
  let vu_dist := fadd d (py_float cost) in
  match Dict.get (dist st) u with
  | Some u_dist =>
      if flt vu_dist u_dist then Raise ValueError else Ret st
  | None =>
      if match Dict.get (seen st) u with
         | None => true
         | Some seen_u => flt vu_dist seen_u
         end
      then
        paths' <- match paths st with
                  | None => Ret None
                  | Some ps =>
                      path_v <- Dict.item ps v ;;
                      Ret (Some (Dict.set ps u (path_v ++ [u])))
                  end ;;
        Ret (mkState (dist st)
                     (Dict.set (seen st) u vu_dist)
                     (heappush (fringe st) (vu_dist, c st, u))
                     (S (c st))
                     paths')
      else Ret st
  end.

(** [while fringe: ...]; [fuel] bounds the number of iterations. *)
Fixpoint dijkstra_loop (fuel : nat) (G_succ : Dict.t (Dict.t Q)) (target : node)
    (st : dijkstra_state) : outcome dijkstra_state :=
  match fuel with
  | O => OutOfFuel
  | S fuel' =>
      match heappop (fringe st) with
      | None => Ret st
      | Some ((d, _, v), rest) =>
          if Dict.mem (dist st) v
          then dijkstra_loop fuel' G_succ target
                 (mkState (dist st) (seen st) rest (c st) (paths st))
          else
            let st := mkState (Dict.set (dist st) v d) (seen st) rest (c st)
                              (paths st) in
            if Nat.eqb v target then Ret st
            else
              nbrs <- Dict.item G_succ v ;;
              st' <- for_each (relax v d) nbrs st ;;
              dijkstra_loop fuel' G_succ target st'
      end
  end.

(** Every iteration pops one tuple and a node pushes at most one tuple per
    neighbour when it is finalised, so this many iterations are enough
    (see [dijkstra_loop_terminates]). *)
Definition dijkstra_fuel (G : Graph) : nat :=
  2 + list_sum (map (fun '(_, nb) => length nb) (_adj G)).

Definition _dijkstra_multisource (G : Graph) (source : node)
    (paths0 : option (Dict.t (list node))) (target : node)
  : outcome dijkstra_state :=
  dijkstra_loop (dijkstra_fuel G) (_adj G) target
    (mkState [] [(source, Finite 0)] (heappush [] (Finite 0, 0%nat, source))
             1%nat paths0).

(** [nx.dijkstra_path(G, source, target, weight='weight')] *)
Definition dijkstra_path (G : Graph) (source target : node)
  : outcome (list node) :=
  if negb (has_node G source) then Raise NodeNotFound
  else if Nat.eqb target source then Ret [target]
  else
    st <- _dijkstra_multisource G source (Some [(source, [source])]) target ;;
    match Dict.get (dist st) target, paths st with
    | Some _, Some ps =>
        match Dict.get ps target with
        | Some p => Ret p
        | None => Raise NetworkXNoPath
        end
    | _, _ => Raise NetworkXNoPath
    end.

(** [nx.dijkstra_path_length(G, source, target, weight='weight')] *)
Definition dijkstra_path_length (G : Graph) (source target : node)
  : outcome pyfloat :=
  if negb (has_node G source) then Raise NodeNotFound
  else if Nat.eqb source target then Ret (Finite 0)
  else
    st <- _dijkstra_multisource G source None target ;;
    match Dict.get (dist st) target with
    | Some d => Ret d
    | None => Raise NetworkXNoPath
    end.

(** ** compute_shortest_paths *)

(** [float(x)] of a float is [x]. *)
Definition float (x : pyfloat) : pyfloat := x.

(** [str(n)] *)
Definition str (n : node) : string := NilEmpty.string_of_uint (Nat.to_uint n).

(** [sep.join(xs)] *)
Fixpoint join (sep : string) (xs : list string) : string :=
  match xs with
  | [] => EmptyString
  | [x] => x
  | x :: xs' => String.append x (String.append sep (join sep xs'))
  end.

Record RouteResult : Type := mkRoute {
  start : node;
  goal : node;
  path : option (list node);          (* None is Python's None *)
  total_weight : pyfloat;
  path_description : string
}.

(** The body of the loop over sources: the [try] block and its handler. *)
Definition route_entry (G : Graph) (source_node target_node : node)
  : outcome RouteResult :=
  match
    (p <- dijkstra_path G source_node target_node ;;
     path_length <- dijkstra_path_length G source_node target_node ;;
     Ret (mkRoute source_node target_node (Some p) (float path_length)
            (join " -> " (map str p))))
  with
  | Raise NetworkXNoPath =>
      Ret (mkRoute source_node target_node None Infinity "No path found")
  | other => other
  end.

(** One round of [for source_node in G.nodes()]. *)
Definition table_step (G : Graph) (target_node : node)
    (paths_info : Dict.t RouteResult) (source_node : node)
  : outcome (Dict.t RouteResult) :=
  if Nat.eqb source_node target_node then Ret paths_info   (* continue *)
  else
    r <- route_entry G source_node target_node ;;
    Ret (Dict.set paths_info source_node r).

Definition compute_shortest_paths (G : Graph) (target_node : node)
  : outcome (Dict.t RouteResult) :=
  for_each (table_step G target_node) (nodes G) [].

(** The pipeline of [main]: build the graph, route everything to node 0. *)
Definition main_paths_info : outcome (Dict.t RouteResult) :=
  G_pos <- create_grid_graph ;;
  compute_shortest_paths (fst G_pos) 0%nat.

(** ** Routes in a graph *)

(** The sum that the interpreter computes along a node list: the float
    [acc], standing at node [a], plus the weights of the edges through the
    nodes of [p], added one after the other.  [None] when two consecutive
    nodes are not joined by an edge. *)
Fixpoint walk_sum (G : Graph) (acc : pyfloat) (a : node) (p : list node)
  : option pyfloat :=
  match p with
  | [] => Some acc
  | b :: p' =>
      match edge_weight G a b with
      | Some w => walk_sum G (fadd acc (py_float w)) b p'
      | None => None
      end
  end.

(** [sum(G[u][v]['weight'] for u, v in zip(p, p[1:]))] on floats, for a
    non-empty node list. *)
Definition path_total (G : Graph) (p : list node) : option pyfloat :=
  match p with
  | [] => None
  | a :: p' => walk_sum G (Finite 0) a p'
  end.

(** [q] is a binary64 value: in lowest terms its denominator is a power of
    two, at most 2^1074, and its numerator has at most 53 significant bits
    and is below 2^1024. *)
Definition binary64 (q : Q) : bool :=
  let n := Z.abs (Qnum (Qred q)) in
  let d := Zpos (Qden (Qred q)) in
  (d =? 2 ^ Z.log2 d)%Z && (Z.log2 d <=? 1074)%Z
  && (n <? 2 ^ 1024)%Z
  && (n mod 2 ^ Z.max (Z.log2 n - 52) 0 =? 0)%Z.

(** No addition along the node list rounds: the weights and the sums
    [acc + w1], [acc + w1 + w2], ... are binary64 values. *)
Fixpoint exact_from (G : Graph) (acc : Q) (a : node) (p : list node) : bool :=
  match p with
  | [] => true
  | b :: p' =>
      match edge_weight G a b with
      | Some w => binary64 w && binary64 (acc + w) && exact_from G (acc + w) b p'
      | None => false
      end
  end.

Definition exact_path (G : Graph) (p : list node) : bool :=
  match p with
  | [] => false
  | a :: p' => exact_from G 0 a p'
  end.

(** The order of the floats; nothing is below or above NaN. *)
Definition fle (x y : pyfloat) : Prop :=
  match x, y with
  | NaN, _ | _, NaN => False
  | NegInfinity, _ => True
  | _, Infinity => True
  | Finite a, Finite b => a <= b
  | _, _ => False
  end.

(** [route G a b p w]: [p] lists the nodes of a walk from [a] to [b] along
    edges of [G], and [w] is the sum of the weights of its edges. *)
Inductive route (G : Graph) : node -> node -> list node -> Q -> Prop :=
| route_here (a : node) : route G a a [a] 0
| route_step (a b t : node) (p : list node) (w r : Q) :
    edge_weight G a b = Some w ->
    route G b t p r ->
    route G a t (a :: p) (w + r).

(** The same sum as a function of the node list; [None] when the list is
    empty or two consecutive nodes are not joined by an edge. *)
Fixpoint path_weight (G : Graph) (p : list node) : option Q :=
  match p with
  | [] => None
  | a :: p' =>
      match p' with
      | [] => Some 0
      | b :: _ =>
          match edge_weight G a b, path_weight G p' with
          | Some w, Some r => Some (w + r)
          | _, _ => None
          end
      end
  end.

Definition reachable (G : Graph) (a b : node) : Prop :=
  exists p w, route G a b p w.

(** ** Well-formed graphs *)

Fixpoint nodupb (l : list node) : bool :=
  match l with
  | [] => true
  | x :: l' => negb (existsb (Nat.eqb x) l') && nodupb l'
  end.

Fixpoint same_keys (l1 l2 : list node) : bool :=
  match l1, l2 with
  | [], [] => true
  | x :: l1', y :: l2' => Nat.eqb x y && same_keys l1' l2'
  | _, _ => false
  end.

(** What [nx.Graph] maintains: [_node] and [_adj] have the same keys, a
    dictionary has no key twice, and [_adj[u][v]] and [_adj[v][u]] hold the
    same weight. *)
Definition graph_ok (G : Graph) : bool :=
  same_keys (Dict.keys (_node G)) (Dict.keys (_adj G))
  && nodupb (Dict.keys (_adj G))
  && forallb
       (fun '(u, nb) =>
          nodupb (Dict.keys nb)
          && forallb
               (fun '(v, w) =>
                  match edge_weight G v u with
                  | Some w' => Qeq_bool w w'
                  | None => false
                  end)
               nb)
       (_adj G).

(** No edge has a negative weight. *)
Definition nonneg_weights (G : Graph) : bool :=
  forallb (fun '(_, nb) => forallb (fun '(_, w) => Qle_bool 0 w) nb) (_adj G).

(** Every edge has a strictly positive weight. *)
Definition positive_weights (G : Graph) : bool :=
  forallb (fun '(_, nb) => forallb (fun '(_, w) => Qltb 0 w) nb) (_adj G).

(** ** The constructed graph and its variants *)

(** The graph that [create_grid_graph] returns. *)
Definition grid_graph : Graph :=
  Eval vm_compute in
  match create_grid_graph with
  | Ret (G, _) => G
  | _ => empty_graph
  end.

(** The edge data without the edges of weight [w0]. *)
Definition edges_without (w0 : Q) : list (node * node * Q) :=
  filter (fun '(_, _, w) => negb (Qeq_bool w w0)) edges_with_weights.

(** The grid graph built without its weight-2 edges. *)
Definition grid_without_long : Graph :=
  Eval vm_compute in
  match build_graph node_positions (edges_without 2) with
  | Ret G => G
  | _ => empty_graph
  end.

(** [G.remove_edges_from] on the edges of weight [w0]. *)
Definition remove_weight (G : Graph) (w0 : Q) : Graph :=
  fold_left (fun G '(u, v, w) => if Qeq_bool w w0 then remove_edge G u v else G)
            (edges G) G.

(** The weights of the consecutive edges of a node list. *)
Fixpoint edge_weights (G : Graph) (p : list node) : list (option Q) :=
  match p with
  | [] => []
  | a :: p' =>
      match p' with
      | [] => []
      | b :: _ => edge_weight G a b :: edge_weights G p'
      end
  end.

(** Three edges: one of weight 2 and two of weight 1, in any order. *)
Definition one_long_two_medium (G : Graph) (p : list node) : bool :=
  match edge_weights G p with
  | [Some x; Some y; Some z] =>
      (Qeq_bool x 2 && Qeq_bool y 1 && Qeq_bool z 1)
      || (Qeq_bool x 1 && Qeq_bool y 2 && Qeq_bool z 1)
      || (Qeq_bool x 1 && Qeq_bool y 1 && Qeq_bool z 2)
  | _ => false
  end.

Definition unordered (e : node * node * Q) : node * node :=
  let '(u, v, _) := e in (Nat.min u v, Nat.max u v).

(** An entry of the table for destination 0. *)
Definition expected (n : node) (p : list node) (w : Q) (text : string)
  : node * RouteResult :=
  (n, mkRoute n 0%nat (Some p) (Finite w) text).
Arguments expected n%_nat p%_nat w%_Q text%_string.

(** The table that [main] gets for destination 0. *)
Definition expected_paths_info : Dict.t RouteResult :=
  [ expected 1 [1; 0]%nat (1#2) "1 -> 0";
    expected 2 [2; 3; 0]%nat (3#2) "2 -> 3 -> 0";
    expected 3 [3; 0]%nat 1 "3 -> 0";
    expected 4 [4; 3; 0]%nat 2 "4 -> 3 -> 0";
    expected 5 [5; 4; 3; 0]%nat (5#2) "5 -> 4 -> 3 -> 0";
    expected 6 [6; 5; 4; 3; 0]%nat (9#2) "6 -> 5 -> 4 -> 3 -> 0";
    expected 7 [7; 6; 5; 4; 3; 0]%nat (13#2) "7 -> 6 -> 5 -> 4 -> 3 -> 0";
    expected 8 [8; 11; 2; 3; 0]%nat (11#2) "8 -> 11 -> 2 -> 3 -> 0";
    expected 9 [9; 10; 1; 0]%nat (9#2) "9 -> 10 -> 1 -> 0";
    expected 10 [10; 1; 0]%nat (5#2) "10 -> 1 -> 0";
    expected 11 [11; 2; 3; 0]%nat (7#2) "11 -> 2 -> 3 -> 0" ].




(** ** Results of one source *)

(** The result for an unreachable source. *)
Definition no_path_result (source target : node) : RouteResult :=
  mkRoute source target None Infinity "No path found".

(** The result for a source whose route is [p] with length [w]. *)
Definition path_result (source target : node) (p : list node) (w : pyfloat)
  : RouteResult :=
  mkRoute source target (Some p) (float w) (join " -> " (map str p)).

Definition not_target (target n : node) : bool := negb (Nat.eqb n target).

(** ** Vocabulary of the proofs *)

(** A set of nodes that no edge leaves keeps every route inside. *)
Definition closed_under_edges (G : Graph) (inside : node -> bool) : bool :=
  forallb (fun '(u, nb) => implb (inside u) (forallb (fun '(v, _) => inside v) nb))
          (_adj G).

(** [_node] and [_adj] list the same nodes in the same order. *)
Definition aligned (G : Graph) : Prop := Dict.keys (_node G) = Dict.keys (_adj G).

(** What the graph API maintains, as propositions: the two dictionaries
    list the same nodes, no dictionary has a key twice, and the adjacency is
    symmetric. *)
Definition well_formed (G : Graph) : Prop :=
  aligned G
  /\ NoDup (Dict.keys (_adj G))
  /\ (forall u nb, Dict.get (_adj G) u = Some nb -> NoDup (Dict.keys nb))
  /\ (forall u v w, edge_weight G u v = Some w -> edge_weight G v u = Some w).

(** The ordered pair [(x, y)] is one of the two directions of the edge
    between [u] and [v]. *)
Definition joins (u v x y : node) : bool :=
  (Nat.eqb x u && Nat.eqb y v) || (Nat.eqb x v && Nat.eqb y u).

Definition entry_dist (e : entry) : pyfloat := fst (fst e).

Definition entry_count (e : entry) : nat := snd (fst e).

(** The counters of the heap are pairwise distinct and below the next value
    of [count()]. *)
Definition counters_fresh (st : dijkstra_state) : Prop :=
  NoDup (map entry_count (fringe st))
  /\ forall e, In e (fringe st) -> (entry_count e < c st)%nat.

(** Tuples that can still be pushed: one per neighbour of every node that
    is not final yet. *)
Definition pending (G_succ : Dict.t (Dict.t Q)) (final : Dict.t pyfloat) : nat :=
  list_sum (map (fun '(k, nb) => if Dict.mem final k then 0%nat else length nb)
                G_succ).

(** ** Vocabulary of the proofs about floats *)

(** In units of 2^-1074: the multiple [m * 2^k] that [nearest_binary64]
    returns for [n / d]. *)
Definition units (n d : Z) : Z :=
  let k := Z.max (Z.log2 (n * 2 ^ 1074 / d) - 52) 0 in
  (round_half_even (n * 2 ^ 1074) (d * 2 ^ k) * 2 ^ k)%Z.

Definition unit_den : positive := (2 ^ 1074)%positive.

(** A value that a search with non-negative weights can hold: a binary64
    value that is not negative, or infinity. *)
Definition dval (x : pyfloat) : Prop :=
  match x with
  | Finite q => 0 <= q /\ round64 q = Finite q
  | Infinity => True
  | _ => False
  end.

(** [walk G source v p d]: the node list [p] leads from [source] to [v]
    along edges of [G], and [d] is the sum of the weights as the search
    accumulates it, from the source on. *)
Inductive walk (G : Graph) (source : node) : node -> list node -> pyfloat -> Prop :=
| walk_here : walk G source source [source] (Finite 0)
| walk_snoc (v u : node) (p : list node) (d : pyfloat) (w : Q) :
    walk G source v p d ->
    edge_weight G v u = Some w ->
    walk G source u (p ++ [u]) (fadd d (py_float w)).

(** ** Invariants of the search loop

    For a search from [source] towards [target] in [G]. *)

Section Invariants.
Variable G : Graph.
Variables source target : node.

Implicit Types (st : dijkstra_state) (v u x : node) (d : pyfloat).

(** [seen[source]] is 0. *)
Definition src_seen st : Prop := Dict.get (seen st) source = Some (Finite 0).

(** [seen[v]] is the sum along a walk from the source, and [paths[v]]
    holds that walk when paths are recorded. *)
Definition seen_sound st : Prop :=
  forall v d, Dict.get (seen st) v = Some d ->
    exists p, walk G source v p d
              /\ forall ps, paths st = Some ps -> Dict.get ps v = Some p.

(** A final distance is the distance last seen. *)
Definition dist_seen st : Prop :=
  forall v d, Dict.get (dist st) v = Some d -> Dict.get (seen st) v = Some d.

Definition fringe_sound st : Prop :=
  forall d k v, In (d, k, v) (fringe st) ->
    dval d /\ exists d', Dict.get (seen st) v = Some d' /\ fle d' d.

(** A seen node that is not final waits in the heap with its best
    distance. *)
Definition fringe_complete st : Prop :=
  forall v d, Dict.get (seen st) v = Some d -> Dict.get (dist st) v = None ->
    exists k, In (d, k, v) (fringe st).

(** The edges out of a final node [v] have been relaxed. *)
Definition closed_at st v : Prop :=
  forall dv, Dict.get (dist st) v = Some dv ->
    forall u w, edge_weight G v u = Some w ->
      exists du, Dict.get (seen st) u = Some du
                 /\ fle du (fadd dv (py_float w)).

(** No walk beats a final distance. *)
Definition dist_optimal st : Prop :=
  forall v d, Dict.get (dist st) v = Some d ->
    forall q dq, walk G source v q dq -> fle d dq.

Definition dist_below_fringe st : Prop :=
  forall v dv d k u, Dict.get (dist st) v = Some dv ->
    In (d, k, u) (fringe st) -> fle dv d.

Record core st : Prop := mkCore {
  c_src : src_seen st;
  c_sound : seen_sound st;
  c_dist_seen : dist_seen st;
  c_fsound : fringe_sound st;
  c_fcomplete : fringe_complete st;
  c_optimal : dist_optimal st;
  c_below : dist_below_fringe st
}.

(** The invariant at the head of the [while] loop. *)
Definition Inv st : Prop := core st /\ forall v, closed_at st v.

(** The invariant inside the [for] loop over the neighbours of [v], with
    [rest] still to be visited. *)
Record Mid (v : node) (d : pyfloat) (rest : Dict.t Q) st : Prop := mkMid {
  m_core : core st;
  m_closed : forall x, x <> v -> closed_at st x;
  m_dv : Dict.get (dist st) v = Some d;
  m_le : forall x dx, Dict.get (dist st) x = Some dx -> fle dx d;
  m_edges : forall u w, edge_weight G v u = Some w ->
              In (u, w) rest
              \/ exists du, Dict.get (seen st) u = Some du
                            /\ fle du (fadd d (py_float w))
}.

(** What the loop leaves behind. *)
Definition Post st : Prop :=
  seen_sound st /\ dist_seen st /\ dist_optimal st
  /\ (Dict.get (dist st) target = None ->
      forall q dq, ~ walk G source target q dq).
End Invariants.

Ltac unfold_inv :=
  unfold src_seen, seen_sound, dist_seen, fringe_sound, fringe_complete,
    closed_at, dist_optimal, dist_below_fringe.

(** ** save_to_yaml

    The function builds the dictionary [yaml_data] and hands it to
    [yaml.dump], which writes it in insertion order ([sort_keys=False]).
    The model is the dictionary; writing the file and printing are not
    modelled. *)

(** [sorted(d.items())]: the items by ascending key.  The keys of a
    dictionary are distinct, so Python's order on the tuples is decided by
    the keys and never compares the values. *)
Fixpoint insert_item {V : Type} (kv : node * V) (l : list (node * V))
  : list (node * V) :=
  match l with
  | [] => [kv]
  | kv' :: l' =>
      if Nat.leb (fst kv) (fst kv') then kv :: l else kv' :: insert_item kv l'
  end.

Definition sorted_items {V : Type} (d : Dict.t V) : list (node * V) :=
  fold_right insert_item [] d.

(** Dictionaries keyed by strings, with the update discipline of [Dict]. *)
Module StrDict.
Section WithValue.
Context {V : Type}.

Definition t := list (string * V).

Fixpoint get (d : t) (k : string) : option V :=
  match d with
  | [] => None
  | (k', v) :: d' => if String.eqb k' k then Some v else get d' k
  end.

Fixpoint set (d : t) (k : string) (v : V) : t :=
  match d with
  | [] => [(k, v)]
  | (k', v') :: d' =>
      if String.eqb k' k then (k', v) :: d' else (k', v') :: set d' k v
  end.

Definition keys (d : t) : list string := map fst d.
End WithValue.
Arguments t : clear implicits.
End StrDict.

(** The value under ['graph_info']. *)
Record GraphInfo : Type := mkGraphInfo {
  info_description : string;            (* key 'description' *)
  weight_rules : StrDict.t Q
}.

(** A value under ['shortest_paths']. *)
Record YamlRoute : Type := mkYamlRoute {
  start_node : node;
  goal_node : node;
  yaml_route : option (list node);      (* key 'route' *)
  total_distance : pyfloat;
  description : string
}.

Record YamlData : Type := mkYamlData {
  graph_info : GraphInfo;
  shortest_paths : StrDict.t YamlRoute
}.

(** [f'from_node_{node}'] *)
Definition from_node (n : node) : string := String.append "from_node_" (str n).

Definition yaml_entry (info : RouteResult) : YamlRoute :=
  mkYamlRoute (start info) (goal info) (path info) (total_weight info)
              (path_description info).

Definition yaml_data (paths_info : Dict.t RouteResult) : YamlData :=
  mkYamlData
    (mkGraphInfo "Grid graph with Safety Charging Area as node 0"
       [ ("long_distance", 2); ("medium_distance", 1);
         ("short_distance", 1#2) ]%string)
    (fold_left
       (fun sp '(n, info) => StrDict.set sp (from_node n) (yaml_entry info))
       (sorted_items paths_info) []).

(** ** Vocabulary of the further properties *)

(** The weight of the last triple of an edge list that joins [x] and [y],
    in either direction. *)
Definition last_weight (edge_list : list (node * node * Q)) (x y : node)
  : option Q :=
  fold_left
    (fun acc e => let '(u, v, w) := e in if joins u v x y then Some w else acc)
    edge_list None.

(** The endpoints named by an edge list. *)
Definition endpoints (edge_list : list (node * node * Q)) : list node :=
  flat_map (fun e => let '(u, v, _) := e in [u; v]) edge_list.

(** Every key that the search loop looks up is present: the nodes of the
    heap have been seen, seen nodes are nodes of the graph and have a
    recorded path, and final nodes have been seen. *)
Definition keys_known (G : Graph) (st : dijkstra_state) : Prop :=
  (forall d k v, In (d, k, v) (fringe st) -> Dict.mem (seen st) v = true)
  /\ (forall v, Dict.mem (seen st) v = true -> Dict.mem (_adj G) v = true)
  /\ (forall v, Dict.mem (dist st) v = true -> Dict.mem (seen st) v = true)
  /\ (forall ps, paths st = Some ps ->
        forall v, Dict.mem (seen st) v = true -> Dict.mem ps v = true).

(** Every recorded path ends at its key, visits no node twice, and runs
    through final nodes only before it reaches its key. *)
Definition paths_simple (st : dijkstra_state) : Prop :=
  forall ps, paths st = Some ps ->
    forall u p, Dict.get ps u = Some p ->
      NoDup p
      /\ exists p0, p = p0 ++ [u]
                    /\ forall x, In x p0 -> Dict.mem (dist st) x = true.

(** A graph with a negative weight: nodes 3 (isolated), 0, 1, 2. *)
Definition negative_triangle : Graph :=
  Eval vm_compute in
  match build_graph [at_pos 3 0 0]
          [weighted 0 1 1; weighted 0 2 3; weighted 1 2 (-5)] with
  | Ret G => G
  | _ => empty_graph
  end.

(** Every edge of [G1] is an edge of [G2] with the same weight. *)
Definition weights_within (G1 G2 : Graph) : bool :=
  forallb
    (fun '(u, nb) =>
       forallb
         (fun '(v, w) =>
            match edge_weight G2 u v with
            | Some w' => Qeq_bool w w'
            | None => false
            end)
         nb)
    (_adj G1).

(** The two graphs have the same edges with the same weights. *)
Definition same_weights (G1 G2 : Graph) : bool :=
  weights_within G1 G2 && weights_within G2 G1.

(** The grid graph with the nodes and the edges added in reverse order. *)
Definition grid_graph_reversed : Graph :=
  Eval vm_compute in
  match build_graph (rev node_positions) (rev edges_with_weights) with
  | Ret G => G
  | _ => empty_graph
  end.

(** The string has no blank. *)
Fixpoint no_blank (s : string) : bool :=
  match s with
  | EmptyString => true
  | String ch s' => negb (Ascii.eqb ch " ") && no_blank s'
  end.

(** The string is empty or starts with a blank: what follows a node id in a
    path description. *)
Definition blank_or_end (s : string) : bool :=
  match s with
  | EmptyString => true
  | String ch _ => Ascii.eqb ch " "
  end.

(** What [join] puts after the first item. *)
Definition join_rest (sep : string) (xs : list string) : string :=
  match xs with
  | [] => EmptyString
  | _ :: _ => String.append sep (join sep xs)
  end.

(** * Proofs *)

(** ** Dictionaries *)

Module DictFacts.
Import Dict.
Section WithValue.
Context {V : Type}.
Implicit Types (d : Dict.t V) (k : node) (v : V).

Lemma get_set_same d k v : get (set d k v) k = Some v.
Proof.
  induction d as [|[k' v'] d IH]; simpl.
  - now rewrite Nat.eqb_refl.
  - destruct (Nat.eqb k' k) eqn:E; simpl; rewrite E; auto.
Qed.

Lemma get_set_other d k k' v : k <> k' -> get (set d k v) k' = get d k'.
Proof.
  intros Hne. induction d as [|[k0 v0] d IH]; simpl.
  - destruct (Nat.eqb_spec k k'); congruence.
  - destruct (Nat.eqb_spec k0 k); simpl.
    + subst k0. destruct (Nat.eqb_spec k k'); congruence.
    + destruct (Nat.eqb k0 k'); auto.
Qed.

Lemma get_In d k v : get d k = Some v -> In (k, v) d.
Proof.
  induction d as [|[k' v'] d IH]; simpl; [discriminate|].
  destruct (Nat.eqb_spec k' k); intros H.
  - left. congruence.
  - right. auto.
Qed.

Lemma get_None_keys d k : get d k = None <-> ~ In k (keys d).
Proof.
  induction d as [|[k' v'] d IH]; simpl.
  - tauto.
  - destruct (Nat.eqb_spec k' k).
    + split; [discriminate|]. intros H. exfalso. apply H. now left.
    + rewrite IH. tauto.
Qed.

Lemma mem_keys d k : mem d k = true <-> In k (keys d).
Proof.
  unfold mem. destruct (get d k) eqn:E.
  - split; auto. intros _.
    apply get_In in E. apply (in_map fst) in E. exact E.
  - apply get_None_keys in E. split; [discriminate | contradiction].
Qed.

Lemma mem_false d k : mem d k = false <-> get d k = None.
Proof. unfold mem. destruct (get d k); split; congruence. Qed.

Lemma In_get d k v : NoDup (keys d) -> In (k, v) d -> get d k = Some v.
Proof.
  induction d as [|[k' v'] d IH]; simpl; [tauto|].
  intros Hnd [Heq | Hin].
  - inversion Heq; subst. now rewrite Nat.eqb_refl.
  - inversion Hnd as [|? ? Hni Hnd']; subst.
    destruct (Nat.eqb_spec k' k); auto.
    subst k'. exfalso. apply Hni.
    apply (in_map fst) in Hin. exact Hin.
Qed.

Lemma keys_set_mem d k v : mem d k = true -> keys (set d k v) = keys d.
Proof.
  unfold mem.
  induction d as [|[k' v'] d IH]; simpl; [discriminate|].
  destruct (Nat.eqb_spec k' k); simpl; intros H.
  - reflexivity.
  - f_equal. auto.
Qed.

Lemma keys_set_new d k v : mem d k = false -> keys (set d k v) = keys d ++ [k].
Proof.
  unfold mem.
  induction d as [|[k' v'] d IH]; simpl; [reflexivity|].
  destruct (Nat.eqb_spec k' k); simpl; intros H.
  - discriminate.
  - f_equal. auto.
Qed.
Lemma keys_set_NoDup d k v : NoDup (keys d) -> NoDup (keys (set d k v)).
Proof.
  intros Hnd. destruct (mem d k) eqn:E.
  - now rewrite keys_set_mem.
  - rewrite keys_set_new by auto.
    apply NoDup_app; [exact Hnd | repeat constructor; tauto |].
    intros x Hx [<- | []]. apply mem_keys in Hx. congruence.
Qed.

Lemma get_set_inv d k v x y :
  get (set d k v) x = Some y ->
  (x = k /\ y = v) \/ (x <> k /\ get d x = Some y).
Proof.
  intros H. destruct (Nat.eq_dec k x) as [<- | Hne].
  - rewrite get_set_same in H. left. split; congruence.
  - rewrite get_set_other in H by auto. right. split; auto.
Qed.
End WithValue.
End DictFacts.

Lemma nodupb_NoDup (l : list node) : nodupb l = true -> NoDup l.
Proof.
  induction l as [|x l IH]; simpl; intros H; constructor.
  - apply andb_prop in H. destruct H as [H _].
    intros Hin. rewrite negb_true_iff in H.
    assert (existsb (Nat.eqb x) l = true) as E.
    { apply existsb_exists. exists x. split; auto. apply Nat.eqb_refl. }
    congruence.
  - apply andb_prop in H. tauto.
Qed.

Lemma same_keys_eq (l1 l2 : list node) : same_keys l1 l2 = true -> l1 = l2.
Proof.
  revert l2. induction l1 as [|x l1 IH]; intros [|y l2]; simpl; try discriminate; auto.
  intros H. apply andb_prop in H. destruct H as [Hx H].
  apply Nat.eqb_eq in Hx. f_equal; auto.
Qed.

(** ** Floats

    *** Rounding to the nearest integer *)

Local Open Scope Z_scope.

Lemma rhe_scale (x y c : Z) :
  0 < y -> 0 < c -> round_half_even (x * c) (y * c) = round_half_even x y.
Proof.
  intros Hy Hc. unfold round_half_even.
  rewrite Z.div_mul_cancel_r by lia.
  rewrite Z.mul_mod_distr_r by lia.
  replace (2 * (x mod y * c)) with (2 * (x mod y) * c) by ring.
  rewrite <- (Zmult_compare_compat_r (2 * (x mod y)) y c) by lia.
  reflexivity.
Qed.

Lemma rhe_range (x y : Z) :
  x / y <= round_half_even x y <= x / y + 1.
Proof.
  unfold round_half_even. cbv zeta.
  destruct (2 * (x mod y) ?= y); try destruct (Z.even (x / y)); lia.
Qed.

Lemma rhe_exact (m y : Z) : 0 < y -> round_half_even (m * y) y = m.
Proof.
  intros Hy. unfold round_half_even.
  rewrite Z.div_mul by lia. rewrite Z.mod_mul by lia.
  destruct (Z.compare_spec (2 * 0) y); lia.
Qed.

Lemma rhe_le_bound (x y g : Z) :
  0 < y -> x <= g * y -> round_half_even x y <= g.
Proof.
  intros Hy Hx.
  assert (x / y <= g) as Hq.
  { apply Z.div_le_upper_bound; lia. }
  destruct (Z.eq_dec (x / y) g) as [E | E].
  - assert (x mod y = 0) as Hr.
    { pose proof (Z.mod_pos_bound x y Hy). pose proof (Z.div_mod x y).
      rewrite E in H0. nia. }
    unfold round_half_even. rewrite Hr.
    cbv zeta. destruct (Z.compare_spec (2 * 0) y); lia.
  - pose proof (rhe_range x y). lia.
Qed.

Lemma rhe_ge_bound (x y g : Z) :
  0 < y -> g * y <= x -> g <= round_half_even x y.
Proof.
  intros Hy Hx.
  assert (g <= x / y) by (apply Z.div_le_lower_bound; lia).
  pose proof (rhe_range x y). lia.
Qed.

Lemma rhe_mono (x1 x2 y : Z) :
  0 < y -> x1 <= x2 -> round_half_even x1 y <= round_half_even x2 y.
Proof.
  intros Hy Hx.
  assert (x1 / y <= x2 / y) as Hq by (apply Z.div_le_mono; lia).
  destruct (Z.eq_dec (x1 / y) (x2 / y)) as [E | E].
  - assert (x1 mod y <= x2 mod y) as Hr.
    { rewrite !Z.mod_eq by lia. rewrite E. lia. }
    unfold round_half_even. rewrite E.
    destruct (Z.compare_spec (2 * (x1 mod y)) y);
      destruct (Z.compare_spec (2 * (x2 mod y)) y);
      destruct (Z.even (x2 / y)); lia.
  - pose proof (rhe_range x1 y). pose proof (rhe_range x2 y). lia.
Qed.

Lemma units_scale (n d c : Z) :
  0 < d -> 0 < c -> units (n * c) (d * c) = units n d.
Proof.
  intros Hd Hc. unfold units.
  replace (n * c * 2 ^ 1074) with (n * 2 ^ 1074 * c) by ring.
  rewrite Z.div_mul_cancel_r by lia.
  set (k := Z.max _ 0).
  assert (0 < 2 ^ k) by (apply Z.pow_pos_nonneg; lia).
  replace (d * c * 2 ^ k) with (d * 2 ^ k * c) by ring.
  rewrite rhe_scale by lia. reflexivity.
Qed.

Lemma pow2_pos (z : Z) : 0 <= z -> 0 < 2 ^ z.
Proof. intros. apply Z.pow_pos_nonneg; lia. Qed.

Lemma pow2_split (a b : Z) : 0 <= a <= b -> 2 ^ b = 2 ^ (b - a) * 2 ^ a.
Proof.
  intros H. rewrite <- Z.pow_add_r by lia. f_equal. lia.
Qed.

(** The leading bit of a quotient. *)
Lemma quotient_bounds (a d : Z) :
  0 <= a -> 0 < d ->
  let L := Z.log2 (a / d) in
  a < 2 ^ (L + 1) * d /\ (0 < L -> 2 ^ L * d <= a).
Proof.
  intros Ha Hd L.
  pose proof (Z.div_mod a d) as Hdm. pose proof (Z.mod_pos_bound a d Hd) as Hr.
  assert (0 <= a / d) as Ht by (apply Z.div_pos; lia).
  split.
  - assert (a / d < 2 ^ (L + 1)) as Hlt.
    { destruct (Z.eq_dec (a / d) 0) as [E | E].
      - rewrite E. apply pow2_pos. subst L. rewrite E. simpl. lia.
      - pose proof (Z.log2_spec (a / d)). unfold Z.succ in *. subst L. lia. }
    nia.
  - intros HL.
    assert (0 < a / d) as Hpos.
    { destruct (Z.eq_dec (a / d) 0) as [E | E]; [|lia].
      subst L. rewrite E in HL. simpl in HL. lia. }
    pose proof (Z.log2_spec (a / d) Hpos) as [Hlo _]. fold L in Hlo. nia.
Qed.

Lemma units_bound (n d : Z) :
  0 <= n -> 0 < d ->
  let k := Z.max (Z.log2 (n * 2 ^ 1074 / d) - 52) 0 in
  0 <= round_half_even (n * 2 ^ 1074) (d * 2 ^ k) <= 2 ^ 53.
Proof.
  intros Hn Hd k.
  assert (0 < 2 ^ k) as Hk by (apply pow2_pos; lia).
  assert (0 <= n * 2 ^ 1074) as Ha by (apply Z.mul_nonneg_nonneg; lia).
  destruct (quotient_bounds (n * 2 ^ 1074) d Ha Hd) as [Hup _].
  set (L := Z.log2 (n * 2 ^ 1074 / d)) in *.
  assert (0 <= L) by apply Z.log2_nonneg.
  split.
  - apply rhe_ge_bound; [nia | lia].
  - apply rhe_le_bound; [nia|].
    assert (2 ^ (L + 1) <= 2 ^ 53 * 2 ^ k) as Hpow.
    { rewrite <- Z.pow_add_r by lia. apply Z.pow_le_mono_r; lia. }
    nia.
Qed.

Lemma units_mono (n1 n2 d : Z) :
  0 < d -> 0 <= n1 <= n2 -> units n1 d <= units n2 d.
Proof.
  intros Hd Hn. unfold units.
  set (a1 := n1 * 2 ^ 1074). set (a2 := n2 * 2 ^ 1074).
  assert (0 <= a1 <= a2) as Ha by (unfold a1, a2; nia).
  set (L1 := Z.log2 (a1 / d)). set (L2 := Z.log2 (a2 / d)).
  assert (L1 <= L2) as HL.
  { apply Z.log2_le_mono. apply Z.div_le_mono; lia. }
  assert (0 <= L1) by apply Z.log2_nonneg.
  set (k1 := Z.max (L1 - 52) 0). set (k2 := Z.max (L2 - 52) 0).
  assert (0 < 2 ^ k1) by (apply pow2_pos; lia).
  assert (0 < 2 ^ k2) by (apply pow2_pos; lia).
  destruct (Z.eq_dec k1 k2) as [E | E].
  - rewrite <- E. apply Z.mul_le_mono_nonneg_r; [lia|].
    apply rhe_mono; [nia | lia].
  - assert (k1 < k2) as Hk by lia.
    assert (0 < L2 /\ k2 = L2 - 52 /\ L1 + 1 <= L2) as (HL2 & Hk2 & Hmid) by lia.
    destruct (quotient_bounds a1 d) as [Hup1 _]; [lia | lia |]. fold L1 in Hup1.
    destruct (quotient_bounds a2 d) as [_ Hlo2]; [lia | lia |]. fold L2 in Hlo2.
    specialize (Hlo2 HL2).
    apply Z.le_trans with (m := 2 ^ (L1 + 1)).
    + rewrite (pow2_split k1 (L1 + 1)) by lia.
      apply Z.mul_le_mono_nonneg_r; [lia|].
      apply rhe_le_bound; [nia|].
      assert (2 ^ (L1 + 1) = 2 ^ (L1 + 1 - k1) * 2 ^ k1) as Hs
        by (apply pow2_split; lia).
      nia.
    + apply Z.le_trans with (m := 2 ^ L2).
      * apply Z.pow_le_mono_r; lia.
      * rewrite (pow2_split k2 L2) by lia.
        apply Z.mul_le_mono_nonneg_r; [lia|].
        apply rhe_ge_bound; [nia|].
        assert (2 ^ L2 = 2 ^ (L2 - k2) * 2 ^ k2) as Hs by (apply pow2_split; lia).
        nia.
Qed.

Lemma units_of_float (m k : Z) :
  0 <= m <= 2 ^ 53 -> 0 <= k -> units (m * 2 ^ k) (2 ^ 1074) = m * 2 ^ k.
Proof.
  intros Hm Hk. unfold units.
  assert (0 < 2 ^ 1074) as H1074 by (apply pow2_pos; lia).
  assert (0 < 2 ^ k) as H2k by (apply pow2_pos; lia).
  rewrite Z.div_mul by lia.
  set (r := m * 2 ^ k).
  assert (0 <= r) as Hr by (unfold r; nia).
  set (k' := Z.max (Z.log2 r - 52) 0).
  assert (0 <= Z.log2 r) by apply Z.log2_nonneg.
  assert (0 < 2 ^ k') as H2k' by (apply pow2_pos; lia).
  assert (exists m', r = m' * 2 ^ k') as (m' & Hm').
  { destruct (Z.eq_dec k' 0) as [E | E].
    - exists r. rewrite E. simpl. lia.
    - assert (k' = Z.log2 r - 52 /\ 52 < Z.log2 r) as [Ek' HL] by lia.
      assert (0 < r) as Hrpos.
      { destruct (Z.eq_dec r 0) as [E0 | E0]; [|lia].
        rewrite E0 in HL. simpl in HL. lia. }
      destruct (Z.eq_dec m (2 ^ 53)) as [Em | Em].
      + assert (r = 2 ^ (53 + k)) as Er.
        { unfold r. rewrite Em. rewrite <- Z.pow_add_r by lia. reflexivity. }
        assert (Z.log2 r = 53 + k) as EL.
        { rewrite Er. apply Z.log2_pow2. lia. }
        exists (2 ^ 52). rewrite Er. rewrite <- Z.pow_add_r by lia.
        f_equal. lia.
      + assert (r < 2 ^ (53 + k)) as Hlt.
        { unfold r. rewrite Z.pow_add_r by lia. nia. }
        apply Z.log2_lt_pow2 in Hlt; [|lia].
        exists (m * 2 ^ (k - k')). unfold r.
        rewrite <- Z.mul_assoc. rewrite <- Z.pow_add_r by lia.
        do 2 f_equal. lia. }
  replace (r * 2 ^ 1074) with (m' * (2 ^ 1074 * 2 ^ k')) by (rewrite Hm'; ring).
  rewrite rhe_exact by nia. lia.
Qed.

Lemma units_nonneg (n d : Z) : 0 <= n -> 0 < d -> 0 <= units n d.
Proof.
  intros Hn Hd. pose proof (units_bound n d Hn Hd) as H. cbv zeta in H.
  unfold units.
  set (k := Z.max _ 0) in *.
  assert (0 < 2 ^ k) by (apply pow2_pos; lia). nia.
Qed.

Lemma units_fix (n d : Z) :
  0 <= n -> 0 < d -> units (units n d) (2 ^ 1074) = units n d.
Proof.
  intros Hn Hd. pose proof (units_bound n d Hn Hd) as H. cbv zeta in H.
  unfold units at 2 3.
  apply units_of_float; [exact H | lia].
Qed.

Lemma units_zero (d : Z) : 0 < d -> units 0 d = 0.
Proof.
  intros Hd. unfold units. simpl (0 * _). rewrite Z.div_0_l by lia.
  simpl. unfold round_half_even. rewrite Z.div_0_l, Z.mod_0_l by lia.
  destruct (Z.compare_spec (2 * 0) (d * 1)); lia.
Qed.

Local Close Scope Z_scope.

(** *** Rounding of rationals *)

Lemma unit_den_Z : Zpos unit_den = (2 ^ 1074)%Z.
Proof. reflexivity. Qed.

Lemma nearest_units (n d : Z) :
  (0 < d)%Z -> nearest_binary64 n d = Qred (units n d # unit_den).
Proof.
  intros Hd. unfold nearest_binary64, units.
  set (k := Z.max _ 0). set (j := Z.min k 1074).
  assert (0 <= j <= k /\ j <= 1074)%Z as Hj by lia.
  assert (0 < 2 ^ j)%Z as H2j by (apply pow2_pos; lia).
  assert (0 < 2 ^ (k - j))%Z as H2kj by (apply pow2_pos; lia).
  assert (0 < 2 ^ (1074 - j))%Z as H2r by (apply pow2_pos; lia).
  assert (round_half_even (n * 2 ^ (1074 - j)) (d * 2 ^ (k - j))
          = round_half_even (n * 2 ^ 1074) (d * 2 ^ k))%Z as ->.
  { rewrite <- (rhe_scale (n * 2 ^ (1074 - j)) (d * 2 ^ (k - j)) (2 ^ j))
      by nia.
    f_equal.
    - rewrite <- Z.mul_assoc, <- Z.pow_add_r by lia. do 2 f_equal. lia.
    - rewrite <- Z.mul_assoc, <- Z.pow_add_r by lia. do 2 f_equal. lia. }
  apply Qred_complete. unfold Qeq. cbn [Qnum Qden].
  rewrite Z2Pos.id by lia. rewrite unit_den_Z.
  rewrite <- !Z.mul_assoc. f_equal.
  rewrite <- !Z.pow_add_r by lia. f_equal. lia.
Qed.

Lemma round64_nonneg_eq (q : Q) :
  0 <= q ->
  round64 q
  = let x := Qred (units (Qnum q) (Zpos (Qden q)) # unit_den) in
    if Qle_bool (inject_Z (2 ^ 1024)) x then Infinity else Finite x.
Proof.
  intros Hq. unfold round64.
  assert (0 <= Qnum q)%Z as Hn.
  { unfold Qle in Hq. cbn [Qnum Qden] in Hq. lia. }
  rewrite Z.abs_eq by lia.
  rewrite nearest_units by lia.
  destruct (Z.ltb_spec (Qnum q) 0); [lia|]. reflexivity.
Qed.

Lemma units_Qeq (a b : Q) :
  a == b -> (0 <= Qnum a)%Z ->
  units (Qnum a) (Zpos (Qden a)) = units (Qnum b) (Zpos (Qden b)).
Proof.
  intros Hab Ha. unfold Qeq in Hab.
  rewrite <- (units_scale (Qnum a) (Zpos (Qden a)) (Zpos (Qden b))) by lia.
  rewrite <- (units_scale (Qnum b) (Zpos (Qden b)) (Zpos (Qden a))) by lia.
  rewrite Hab. f_equal. lia.
Qed.

Lemma round64_Qeq (a b : Q) : 0 <= a -> a == b -> round64 a = round64 b.
Proof.
  intros Ha Hab.
  assert (0 <= b) as Hb by (rewrite <- Hab; exact Ha).
  rewrite !round64_nonneg_eq by assumption.
  rewrite (units_Qeq a b Hab); [reflexivity|].
  unfold Qle in Ha. cbn [Qnum Qden] in Ha. lia.
Qed.

Lemma units_Q_nonneg (q : Q) :
  0 <= q -> 0 <= Qred (units (Qnum q) (Zpos (Qden q)) # unit_den).
Proof.
  intros Hq. rewrite Qred_correct.
  unfold Qle. cbn [Qnum Qden].
  assert (0 <= Qnum q)%Z by (unfold Qle in Hq; cbn [Qnum Qden] in Hq; lia).
  pose proof (units_nonneg (Qnum q) (Zpos (Qden q))). lia.
Qed.

(** Rounding a non-negative number gives a value of a search. *)
Lemma round64_dval (q : Q) : 0 <= q -> dval (round64 q).
Proof.
  intros Hq. rewrite round64_nonneg_eq by assumption. cbv zeta.
  set (r := units (Qnum q) (Zpos (Qden q))).
  assert (0 <= Qnum q)%Z as Hn
    by (unfold Qle in Hq; cbn [Qnum Qden] in Hq; lia).
  set (x := Qred (r # unit_den)).
  destruct (Qle_bool (inject_Z (2 ^ 1024)) x) eqn:Eover; [exact I|].
  assert (0 <= x) as Hx by (apply units_Q_nonneg; exact Hq).
  split; [exact Hx|].
  assert (x == r # unit_den) as Hxr by apply Qred_correct.
  rewrite (round64_Qeq x (r # unit_den) Hx Hxr).
  rewrite round64_nonneg_eq by (rewrite <- Hxr; exact Hx).
  cbv zeta. cbn [Qnum Qden]. rewrite unit_den_Z.
  assert (units r (2 ^ 1074) = r) as -> by (unfold r; apply units_fix; lia).
  fold x. rewrite Eover. reflexivity.
Qed.

Lemma round64_mono (a b : Q) :
  0 <= a -> a <= b -> fle (round64 a) (round64 b).
Proof.
  intros Ha Hab.
  assert (0 <= b) as Hb by lra.
  rewrite !round64_nonneg_eq by assumption. cbv zeta.
  set (ra := units (Qnum a) (Zpos (Qden a))).
  set (rb := units (Qnum b) (Zpos (Qden b))).
  assert (ra <= rb)%Z as Hr.
  { unfold ra, rb.
    rewrite <- (units_scale (Qnum a) (Zpos (Qden a)) (Zpos (Qden b))) by lia.
    rewrite <- (units_scale (Qnum b) (Zpos (Qden b)) (Zpos (Qden a))) by lia.
    replace (Zpos (Qden b) * Zpos (Qden a))%Z
      with (Zpos (Qden a) * Zpos (Qden b))%Z by lia.
    apply units_mono; [lia|].
    unfold Qle in Ha, Hab. cbn [Qnum Qden] in Ha. split; [nia | exact Hab]. }
  assert (Qred (ra # unit_den) <= Qred (rb # unit_den)) as Hx.
  { rewrite !Qred_correct. unfold Qle. cbn [Qnum Qden]. nia. }
  destruct (Qle_bool (inject_Z (2 ^ 1024)) (Qred (ra # unit_den))) eqn:Ea;
    destruct (Qle_bool (inject_Z (2 ^ 1024)) (Qred (rb # unit_den))) eqn:Eb;
    simpl; auto.
  apply Qle_bool_iff in Ea.
  assert (Qle_bool (inject_Z (2 ^ 1024)) (Qred (rb # unit_den)) = true) as E.
  { apply Qle_bool_iff. eapply Qle_trans; eauto. }
  congruence.
Qed.

Lemma Qltb_true (x y : Q) : Qltb x y = true <-> x < y.
Proof.
  unfold Qltb. rewrite negb_true_iff.
  destruct (Qle_bool y x) eqn:E.
  - apply Qle_bool_iff in E. split; [discriminate | lra].
  - split; auto. intros _.
    destruct (Qlt_le_dec x y) as [H | H]; auto.
    apply Qle_bool_iff in H. congruence.
Qed.

Lemma Qltb_false (x y : Q) : Qltb x y = false <-> y <= x.
Proof.
  unfold Qltb. rewrite negb_false_iff. apply Qle_bool_iff.
Qed.

Lemma dval_not_nan (x : pyfloat) : dval x -> x <> NaN.
Proof. destruct x; simpl; intros H; try discriminate; tauto. Qed.

Lemma fle_refl (x : pyfloat) : x <> NaN -> fle x x.
Proof. destruct x; simpl; intros H; auto; try lra; congruence. Qed.

Lemma fle_trans (x y z : pyfloat) : fle x y -> fle y z -> fle x z.
Proof. destruct x, y, z; simpl; intros; auto; try tauto; lra. Qed.

Lemma fle_total (x y : pyfloat) : x <> NaN -> y <> NaN -> fle x y \/ fle y x.
Proof.
  destruct x as [a| | |], y as [b| | |]; simpl; intros; auto; try congruence.
  destruct (Qlt_le_dec a b); [left | right]; lra.
Qed.

Lemma fle_antisym (x y : pyfloat) :
  dval x -> dval y -> fle x y -> fle y x -> x = y.
Proof.
  destruct x as [a| | |], y as [b| | |]; simpl; try tauto.
  intros [Ha Hra] [Hb Hrb] H1 H2.
  assert (a == b) as E by lra.
  rewrite <- Hra, <- Hrb. now apply round64_Qeq.
Qed.

Lemma flt_true (x y : pyfloat) : flt x y = true -> fle x y.
Proof.
  destruct x, y; simpl; try discriminate; auto.
  intros H. apply Qltb_true in H. lra.
Qed.

Lemma flt_true_strict (x y : pyfloat) : flt x y = true -> ~ fle y x.
Proof.
  destruct x, y; simpl; try discriminate; auto.
  intros H. apply Qltb_true in H. lra.
Qed.

Lemma flt_false (x y : pyfloat) :
  x <> NaN -> y <> NaN -> flt x y = false -> fle y x.
Proof.
  destruct x, y; simpl; try discriminate; auto; try congruence.
  intros _ _ H. now apply Qltb_false in H.
Qed.

Lemma fle_flt_false (x y : pyfloat) : fle y x -> flt x y = false.
Proof.
  destruct x, y; simpl; try tauto; auto.
  intros H. now apply Qltb_false.
Qed.

Lemma feq_true (x y : pyfloat) : feq x y = true -> fle x y /\ fle y x.
Proof.
  destruct x, y; simpl; try discriminate; auto.
  intros H. apply Qeq_bool_eq in H. split; lra.
Qed.

Lemma feq_false (x y : pyfloat) : feq x y = false -> ~ (fle x y /\ fle y x).
Proof.
  destruct x, y; simpl; try discriminate; try tauto.
  intros H [H1 H2]. apply Qeq_bool_neq in H. apply H. lra.
Qed.

Lemma dval_zero : dval (Finite 0).
Proof. split; [lra | vm_compute; reflexivity]. Qed.

Lemma py_float_dval (w : Q) : 0 <= w -> dval (py_float w).
Proof. apply round64_dval. Qed.

Lemma py_float_Qeq (w w' : Q) : 0 <= w -> w == w' -> py_float w = py_float w'.
Proof. apply round64_Qeq. Qed.

Lemma fadd_dval (x w : pyfloat) : dval x -> dval w -> dval (fadd x w).
Proof.
  destruct x as [a| | |], w as [b| | |]; simpl; try tauto.
  intros [Ha _] [Hb _]. apply round64_dval. lra.
Qed.

Lemma fadd_mono (a b w : pyfloat) :
  dval a -> dval b -> dval w -> fle a b -> fle (fadd a w) (fadd b w).
Proof.
  destruct a as [a| | |], b as [b| | |], w as [w| | |]; simpl; try tauto.
  - intros [Ha _] [Hb _] [Hw _] Hab. apply round64_mono; lra.
  - intros [Ha _] _ [Hw _] _.
    pose proof (round64_dval (a + w)) as H.
    destruct (round64 (a + w)); simpl in *; auto. apply H. lra.
Qed.

Lemma fadd_infl (a w : pyfloat) : dval a -> dval w -> fle a (fadd a w).
Proof.
  destruct a as [a| | |], w as [w| | |]; simpl; try tauto.
  intros [Ha Hra] [Hw _].
  pose proof (round64_mono a (a + w)) as H.
  rewrite Hra in H. apply H; lra.
Qed.


(** *** Numbers that need no rounding *)



(** *** Comparisons *)

Ltac float_cases :=
  repeat match goal with
  | H : Qltb _ _ = true |- _ => apply Qltb_true in H
  | H : Qltb _ _ = false |- _ => apply Qltb_false in H
  | H : Qeq_bool _ _ = true |- _ => apply Qeq_bool_eq in H
  | H : Qeq_bool _ _ = false |- _ => apply Qeq_bool_neq in H
  | |- Qltb _ _ = true => apply Qltb_true
  | |- Qltb _ _ = false => apply Qltb_false
  | |- Qeq_bool _ _ = true => apply Qeq_bool_iff
  end.

Lemma fle_feq (x y : pyfloat) : fle x y -> fle y x -> feq x y = true.
Proof.
  destruct x, y; simpl; try tauto. intros H1 H2. float_cases. lra.
Qed.

Lemma feq_not_flt (x y : pyfloat) : feq x y = true -> flt x y = false.
Proof.
  destruct x, y; simpl; try discriminate; auto. intros H. float_cases. lra.
Qed.

Lemma flt_trans (x y z : pyfloat) :
  flt x y = true -> flt y z = true -> flt x z = true.
Proof.
  destruct x, y, z; simpl; try discriminate; auto.
  intros H1 H2. float_cases. lra.
Qed.

Lemma flt_feq_trans (x y z : pyfloat) :
  flt x y = true -> feq y z = true -> flt x z = true.
Proof.
  destruct x, y, z; simpl; try discriminate; auto.
  intros H1 H2. float_cases. lra.
Qed.

Lemma feq_flt_trans (x y z : pyfloat) :
  feq x y = true -> flt y z = true -> flt x z = true.
Proof.
  destruct x, y, z; simpl; try discriminate; auto.
  intros H1 H2. float_cases. lra.
Qed.

Lemma feq_trans (x y z : pyfloat) :
  feq x y = true -> feq y z = true -> feq x z = true.
Proof.
  destruct x, y, z; simpl; try discriminate; auto.
  intros H1 H2. float_cases. lra.
Qed.

(** ** The heap *)

Lemma entry_lt_true (a b : entry) :
  entry_lt a b = true -> fle (entry_dist a) (entry_dist b).
Proof.
  destruct a as [[d1 c1] v1], b as [[d2 c2] v2]. unfold entry_lt, entry_dist; simpl.
  destruct (feq d1 d2) eqn:E; simpl.
  - intros _. now apply feq_true in E.
  - apply flt_true.
Qed.

Lemma entry_lt_false (a b : entry) :
  entry_dist a <> NaN -> entry_dist b <> NaN ->
  entry_lt a b = false -> fle (entry_dist b) (entry_dist a).
Proof.
  destruct a as [[d1 c1] v1], b as [[d2 c2] v2]. unfold entry_lt, entry_dist; simpl.
  intros Ha Hb. destruct (feq d1 d2) eqn:E; simpl.
  - intros _. now apply feq_true in E.
  - now apply flt_false.
Qed.

Lemma heappop_None (h : list entry) : heappop h = None -> h = [].
Proof.
  destruct h as [|x h]; simpl; auto.
  destruct (heappop h) as [[m r]|]; [destruct (entry_lt m x)|]; discriminate.
Qed.

(** [heappop] splits the heap into a least element and the others. *)
Lemma heappop_Some (h : list entry) (m : entry) (r : list entry) :
  heappop h = Some (m, r) ->
  (forall x, In x h <-> x = m \/ In x r)
  /\ length h = S (length r)
  /\ ((forall x, In x h -> entry_dist x <> NaN) ->
      forall x, In x h -> fle (entry_dist m) (entry_dist x)).
Proof.
  revert m r. induction h as [|x h IH]; simpl; intros m r H; [discriminate|].
  destruct (heappop h) as [[m' r']|] eqn:E.
  - destruct (IH m' r' eq_refl) as (Hin & Hlen & Hmin).
    destruct (entry_lt m' x) eqn:Elt; inversion H; subst; clear H.
    + split; [|split].
      * intros y. simpl. rewrite Hin. intuition.
      * simpl. lia.
      * intros Hnan y [Hy | Hy].
        -- subst y. now apply entry_lt_true.
        -- apply Hmin; auto.
    + split; [|split].
      * intros y. simpl. intuition congruence.
      * reflexivity.
      * intros Hnan y [Hy | Hy].
        -- subst y. apply fle_refl. apply Hnan. now left.
        -- assert (In m' r) as Hm' by (apply Hin; now left).
           apply entry_lt_false in Elt; auto.
           eapply fle_trans; [exact Elt|]. apply Hmin; auto.
  - apply heappop_None in E. subst h. inversion H; subst; clear H.
    split; [|split].
    + intros y. simpl. intuition congruence.
    + reflexivity.
    + intros Hnan y [Hy | []]. subst y. apply fle_refl. apply Hnan. now left.
Qed.

(** *** The popped tuple does not depend on the layout of the heap

    In a run the tuples of the heap have distinct counters, so as long as
    no distance is NaN Python's tuple order is a strict total order on them
    and never compares nodes; [heappop] returns the one tuple that is below
    all others, which is what [heapq.heappop] returns from any heap that
    holds the same tuples. *)

Lemma entry_lt_spec (a b : entry) :
  entry_count a <> entry_count b ->
  entry_lt a b = true
  <-> flt (entry_dist a) (entry_dist b) = true
      \/ (feq (entry_dist a) (entry_dist b) = true
          /\ (entry_count a < entry_count b)%nat).
Proof.
  destruct a as [[d1 c1] v1], b as [[d2 c2] v2].
  unfold entry_lt, entry_count, entry_dist; simpl. intros Hc.
  destruct (feq d1 d2) eqn:E; simpl.
  - destruct (Nat.eqb_spec c1 c2) as [|_]; [contradiction|]. simpl.
    rewrite Nat.ltb_lt. rewrite (feq_not_flt _ _ E).
    split; [auto|]. intros [H | [_ H]]; [discriminate | exact H].
  - split; [auto|]. intros [H | [H _]]; [exact H | discriminate].
Qed.

Lemma entry_lt_total (a b : entry) :
  entry_count a <> entry_count b ->
  entry_dist a <> NaN -> entry_dist b <> NaN ->
  entry_lt a b = false -> entry_lt b a = true.
Proof.
  intros Hc Ha Hb Hlt. apply entry_lt_spec; [congruence|].
  destruct (entry_lt_spec a b Hc) as [_ Hspec].
  destruct (flt (entry_dist b) (entry_dist a)) eqn:Eba; [now left|].
  destruct (flt (entry_dist a) (entry_dist b)) eqn:Eab.
  - rewrite Hspec in Hlt by now left. discriminate.
  - right. apply flt_false in Eba; auto. apply flt_false in Eab; auto.
    split; [now apply fle_feq|].
    destruct (Nat.lt_ge_cases (entry_count b) (entry_count a)) as [Hn | Hn]; auto.
    rewrite Hspec in Hlt; [discriminate|]. right.
    split; [now apply fle_feq | lia].
Qed.

Lemma entry_lt_trans (a b e : entry) :
  entry_count a <> entry_count b ->
  entry_count b <> entry_count e ->
  entry_count a <> entry_count e ->
  entry_lt a b = true -> entry_lt b e = true -> entry_lt a e = true.
Proof.
  intros Hab Hbe Hae H1 H2.
  apply entry_lt_spec in H1; auto. apply entry_lt_spec in H2; auto.
  apply entry_lt_spec; auto.
  destruct H1 as [H1 | [H1 H1']], H2 as [H2 | [H2 H2']].
  - left. eapply flt_trans; eauto.
  - left. eapply flt_feq_trans; eauto.
  - left. eapply feq_flt_trans; eauto.
  - right. split; [eapply feq_trans; eauto | lia].
Qed.

Lemma heappop_Permutation (h : list entry) (m : entry) (r : list entry) :
  heappop h = Some (m, r) -> Permutation h (m :: r).
Proof.
  revert m r. induction h as [|x h IH]; simpl; intros m r H; [discriminate|].
  destruct (heappop h) as [[m' r']|] eqn:E.
  - specialize (IH m' r' eq_refl).
    destruct (entry_lt m' x); inversion H; subst; clear H.
    + eapply perm_trans; [apply perm_skip, IH | apply perm_swap].
    + apply Permutation_refl.
  - apply heappop_None in E. subst h. inversion H; subst. apply Permutation_refl.
Qed.

(** With distinct counters and no NaN the popped tuple is strictly below
    every tuple that stays in the heap. *)
Lemma heappop_least (h : list entry) (m : entry) (r : list entry) :
  NoDup (map entry_count h) ->
  (forall x, In x h -> entry_dist x <> NaN) ->
  heappop h = Some (m, r) ->
  forall x, In x r -> entry_lt m x = true.
Proof.
  revert m r. induction h as [|x0 h IH]; simpl; intros m r Hnd Hnan H;
    [discriminate|].
  inversion Hnd as [|? ? Hx0 Hnd']; subst.
  destruct (heappop h) as [[m' r']|] eqn:E.
  - assert (forall x, In x h -> entry_dist x <> NaN) as Hnan' by auto.
    specialize (IH m' r' Hnd' Hnan' eq_refl).
    pose proof (heappop_Permutation _ _ _ E) as Hperm.
    assert (forall y, In y h -> entry_count x0 <> entry_count y) as Hfresh.
    { intros y Hy Heq. apply Hx0. rewrite Heq. now apply in_map. }
    assert (NoDup (map entry_count (m' :: r'))) as Hnd2.
    { eapply Permutation_NoDup; [apply Permutation_map, Hperm | exact Hnd']. }
    assert (In m' h) as Hm'.
    { eapply Permutation_in; [apply Permutation_sym, Hperm | now left]. }
    destruct (entry_lt m' x0) eqn:Elt; inversion H; subst; clear H.
    + intros y [<- | Hy]; auto.
    + intros y Hy.
      assert (entry_lt m m' = true) as Hmm'.
      { apply entry_lt_total; auto. intros Heq. now apply (Hfresh m'). }
      eapply Permutation_in in Hy; [|exact Hperm].
      destruct Hy as [<- | Hy]; [exact Hmm'|].
      apply entry_lt_trans with (b := m'); auto.
      * simpl in Hnd2. inversion Hnd2 as [|? ? Hm'r _]; subst.
        intros Heq. apply Hm'r. rewrite Heq. now apply in_map.
      * apply Hfresh. eapply Permutation_in; [apply Permutation_sym, Hperm|].
        now right.
  - inversion H; subst. intros y [].
Qed.

Lemma initial_counters_fresh (source : node) (paths0 : option (Dict.t (list node))) :
  counters_fresh
    (mkState [] [(source, Finite 0)] (heappush [] (Finite 0, 0%nat, source))
             1%nat paths0).
Proof.
  split; simpl.
  - repeat constructor. tauto.
  - intros e [<- | []]. unfold entry_count. simpl. lia.
Qed.

Lemma pop_counters_fresh (st : dijkstra_state) (e : entry) (rest : list entry)
    (dist' : Dict.t pyfloat) :
  counters_fresh st ->
  heappop (fringe st) = Some (e, rest) ->
  counters_fresh (mkState dist' (seen st) rest (c st) (paths st)).
Proof.
  intros [Hnd Hlt] Hpop. apply heappop_Permutation in Hpop.
  split; cbn [fringe c].
  - assert (NoDup (map entry_count (e :: rest))) as H.
    { eapply Permutation_NoDup; [apply Permutation_map, Hpop | exact Hnd]. }
    now inversion H.
  - intros x Hx. apply Hlt.
    eapply Permutation_in; [apply Permutation_sym, Hpop | now right].
Qed.

(** The shapes of the result of [relax]. *)
Lemma relax_cases (v : node) (d : pyfloat) (st st' : dijkstra_state)
    (u : node) (cost : Q) :
  relax v d st (u, cost) = Ret st' ->
  st' = st
  \/ exists ps', st' = mkState (dist st)
                         (Dict.set (seen st) u (fadd d (py_float cost)))
                         (heappush (fringe st) (fadd d (py_float cost), c st, u))
                         (S (c st)) ps'
                 /\ Dict.get (dist st) u = None
                 /\ (paths st = None <-> ps' = None).
Proof.
  unfold relax.
  destruct (Dict.get (dist st) u).
  - destruct (flt _ _); [discriminate|]. intros H; inversion H; subst. auto.
  - destruct (match Dict.get (seen st) u with None => true | Some s => flt _ s end).
    + destruct (paths st) as [ps|]; simpl.
      * destruct (Dict.item ps v); simpl; try discriminate.
        intros H; inversion H; subst. right. eexists. split; [reflexivity|].
        split; auto. split; discriminate.
      * intros H; inversion H; subst. right. eexists. split; [reflexivity|].
        split; auto. tauto.
    + intros H; inversion H; subst. auto.
Qed.

Lemma relax_counters_fresh (v : node) (d : pyfloat) (st st' : dijkstra_state)
    (ue : node * Q) :
  counters_fresh st -> relax v d st ue = Ret st' -> counters_fresh st'.
Proof.
  intros Hst H. destruct ue as [u cost].
  apply relax_cases in H. destruct H as [-> | (ps' & -> & _)]; auto.
  destruct Hst as [Hnd Hlt].
  split; cbn [fringe c heappush map].
  - constructor; auto. unfold entry_count at 1. simpl.
    intros Hin. apply in_map_iff in Hin. destruct Hin as (e & He & Hin).
    specialize (Hlt e Hin). lia.
  - intros e [<- | He].
    + unfold entry_count. simpl. lia.
    + specialize (Hlt e He). lia.
Qed.

(** ** Termination of the search loop *)

Lemma pending_le_all (G_succ : Dict.t (Dict.t Q)) (final : Dict.t pyfloat) :
  (pending G_succ final <= list_sum (map (fun '(_, nb) => length nb) G_succ))%nat.
Proof.
  unfold pending. induction G_succ as [|[k nb] g IH]; simpl; [lia|].
  destruct (Dict.mem final k); lia.
Qed.

Lemma pending_finalise (G_succ : Dict.t (Dict.t Q)) (final : Dict.t pyfloat)
    (v : node) (d : pyfloat) (nbrs : Dict.t Q) :
  Dict.get G_succ v = Some nbrs ->
  Dict.mem final v = false ->
  (pending G_succ (Dict.set final v d) + length nbrs <= pending G_succ final)%nat.
Proof.
  intros Hget Hmem. unfold pending.
  assert (forall k, Dict.mem final k = true -> Dict.mem (Dict.set final v d) k = true)
    as Hmono.
  { intros k Hk. unfold Dict.mem in *.
    destruct (Nat.eq_dec v k) as [-> | Hne].
    - now rewrite DictFacts.get_set_same.
    - now rewrite DictFacts.get_set_other. }
  assert (forall g : Dict.t (Dict.t Q),
    (list_sum (map (fun '(k, nb) => if Dict.mem (Dict.set final v d) k
                                    then 0%nat else length nb) g)
     <= list_sum (map (fun '(k, nb) => if Dict.mem final k
                                       then 0%nat else length nb) g))%nat) as Hle.
  { induction g as [|[k nb] g IH]; simpl; [lia|].
    destruct (Dict.mem final k) eqn:E.
    - rewrite (Hmono _ E). lia.
    - destruct (Dict.mem (Dict.set final v d) k); lia. }
  induction G_succ as [|[k nb] g IH]; simpl in *; [discriminate|].
  destruct (Nat.eqb_spec k v).
  - subst k. inversion Hget; subst nb. rewrite Hmem.
    unfold Dict.mem at 1. rewrite DictFacts.get_set_same.
    specialize (Hle g). lia.
  - specialize (IH Hget).
    destruct (Dict.mem final k) eqn:E.
    + rewrite (Hmono _ E). lia.
    + destruct (Dict.mem (Dict.set final v d) k); lia.
Qed.

Lemma relax_size (v : node) (d : pyfloat) (st st' : dijkstra_state) (ue : node * Q) :
  relax v d st ue = Ret st' ->
  dist st' = dist st /\ (length (fringe st') <= S (length (fringe st)))%nat.
Proof.
  destruct ue as [u cost]. intros H.
  apply relax_cases in H. destruct H as [-> | (ps' & -> & _)]; simpl; auto.
Qed.

Lemma for_each_relax_size (v : node) (d : pyfloat) (nbrs : Dict.t Q)
    (st st' : dijkstra_state) :
  for_each (relax v d) nbrs st = Ret st' ->
  dist st' = dist st
  /\ (length (fringe st') <= length nbrs + length (fringe st))%nat.
Proof.
  revert st. induction nbrs as [|ue nbrs IH]; simpl; intros st H.
  - inversion H; subst. auto.
  - destruct (relax v d st ue) as [st1| |] eqn:E; simpl in H; try discriminate.
    apply relax_size in E. destruct E as [E1 E2].
    apply IH in H. destruct H as [H1 H2]. split; [congruence | lia].
Qed.

(** [relax] never runs out of fuel: it has none. *)
Lemma relax_no_fuel (v : node) (d : pyfloat) (st : dijkstra_state) (ue : node * Q) :
  relax v d st ue <> OutOfFuel.
Proof.
  destruct ue as [u cost]. unfold relax.
  destruct (Dict.get (dist st) u).
  - destruct (flt _ _); discriminate.
  - destruct (match Dict.get (seen st) u with None => true | Some s => flt _ s end);
      [|discriminate].
    destruct (paths st) as [ps|]; simpl; [|discriminate].
    unfold Dict.item. destruct (Dict.get ps v); discriminate.
Qed.

Lemma for_each_relax_no_fuel (v : node) (d : pyfloat) (nbrs : Dict.t Q)
    (st : dijkstra_state) :
  for_each (relax v d) nbrs st <> OutOfFuel.
Proof.
  revert st. induction nbrs as [|ue nbrs IH]; simpl; intros st; [discriminate|].
  destruct (relax v d st ue) as [st1| |] eqn:E; simpl; try discriminate.
  - apply IH.
  - now apply relax_no_fuel in E.
Qed.

(** With more fuel than pending work the loop never runs dry, whatever the
    graph and the weights are. *)
Lemma dijkstra_loop_terminates (G_succ : Dict.t (Dict.t Q)) (target : node)
    (fuel : nat) (st : dijkstra_state) :
  (length (fringe st) + pending G_succ (dist st) < fuel)%nat ->
  dijkstra_loop fuel G_succ target st <> OutOfFuel.
Proof.
  revert st. induction fuel as [|fuel IH]; intros st Hlt; [lia|].
  simpl. destruct (heappop (fringe st)) as [[[[d k] v] rest]|] eqn:Epop;
    [|discriminate].
  apply heappop_Some in Epop. destruct Epop as (_ & Hlen & _).
  destruct (Dict.mem (dist st) v) eqn:Emem.
  - apply IH. simpl. lia.
  - destruct (Nat.eqb v target); [discriminate|].
    unfold Dict.item. destruct (Dict.get G_succ v) as [nbrs|] eqn:Eadj; simpl;
      [|discriminate].
    destruct (for_each (relax v d) nbrs _) as [st'| |] eqn:Efor; simpl;
      try discriminate.
    + apply for_each_relax_size in Efor. simpl in Efor. destruct Efor as [Hd Hf].
      apply IH. rewrite Hd.
      pose proof (pending_finalise G_succ (dist st) v d nbrs Eadj Emem). lia.
    + now apply for_each_relax_no_fuel in Efor.
Qed.
(** ** Routes *)

Lemma last_cons_default (x : node) (l : list node) (a b : node) :
  last (x :: l) a = last (x :: l) b.
Proof.
  revert x. induction l as [|y l IH]; intros x; [reflexivity|].
  change (last (y :: l) a = last (y :: l) b). apply IH.
Qed.

Lemma route_path_weight (G : Graph) (a b : node) (p : list node) (w : Q) :
  route G a b p w ->
  path_weight G p = Some w /\ hd_error p = Some a /\ last p a = b.
Proof.
  induction 1 as [a | a b t p w r Hedge Hr IH].
  - simpl. auto.
  - destruct IH as (IHw & IHhd & IHlast).
    destruct p as [|b' p']; [discriminate|].
    simpl in IHhd. inversion IHhd; subst b'.
    split; [|split].
    + change (path_weight G (a :: b :: p')) with
        (match edge_weight G a b, path_weight G (b :: p') with
         | Some w, Some r => Some (w + r)
         | _, _ => None
         end).
      now rewrite Hedge, IHw.
    + reflexivity.
    + rewrite <- IHlast. change (last (b :: p') a = last (b :: p') b).
      apply last_cons_default.
Qed.

Lemma path_weight_route (G : Graph) (p : list node) (w : Q) (a : node) :
  path_weight G p = Some w ->
  hd_error p = Some a ->
  route G a (last p a) p w.
Proof.
  revert w a. induction p as [|x p IH]; intros w a Hw Hhd; [discriminate|].
  simpl in Hhd. inversion Hhd; subst x.
  destruct p as [|b p'].
  - simpl in Hw. inversion Hw; subst. simpl. constructor.
  - change (path_weight G (a :: b :: p')) with
      (match edge_weight G a b, path_weight G (b :: p') with
       | Some w, Some r => Some (w + r)
       | _, _ => None
       end) in Hw.
    destruct (edge_weight G a b) as [w1|] eqn:E1; [|discriminate].
    destruct (path_weight G (b :: p')) as [r|] eqn:E2; [|discriminate].
    inversion Hw; subst w.
    replace (last (a :: b :: p') a) with (last (b :: p') b).
    + apply route_step with (b := b); auto.
    + change (last (b :: p') b = last (b :: p') a). apply last_cons_default.
Qed.

Lemma route_of_path_weight (G : Graph) (p : list node) (w : Q) (a b : node) :
  path_weight G p = Some w ->
  hd_error p = Some a ->
  last p a = b ->
  route G a b p w.
Proof. intros Hw Hhd <-. now apply path_weight_route. Qed.


Section GraphFacts.
Variable G : Graph.
Hypothesis Hok : graph_ok G = true.

Lemma ok_same_keys : Dict.keys (_node G) = Dict.keys (_adj G).
Proof.
  unfold graph_ok in Hok. apply andb_prop in Hok. destruct Hok as [H _].
  apply andb_prop in H. destruct H as [H _]. now apply same_keys_eq.
Qed.

Lemma ok_nodes_nodup : NoDup (nodes G).
Proof.
  unfold nodes. rewrite ok_same_keys.
  unfold graph_ok in Hok. apply andb_prop in Hok. destruct Hok as [H _].
  apply andb_prop in H. destruct H as [_ H]. now apply nodupb_NoDup.
Qed.

Lemma ok_has_node (n : node) :
  has_node G n = true <-> exists nb, Dict.get (_adj G) n = Some nb.
Proof.
  unfold has_node. rewrite DictFacts.mem_keys, ok_same_keys.
  rewrite <- DictFacts.mem_keys. unfold Dict.mem.
  destruct (Dict.get (_adj G) n) as [nb|].
  - split; eauto.
  - split; [discriminate | intros [nb H]; discriminate].
Qed.

Lemma ok_has_node_In (n : node) : has_node G n = true <-> In n (nodes G).
Proof. unfold has_node, nodes. apply DictFacts.mem_keys. Qed.

Lemma ok_entry (u : node) (nb : Dict.t Q) :
  Dict.get (_adj G) u = Some nb ->
  NoDup (Dict.keys nb)
  /\ forall v w, In (v, w) nb ->
       exists w', edge_weight G v u = Some w' /\ w == w'.
Proof.
  intros Hget. apply DictFacts.get_In in Hget.
  unfold graph_ok in Hok. apply andb_prop in Hok. destruct Hok as [_ H].
  rewrite forallb_forall in H. specialize (H _ Hget). simpl in H.
  apply andb_prop in H. destruct H as [Hnd Hall].
  split; [now apply nodupb_NoDup|].
  intros v w Hin. rewrite forallb_forall in Hall. specialize (Hall _ Hin).
  simpl in Hall. destruct (edge_weight G v u) as [w'|]; [|discriminate].
  exists w'. split; auto. now apply Qeq_bool_eq.
Qed.

(** An entry of [G_succ[v].items()] is the edge that [G[v][u]] looks up. *)
Lemma ok_item_edge (v u : node) (nb : Dict.t Q) (w : Q) :
  Dict.get (_adj G) v = Some nb -> In (u, w) nb -> edge_weight G v u = Some w.
Proof.
  intros Hget Hin. unfold edge_weight. rewrite Hget.
  apply DictFacts.In_get; auto. now apply (ok_entry v nb).
Qed.

(** The graph is undirected. *)
Lemma ok_symmetric (u v : node) (w : Q) :
  edge_weight G u v = Some w ->
  exists w', edge_weight G v u = Some w' /\ w == w'.
Proof.
  unfold edge_weight at 1. destruct (Dict.get (_adj G) u) as [nb|] eqn:E;
    [|discriminate].
  intros Hget. apply DictFacts.get_In in Hget.
  destruct (ok_entry u nb E) as [_ H]. eauto.
Qed.

Lemma ok_edge_target (u v : node) (w : Q) :
  edge_weight G u v = Some w -> exists nb, Dict.get (_adj G) v = Some nb.
Proof.
  intros H. apply ok_symmetric in H. destruct H as (w' & H & _).
  unfold edge_weight in H. destruct (Dict.get (_adj G) v) as [nb|]; eauto.
  discriminate.
Qed.

Lemma route_end_in_graph (a b : node) (p : list node) (w : Q) :
  route G a b p w ->
  (exists nb, Dict.get (_adj G) a = Some nb) ->
  exists nb, Dict.get (_adj G) b = Some nb.
Proof.
  induction 1 as [a | a b t p w r Hedge Hr IH]; auto.
  intros _. apply IH. eapply ok_edge_target; eauto.
Qed.


Section NonNegative.
Hypothesis Hnn : nonneg_weights G = true.

Lemma nonneg_edge (u v : node) (w : Q) : edge_weight G u v = Some w -> 0 <= w.
Proof.
  unfold edge_weight. destruct (Dict.get (_adj G) u) as [nb|] eqn:E;
    [|discriminate].
  intros Hget. apply DictFacts.get_In in Hget. apply DictFacts.get_In in E.
  unfold nonneg_weights in Hnn. rewrite forallb_forall in Hnn.
  specialize (Hnn _ E). simpl in Hnn. rewrite forallb_forall in Hnn.
  specialize (Hnn _ Hget). simpl in Hnn. now apply Qle_bool_iff.
Qed.

Lemma route_nonneg (a b : node) (p : list node) (w : Q) :
  route G a b p w -> 0 <= w.
Proof.
  induction 1 as [a | a b t p w r Hedge Hr IH]; [lra|].
  apply nonneg_edge in Hedge. lra.
Qed.
End NonNegative.
End GraphFacts.

(** ** Walks and the sums of the search *)

Lemma last_cons (x : node) (l : list node) (a : node) :
  last (x :: l) a = last l x.
Proof.
  revert x a. induction l as [|y l IH]; intros x a; [reflexivity|].
  change (last (y :: l) a = last (y :: l) x).
  rewrite (IH y a), (IH y x). reflexivity.
Qed.

Lemma walk_sum_app (G : Graph) (acc : pyfloat) (a : node) (p q : list node) :
  walk_sum G acc a (p ++ q)
  = match walk_sum G acc a p with
    | Some acc' => walk_sum G acc' (last p a) q
    | None => None
    end.
Proof.
  revert acc a. induction p as [|b p IH]; intros acc a; [reflexivity|].
  cbn [app walk_sum]. destruct (edge_weight G a b) as [w|]; [|reflexivity].
  rewrite IH. now rewrite last_cons.
Qed.

(** A walk is a node list that starts at the source together with its
    sum. *)
Lemma walk_total (G : Graph) (s v : node) (p : list node) (d : pyfloat) :
  walk G s v p d ->
  exists p', p = s :: p' /\ walk_sum G (Finite 0) s p' = Some d /\ last p' s = v.
Proof.
  induction 1 as [|v u p d w Hw IH Hedge].
  - exists []. auto.
  - destruct IH as (p' & -> & Hsum & Hlast).
    exists (p' ++ [u]). split; [reflexivity|]. split.
    + rewrite walk_sum_app, Hsum, Hlast. cbn [walk_sum]. now rewrite Hedge.
    + apply last_last.
Qed.

Lemma total_walk (G : Graph) (s : node) (p' : list node) (d : pyfloat) :
  walk_sum G (Finite 0) s p' = Some d -> walk G s (last p' s) (s :: p') d.
Proof.
  revert d. induction p' as [|u q IH] using rev_ind; intros d Hsum.
  - simpl in Hsum. inversion Hsum; subst. constructor.
  - rewrite walk_sum_app in Hsum.
    destruct (walk_sum G (Finite 0) s q) as [d0|] eqn:E; [|discriminate].
    cbn [walk_sum] in Hsum.
    destruct (edge_weight G (last q s) u) as [w|] eqn:Hedge; [|discriminate].
    inversion Hsum; subst d. rewrite last_last.
    change (s :: q ++ [u]) with ((s :: q) ++ [u]).
    eapply walk_snoc; eauto.
Qed.

Lemma walk_path_total (G : Graph) (s v : node) (p : list node) (d : pyfloat) :
  walk G s v p d
  <-> path_total G p = Some d /\ hd_error p = Some s /\ last p s = v.
Proof.
  split.
  - intros H. apply walk_total in H. destruct H as (p' & -> & Hsum & Hlast).
    repeat split; auto. now rewrite last_cons.
  - intros (Hsum & Hhd & Hlast). destruct p as [|a p']; [discriminate|].
    simpl in Hhd. inversion Hhd; subst a. rewrite last_cons in Hlast.
    subst v. now apply total_walk.
Qed.

(** The sum along a node list is defined when the list is a path of the
    graph. *)
Lemma walk_sum_defined (G : Graph) (p : list node) (a : node) (acc : pyfloat) :
  walk_sum G acc a p <> None <-> path_weight G (a :: p) <> None.
Proof.
  revert a acc. induction p as [|b p IH]; intros a acc.
  - simpl. split; discriminate.
  - change (path_weight G (a :: b :: p)) with
      (match edge_weight G a b, path_weight G (b :: p) with
       | Some w, Some r => Some (w + r)
       | _, _ => None
       end).
    cbn [walk_sum]. destruct (edge_weight G a b) as [w|]; [|tauto].
    rewrite IH. destruct (path_weight G (b :: p)); split; congruence.
Qed.

Lemma walk_route (G : Graph) (s v : node) (p : list node) (d : pyfloat) :
  walk G s v p d -> exists w, route G s v p w.
Proof.
  intros H. apply walk_total in H. destruct H as (p' & -> & Hsum & Hlast).
  assert (path_weight G (s :: p') <> None) as Hw.
  { apply (walk_sum_defined G p' s (Finite 0)). congruence. }
  destruct (path_weight G (s :: p')) as [w|] eqn:E; [|congruence].
  exists w. apply route_of_path_weight; auto. now rewrite last_cons.
Qed.


Lemma dval_nonneg (x : pyfloat) : dval x -> fle (Finite 0) x.
Proof. destruct x; simpl; tauto. Qed.
(** ** The search loop computes shortest routes *)

Section Search.
Variable G : Graph.
Variables source target : node.
Hypothesis Hok : graph_ok G = true.
Hypothesis Hnn : nonneg_weights G = true.
Hypothesis Hsource : has_node G source = true.

Implicit Types (st : dijkstra_state) (v u x : node) (d : pyfloat).

Lemma weight_dval (u v : node) (w : Q) :
  edge_weight G u v = Some w -> dval (py_float w).
Proof. intros H. apply py_float_dval. eapply nonneg_edge; eauto. Qed.

(** The sum along a walk is a binary64 value that is not negative, or
    infinity. *)
Lemma walk_dval v (p : list node) d : walk G source v p d -> dval d.
Proof.
  induction 1 as [|v u p d w Hw IH Hedge]; [apply dval_zero|].
  apply fadd_dval; [exact IH | eapply weight_dval; eauto].
Qed.

Lemma seen_dval st v d :
  seen_sound G source st -> Dict.get (seen st) v = Some d -> dval d.
Proof.
  intros Hsound Hv. destruct (Hsound _ _ Hv) as (p & Hp & _).
  eapply walk_dval; eauto.
Qed.

(** Any walk that ends at a node that is not final sums to at least what
    every tuple of the heap allows. *)
Lemma lower_bound st (m : pyfloat) :
  src_seen source st -> seen_sound G source st -> dist_seen st ->
  fringe_complete st -> dist_optimal G source st ->
  (forall v, closed_at G st v) ->
  (forall d k u, In (d, k, u) (fringe st) -> fle m d) ->
  forall v q dq, walk G source v q dq ->
  Dict.get (dist st) v = None -> fle m dq.
Proof.
  intros Hsrc Hsound Hds Hfc Hopt Hcl Hm v q dq Hw.
  induction Hw as [|v u p d w Hw IH Hedge]; intros Hy.
  - destruct (Hfc _ _ Hsrc Hy) as (k & Hin). eapply Hm; eauto.
  - pose proof (weight_dval _ _ _ Hedge) as Hcost.
    pose proof (walk_dval _ _ _ Hw) as Hd.
    destruct (Dict.get (dist st) v) as [dv|] eqn:Ev.
    + destruct (Hcl v dv Ev u w Hedge) as (du & Hdu & Hle).
      destruct (Hfc _ _ Hdu Hy) as (k & Hin).
      eapply fle_trans; [eapply Hm; eauto|].
      eapply fle_trans; [exact Hle|].
      apply fadd_mono; auto.
      * eapply seen_dval; eauto.
      * eapply Hopt; eauto.
    + eapply fle_trans; [apply IH; reflexivity|]. now apply fadd_infl.
Qed.

(** When the heap is empty every node that a walk reaches is final. *)
Lemma exhausted st :
  src_seen source st -> fringe_complete st -> (forall v, closed_at G st v) ->
  fringe st = [] ->
  forall v q dq, walk G source v q dq -> Dict.get (dist st) v <> None.
Proof.
  intros Hsrc Hfc Hcl Hempty v q dq Hw.
  induction Hw as [|v u p d w Hw IH Hedge]; intros Hy.
  - destruct (Hfc _ _ Hsrc Hy) as (k & Hin). rewrite Hempty in Hin. destruct Hin.
  - destruct (Dict.get (dist st) v) as [dv|] eqn:Ev; [|congruence].
    destruct (Hcl v dv Ev u w Hedge) as (du & Hdu & _).
    destruct (Hfc _ _ Hdu Hy) as (k & Hin). rewrite Hempty in Hin. destruct Hin.
Qed.

Lemma fringe_not_nan st :
  fringe_sound st -> forall e, In e (fringe st) -> entry_dist e <> NaN.
Proof.
  intros Hfs [[d k] v] Hin. apply dval_not_nan. now apply (Hfs d k v).
Qed.

(** Popping a tuple whose node is already final. *)
Lemma pop_old st d (k : nat) v (rest : list entry) :
  Inv G source st ->
  heappop (fringe st) = Some ((d, k, v), rest) ->
  Dict.mem (dist st) v = true ->
  Inv G source (mkState (dist st) (seen st) rest (c st) (paths st)).
Proof.
  intros [[Hsrc Hsound Hds Hfs Hfc Hopt Hbel] Hcl] Hpop Hmem.
  apply heappop_Some in Hpop. destruct Hpop as (Hin & _ & _).
  split; [constructor|]; simpl; auto.
  - intros d1 k1 v1 H1. apply (Hfs d1 k1 v1). apply Hin. now right.
  - intros x dx Hx Hnone. simpl in Hx, Hnone.
    destruct (Hfc _ _ Hx Hnone) as (k1 & H1).
    exists k1. apply Hin in H1. destruct H1 as [H1 | H1]; auto.
    inversion H1; subst. unfold Dict.mem in Hmem. rewrite Hnone in Hmem.
    discriminate.
  - intros x dx d1 k1 u Hx H1. apply (Hbel x dx d1 k1 u Hx). apply Hin. now right.
Qed.

(** Popping a tuple whose node becomes final. *)
Lemma pop_new st d (k : nat) v (rest : list entry) :
  Inv G source st ->
  heappop (fringe st) = Some ((d, k, v), rest) ->
  Dict.mem (dist st) v = false ->
  let st1 := mkState (Dict.set (dist st) v d) (seen st) rest (c st) (paths st) in
  core G source st1
  /\ (forall x, x <> v -> closed_at G st1 x)
  /\ (forall x dx, Dict.get (dist st1) x = Some dx -> fle dx d).
Proof.
  intros [[Hsrc Hsound Hds Hfs Hfc Hopt Hbel] Hcl] Hpop Hmem.
  apply heappop_Some in Hpop. destruct Hpop as (Hin & _ & Hmin).
  specialize (Hmin (fringe_not_nan st Hfs)).
  apply DictFacts.mem_false in Hmem.
  assert (In (d, k, v) (fringe st)) as Hpopped by (apply Hin; now left).
  assert (forall d1 k1 u1, In (d1, k1, u1) (fringe st) -> fle d d1) as Hmin'.
  { intros d1 k1 u1 H1. apply (Hmin _ H1). }
  destruct (Hfs _ _ _ Hpopped) as (Hdval & d' & Hd' & Hle).
  assert (d' = d) as ->.
  { destruct (Hfc _ _ Hd' Hmem) as (k' & Hin').
    apply fle_antisym; auto. eapply seen_dval; eauto. eapply Hmin'; eauto. }
  assert (forall x dx, Dict.get (Dict.set (dist st) v d) x = Some dx ->
            (x = v /\ dx = d) \/ (x <> v /\ Dict.get (dist st) x = Some dx)) as Hcase.
  { intros x dx Hx. destruct (Nat.eq_dec v x) as [-> | Hne].
    - rewrite DictFacts.get_set_same in Hx. left. split; congruence.
    - rewrite DictFacts.get_set_other in Hx by auto. right. split; auto. }
  simpl. split; [constructor|split]; unfold_inv; cbn [dist seen fringe c paths];
    auto.
  - (* dist_seen *)
    intros x dx Hx.
    destruct (Hcase _ _ Hx) as [[-> ->] | [Hne Hx']]; auto.
  - (* fringe_sound *)
    intros d1 k1 v1 H1. apply (Hfs d1 k1 v1). apply Hin. now right.
  - (* fringe_complete *)
    intros x dx Hx Hnone.
    destruct (Nat.eq_dec v x) as [-> | Hne].
    + rewrite DictFacts.get_set_same in Hnone. discriminate.
    + rewrite DictFacts.get_set_other in Hnone by auto.
      destruct (Hfc _ _ Hx Hnone) as (k1 & H1). exists k1.
      apply Hin in H1. destruct H1 as [H1 | H1]; auto.
      inversion H1; subst. congruence.
  - (* dist_optimal *)
    intros x dx Hx q dq Hw.
    destruct (Hcase _ _ Hx) as [[-> ->] | [Hne Hx']].
    + eapply (lower_bound st d); eauto.
    + eapply Hopt; eauto.
  - (* dist_below_fringe *)
    intros x dx d1 k1 u Hx H1.
    assert (In (d1, k1, u) (fringe st)) as H1' by (apply Hin; now right).
    destruct (Hcase _ _ Hx) as [[-> ->] | [Hne Hx']].
    + eapply Hmin'; eauto.
    + eapply Hbel; eauto.
  - (* closed elsewhere *)
    intros x Hne dx Hx u w Hedge.
    rewrite DictFacts.get_set_other in Hx by auto.
    eapply Hcl; eauto.
  - (* everything final is at most d *)
    intros x dx Hx.
    destruct (Hcase _ _ Hx) as [[-> ->] | [Hne Hx']].
    + apply fle_refl. now apply dval_not_nan.
    + eapply Hbel; eauto.
Qed.

(** One step of the [for] loop: no exception, and the invariant moves on
    to the remaining neighbours. *)
Lemma relax_ok v d (rest : Dict.t Q) st u (cost : Q) :
  Mid G source v d ((u, cost) :: rest) st ->
  edge_weight G v u = Some cost ->
  exists st', relax v d st (u, cost) = Ret st' /\ Mid G source v d rest st'.
Proof.
  intros [[Hsrc Hsound Hds Hfs Hfc Hopt Hbel] Hcl Hdv Hle Hedges] Hedge.
  pose proof (weight_dval _ _ _ Hedge) as Hcost.
  pose proof (Hds _ _ Hdv) as Hsv.
  destruct (Hsound _ _ Hsv) as (pv & Hwv & Hpv).
  pose proof (walk_dval _ _ _ Hwv) as Hd.
  pose proof (fadd_dval _ _ Hd Hcost) as Hvu.
  pose proof (fadd_infl _ _ Hd Hcost) as Hinfl.
  unfold relax.
  set (vu_dist := fadd d (py_float cost)) in *.
  destruct (Dict.get (dist st) u) as [u_dist|] eqn:Eu.
  - (* u is final: the new distance cannot be smaller *)
    pose proof (Hle _ _ Eu) as Hud.
    assert (flt vu_dist u_dist = false) as ->.
    { apply fle_flt_false. eapply fle_trans; eauto. }
    exists st. split; auto.
    constructor; auto; [constructor; auto|].
    intros u' w' He. destruct (Hedges _ _ He) as [[Heq | Hin] | Hrel]; auto.
    inversion Heq; subst. right.
    exists u_dist. split; [now apply Hds|]. eapply fle_trans; eauto.
  - destruct (match Dict.get (seen st) u with
              | None => true
              | Some seen_u => flt vu_dist seen_u
              end) eqn:Eupd.
    + (* a first or a better distance for u *)
      assert (forall su, Dict.get (seen st) u = Some su -> flt vu_dist su = true)
        as Hlt.
      { intros su Hsu. now rewrite Hsu in Eupd. }
      assert (u <> v) as Huv by congruence.
      pose proof (walk_snoc G source v u pv d cost Hwv Hedge) as Hw'.
      fold vu_dist in Hw'.
      set (seen' := Dict.set (seen st) u vu_dist).
      assert (forall x dx, Dict.get (seen st) x = Some dx ->
                exists dx', Dict.get seen' x = Some dx' /\ fle dx' dx) as Hmono.
      { intros x dx Hx. unfold seen'. destruct (Nat.eq_dec u x) as [<- | Hne].
        - rewrite DictFacts.get_set_same. exists vu_dist. split; auto.
          apply flt_true. now apply Hlt.
        - rewrite DictFacts.get_set_other by auto. exists dx. split; auto.
          apply fle_refl, dval_not_nan. eapply seen_dval; eauto. }
      assert (forall paths' : option (Dict.t (list node)),
                (forall ps', paths' = Some ps' ->
                   exists ps, paths st = Some ps
                              /\ ps' = Dict.set ps u (pv ++ [u])) ->
                Mid G source v d rest
                    (mkState (dist st) seen'
                             (heappush (fringe st) (vu_dist, c st, u))
                             (S (c st)) paths')) as Hmid.
      { intros paths' Hpaths'.
        constructor; [constructor|..]; unfold_inv;
          cbn [dist seen fringe c paths].
        - (* src_seen *)
          unfold seen'. rewrite DictFacts.get_set_other; auto.
          intros ->. specialize (Hlt _ Hsrc).
          apply flt_true_strict in Hlt. apply Hlt. now apply dval_nonneg.
        - (* seen_sound *)
          intros x dx Hx. unfold seen' in Hx.
          destruct (Nat.eq_dec u x) as [<- | Hne].
          + rewrite DictFacts.get_set_same in Hx. inversion Hx; subst dx.
            exists (pv ++ [u]). split; [exact Hw'|].
            intros ps' Hps'. destruct (Hpaths' _ Hps') as (ps & _ & ->).
            apply DictFacts.get_set_same.
          + rewrite DictFacts.get_set_other in Hx by auto.
            destruct (Hsound _ _ Hx) as (p & Hw & Hp).
            exists p. split; auto.
            intros ps' Hps'. destruct (Hpaths' _ Hps') as (ps & Hps & ->).
            rewrite DictFacts.get_set_other by auto. auto.
        - (* dist_seen *)
          intros x dx Hx. unfold seen'.
          rewrite DictFacts.get_set_other; auto. congruence.
        - (* fringe_sound *)
          intros d1 k1 x [Hnew | Hold].
          + inversion Hnew; subst. split; [exact Hvu|].
            exists vu_dist. split; [apply DictFacts.get_set_same|].
            apply fle_refl. now apply dval_not_nan.
          + destruct (Hfs _ _ _ Hold) as (Hd1 & d' & Hd' & Hdd).
            split; [exact Hd1|].
            destruct (Hmono _ _ Hd') as (dx' & Hdx' & Hle').
            exists dx'. split; auto. eapply fle_trans; eauto.
        - (* fringe_complete *)
          intros x dx Hx Hnone. unfold seen' in Hx.
          destruct (Nat.eq_dec u x) as [<- | Hne].
          + rewrite DictFacts.get_set_same in Hx. inversion Hx; subst dx.
            exists (c st). now left.
          + rewrite DictFacts.get_set_other in Hx by auto.
            destruct (Hfc _ _ Hx Hnone) as (k1 & H1). exists k1. now right.
        - exact Hopt.
        - (* dist_below_fringe *)
          intros x dx d1 k1 u1 Hx [Hnew | Hold].
          + inversion Hnew; subst. specialize (Hle _ _ Hx).
            eapply fle_trans; eauto.
          + eapply Hbel; eauto.
        - (* closed elsewhere *)
          intros x Hne dx Hx u1 w1 He.
          destruct (Hcl x Hne dx Hx u1 w1 He) as (du & Hdu & Hle').
          destruct (Hmono _ _ Hdu) as (du' & Hdu' & Hle'').
          exists du'. split; auto. eapply fle_trans; eauto.
        - exact Hdv.
        - exact Hle.
        - (* edges of v *)
          intros u1 w1 He. destruct (Hedges _ _ He) as [[Heq | Hin] | Hrel]; auto.
          + injection Heq as Hu Hw. subst u1 w1.
            right. exists vu_dist. split; [apply DictFacts.get_set_same|].
            apply fle_refl. now apply dval_not_nan.
          + right. destruct Hrel as (du & Hdu & Hle').
            destruct (Hmono _ _ Hdu) as (du' & Hdu' & Hle'').
            exists du'. split; auto. eapply fle_trans; eauto. }
      destruct (paths st) as [ps|] eqn:Eps.
      * unfold Dict.item. rewrite (Hpv ps eq_refl). simpl.
        eexists. split; [reflexivity|]. apply Hmid.
        intros ps' Hps'. inversion Hps'; subst. eauto.
      * simpl. eexists. split; [reflexivity|]. apply Hmid.
        intros ps' Hps'. discriminate.
    + (* the distance seen before is at least as good *)
      destruct (Dict.get (seen st) u) as [su|] eqn:Esu; [|discriminate].
      assert (fle su vu_dist) as Hsu.
      { apply flt_false; auto using dval_not_nan.
        apply dval_not_nan. eapply seen_dval; eauto. }
      exists st. split; auto.
      constructor; auto; [constructor; auto|].
      intros u' w' He. destruct (Hedges _ _ He) as [[Heq | Hin] | Hrel]; auto.
      inversion Heq; subst. right. exists su. split; auto.
Qed.

Lemma for_each_relax_ok v d (rest : Dict.t Q) st :
  Mid G source v d rest st ->
  (forall u w, In (u, w) rest -> edge_weight G v u = Some w) ->
  exists st', for_each (relax v d) rest st = Ret st' /\ Mid G source v d [] st'.
Proof.
  revert st. induction rest as [|[u cost] rest IH]; intros st Hmid Hall.
  - exists st. split; auto.
  - destruct (relax_ok v d rest st u cost Hmid) as (st1 & Hst1 & Hmid1).
    { apply Hall. now left. }
    destruct (IH st1 Hmid1) as (st' & Hst' & Hmid').
    { intros u' w' Hin. apply Hall. now right. }
    exists st'. split; auto.
    change (for_each (relax v d) ((u, cost) :: rest) st)
      with (st1 <- relax v d st (u, cost) ;; for_each (relax v d) rest st1).
    rewrite Hst1. exact Hst'.
Qed.

Lemma mid_done v d st : Mid G source v d [] st -> Inv G source st.
Proof.
  intros [Hcore Hcl Hdv Hle Hedges]. split; auto.
  intros x. destruct (Nat.eq_dec x v) as [-> | Hne]; [|auto].
  intros dv Hdv' u w He. assert (dv = d) by congruence. subst dv.
  destruct (Hedges _ _ He) as [[] | Hrel]. exact Hrel.
Qed.

Lemma dijkstra_loop_correct (fuel : nat) st :
  Inv G source st ->
  match dijkstra_loop fuel (_adj G) target st with
  | Ret st' => Post G source target st'
  | Raise _ => False
  | OutOfFuel => True
  end.
Proof.
  revert st. induction fuel as [|fuel IH]; intros st HInv; simpl; auto.
  destruct (heappop (fringe st)) as [[[[d k] v] rest]|] eqn:Epop.
  - destruct (Dict.mem (dist st) v) eqn:Emem.
    + apply IH. eapply pop_old; eauto.
    + destruct (pop_new st d k v rest HInv Epop Emem) as (Hcore & Hcl & Hle).
      destruct (Nat.eqb_spec v target) as [-> | Hvt].
      * destruct Hcore. repeat split; auto.
        cbn [dist]. rewrite DictFacts.get_set_same. discriminate.
      * (* v is a node of the graph *)
        assert (exists nbrs, Dict.get (_adj G) v = Some nbrs) as (nbrs & Hnbrs).
        { destruct HInv as [[_ Hsound _ Hfs _ _ _] _].
          apply heappop_Some in Epop. destruct Epop as (Hin & _ & _).
          destruct (Hfs d k v) as (_ & d' & Hd' & _); [apply Hin; now left|].
          destruct (Hsound _ _ Hd') as (p & Hw & _).
          apply walk_route in Hw. destruct Hw as (w & Hr).
          apply (route_end_in_graph G Hok _ _ _ _ Hr).
          now apply ok_has_node. }
        unfold Dict.item. rewrite Hnbrs.
        cbn [bind].
        set (st1 := mkState (Dict.set (dist st) v d) (seen st) rest (c st)
                            (paths st)) in *.
        destruct (for_each_relax_ok v d nbrs st1) as (st' & Hst' & Hmid).
        { constructor; auto.
          - subst st1. cbn [dist]. apply DictFacts.get_set_same.
          - intros u w He. left. unfold edge_weight in He.
            rewrite Hnbrs in He. now apply DictFacts.get_In. }
        { intros u w Hin. eapply ok_item_edge; eauto. }
        rewrite Hst'. cbn [bind]. apply IH. eapply mid_done; eauto.
  - (* the heap is empty *)
    apply heappop_None in Epop.
    destruct HInv as [[Hsrc Hsound Hds Hfs Hfc Hopt Hbel] Hcl].
    repeat split; auto.
    intros Hnone q dq Hw. eapply exhausted; eauto.
Qed.

(** The initial state of the loop satisfies the invariant. *)
Lemma initial_Inv (paths0 : option (Dict.t (list node))) :
  (forall ps, paths0 = Some ps -> Dict.get ps source = Some [source]) ->
  Inv G source (mkState [] [(source, Finite 0)]
                        (heappush [] (Finite 0, 0%nat, source)) 1%nat paths0).
Proof.
  intros Hps. split; [constructor|]; unfold_inv; cbn [dist seen fringe c paths].
  - simpl. now rewrite Nat.eqb_refl.
  - intros v d Hv. simpl in Hv.
    destruct (Nat.eqb_spec source v) as [E | Hne]; [subst v | discriminate].
    inversion Hv; subst d.
    exists [source]. split; [constructor | exact Hps].
  - intros v d Hv. discriminate.
  - intros d k v [Hin | []]. inversion Hin; subst.
    split; [apply dval_zero|].
    exists (Finite 0). split; [|simpl; lra]. simpl. now rewrite Nat.eqb_refl.
  - intros v d Hv _. simpl in Hv.
    destruct (Nat.eqb_spec source v) as [E | Hne]; [subst v | discriminate].
    inversion Hv; subst d. exists 0%nat. now left.
  - intros v d Hv. discriminate.
  - intros v dv d k u Hv. discriminate.
  - intros v dv Hv. discriminate.
Qed.

(** [_dijkstra_multisource] returns, raises nothing, and its result
    satisfies [Post]. *)
Lemma dijkstra_multisource_correct (paths0 : option (Dict.t (list node))) :
  (forall ps, paths0 = Some ps -> Dict.get ps source = Some [source]) ->
  exists st, _dijkstra_multisource G source paths0 target = Ret st /\ Post G source target st.
Proof.
  intros Hps. unfold _dijkstra_multisource.
  pose proof (dijkstra_loop_correct (dijkstra_fuel G) _ (initial_Inv paths0 Hps))
    as Hcorrect.
  pose proof (dijkstra_loop_terminates (_adj G) target (dijkstra_fuel G)
    (mkState [] [(source, Finite 0)] (heappush [] (Finite 0, 0%nat, source))
             1%nat paths0))
    as Hterm.
  destruct (dijkstra_loop _ _ _ _) as [st| |].
  - eauto.
  - contradiction.
  - exfalso. apply Hterm; [|reflexivity].
    cbn [dist fringe]. unfold dijkstra_fuel, heappush. simpl length.
    pose proof (pending_le_all (_adj G) []). lia.
Qed.
End Search.

(** The loop never creates or drops the [paths] dictionary. *)
Lemma relax_paths (v : node) (d : pyfloat) (st st' : dijkstra_state) (ue : node * Q) :
  relax v d st ue = Ret st' -> (paths st = None <-> paths st' = None).
Proof.
  destruct ue as [u cost]. intros H.
  apply relax_cases in H. destruct H as [-> | (ps' & -> & _ & H)]; [tauto|].
  exact H.
Qed.

Lemma for_each_relax_paths (v : node) (d : pyfloat) (nbrs : Dict.t Q)
    (st st' : dijkstra_state) :
  for_each (relax v d) nbrs st = Ret st' -> (paths st = None <-> paths st' = None).
Proof.
  revert st. induction nbrs as [|ue nbrs IH]; simpl; intros st H.
  - inversion H; subst. tauto.
  - destruct (relax v d st ue) as [st1| |] eqn:E; simpl in H; try discriminate.
    apply relax_paths in E. apply IH in H. tauto.
Qed.

Lemma dijkstra_loop_paths (G_succ : Dict.t (Dict.t Q)) (target : node)
    (fuel : nat) (st st' : dijkstra_state) :
  dijkstra_loop fuel G_succ target st = Ret st' ->
  (paths st = None <-> paths st' = None).
Proof.
  revert st. induction fuel as [|fuel IH]; intros st; simpl; [discriminate|].
  destruct (heappop (fringe st)) as [[[[d k] v] rest]|].
  - destruct (Dict.mem (dist st) v).
    + intros H. apply IH in H. exact H.
    + destruct (Nat.eqb v target).
      * intros H. inversion H; subst. simpl. tauto.
      * destruct (Dict.item G_succ v) as [nbrs| |]; simpl; try discriminate.
        destruct (for_each (relax v d) nbrs _) as [st1| |] eqn:E; simpl;
          try discriminate.
        intros H. apply IH in H. apply for_each_relax_paths in E. simpl in E.
        tauto.
  - intros H. inversion H; subst. tauto.
Qed.

(** ** The two networkx calls *)

Section Calls.
Variable G : Graph.
Variables source target : node.
Hypothesis Hok : graph_ok G = true.
Hypothesis Hnn : nonneg_weights G = true.
Hypothesis Hsource : has_node G source = true.
Hypothesis Hdistinct : source <> target.

Lemma dijkstra_path_spec :
  (exists p d, dijkstra_path G source target = Ret p
               /\ walk G source target p d
               /\ forall q dq, walk G source target q dq -> fle d dq)
  \/ (dijkstra_path G source target = Raise NetworkXNoPath
      /\ forall q dq, ~ walk G source target q dq).
Proof.
  unfold dijkstra_path. rewrite Hsource. cbn [negb].
  destruct (Nat.eqb_spec target source) as [E | _]; [congruence|].
  destruct (dijkstra_multisource_correct G source target Hok Hnn Hsource
              (Some [(source, [source])])) as (st & Hrun & Hpost).
  { intros ps Hps. inversion Hps; subst. simpl. now rewrite Nat.eqb_refl. }
  rewrite Hrun. cbn [bind].
  destruct Hpost as (Hsound & Hds & Hopt & Hnone).
  destruct (Dict.get (dist st) target) as [d|] eqn:Ed.
  - left. pose proof (Hds _ _ Ed) as Hd'.
    destruct (Hsound _ _ Hd') as (p & Hw & Hp).
    destruct (paths st) as [ps|] eqn:Eps.
    + rewrite (Hp ps eq_refl). exists p, d. repeat split; auto.
      intros q dq Hq. eapply Hopt; eauto.
    + exfalso. unfold _dijkstra_multisource in Hrun.
      apply dijkstra_loop_paths in Hrun. simpl in Hrun.
      destruct Hrun as [_ Hrun]. specialize (Hrun Eps). discriminate.
  - right. split; auto.
Qed.

Lemma dijkstra_path_length_spec :
  (exists d, dijkstra_path_length G source target = Ret d
             /\ (exists p, walk G source target p d)
             /\ forall q dq, walk G source target q dq -> fle d dq)
  \/ (dijkstra_path_length G source target = Raise NetworkXNoPath
      /\ forall q dq, ~ walk G source target q dq).
Proof.
  unfold dijkstra_path_length. rewrite Hsource. cbn [negb].
  destruct (Nat.eqb_spec source target) as [E | _]; [congruence|].
  destruct (dijkstra_multisource_correct G source target Hok Hnn Hsource None)
    as (st & Hrun & Hpost).
  { intros ps Hps. discriminate. }
  rewrite Hrun. cbn [bind].
  destruct Hpost as (Hsound & Hds & Hopt & Hnone).
  destruct (Dict.get (dist st) target) as [d|] eqn:Ed.
  - left. pose proof (Hds _ _ Ed) as Hd'.
    destruct (Hsound _ _ Hd') as (p & Hw & Hp).
    exists d. repeat split; eauto.
  - right. split; auto.
Qed.

(** One source: either a walk to the target whose sum no walk beats,
    reported with that sum, or the "No path found" record when the target
    cannot be reached. *)
Lemma route_entry_spec :
  (exists p d, route_entry G source target = Ret (path_result source target p d)
               /\ walk G source target p d
               /\ forall q dq, walk G source target q dq -> fle d dq)
  \/ (route_entry G source target = Ret (no_path_result source target)
      /\ forall q dq, ~ walk G source target q dq).
Proof.
  unfold route_entry.
  destruct dijkstra_path_spec as [(p & d & Hp & Hw & Hopt) | (Hp & Hno)].
  - left. rewrite Hp. cbn [bind].
    destruct dijkstra_path_length_spec
      as [(d' & Hd & (p' & Hw') & Hopt') | (Hd & Hno)].
    + rewrite Hd. cbn [bind]. exists p, d. repeat split; auto.
      unfold path_result. do 2 f_equal.
      apply fle_antisym; eauto using walk_dval.
    + exfalso. eapply Hno; eauto.
  - right. rewrite Hp. cbn [bind]. auto.
Qed.
End Calls.

(** ** The table of all sources *)

Section Table.
Variable G : Graph.
Variable target : node.
Hypothesis Hok : graph_ok G = true.
Hypothesis Hnn : nonneg_weights G = true.

Lemma route_entry_returns (n : node) :
  In n (nodes G) -> n <> target -> exists r, route_entry G n target = Ret r.
Proof.
  intros Hn Hne. apply ok_has_node_In in Hn.
  destruct (route_entry_spec G n target Hok Hnn Hn Hne)
    as [(p & w & H & _) | (H & _)]; eauto.
Qed.

Lemma table_fold (l : list node) (acc : Dict.t RouteResult) :
  NoDup l ->
  (forall n, In n l -> In n (nodes G)) ->
  (forall n, In n l -> ~ In n (Dict.keys acc)) ->
  exists tab,
    for_each (table_step G target) l acc = Ret tab
    /\ Dict.keys tab = Dict.keys acc ++ filter (not_target target) l
    /\ (forall n, In n l -> n <> target ->
          exists r, route_entry G n target = Ret r /\ Dict.get tab n = Some r)
    /\ (forall n, ~ In n l -> Dict.get tab n = Dict.get acc n).
Proof.
  revert acc. induction l as [|x l IH]; intros acc Hnd Hsub Hfresh.
  - exists acc. simpl. rewrite app_nil_r. repeat split; auto.
    intros n [].
  - inversion Hnd as [|? ? Hxl Hnd']; subst.
    change (for_each (table_step G target) (x :: l) acc)
      with (acc' <- table_step G target acc x ;;
            for_each (table_step G target) l acc').
    change (filter (not_target target) (x :: l))
      with (if negb (Nat.eqb x target) then x :: filter (not_target target) l
            else filter (not_target target) l).
    unfold table_step at 1.
    destruct (Nat.eqb_spec x target) as [-> | Hne]; cbn [bind negb].
    + destruct (IH acc Hnd') as (tab & Hrun & Hkeys & Hin & Hout).
      { intros n Hn. apply Hsub. now right. }
      { intros n Hn. apply Hfresh. now right. }
      exists tab. repeat split; auto.
      * intros n [-> | Hn] Hnt; [congruence | auto].
      * intros n Hn. apply Hout. intros H. apply Hn. now right.
    + destruct (route_entry_returns x) as (r & Hr); auto.
      { apply Hsub. now left. }
      rewrite Hr. cbn [bind].
      assert (Dict.mem acc x = false) as Hmem.
      { apply DictFacts.mem_false, DictFacts.get_None_keys, Hfresh. now left. }
      destruct (IH (Dict.set acc x r) Hnd') as (tab & Hrun & Hkeys & Hin & Hout).
      { intros n Hn. apply Hsub. now right. }
      { intros n Hn. rewrite DictFacts.keys_set_new by auto.
        rewrite in_app_iff. intros [H | [-> | []]]; [|contradiction].
        revert H. apply Hfresh. now right. }
      exists tab. split; [exact Hrun|]. split; [|split].
      * rewrite Hkeys, DictFacts.keys_set_new by auto.
        now rewrite <- app_assoc.
      * intros n [<- | Hn] Hnt; [|auto].
        exists r. split; auto. rewrite (Hout x Hxl).
        apply DictFacts.get_set_same.
      * intros n Hn. rewrite Hout by (intros H; apply Hn; now right).
        apply DictFacts.get_set_other. intros ->. apply Hn. now left.
Qed.

(** [compute_shortest_paths] returns a table whose keys are the nodes
    other than the target, in node order, and whose entry for a source is
    what the loop body computes for that source alone. *)
Lemma compute_shortest_paths_spec :
  exists tab,
    compute_shortest_paths G target = Ret tab
    /\ Dict.keys tab = filter (not_target target) (nodes G)
    /\ (forall n, In n (nodes G) -> n <> target ->
          exists r, route_entry G n target = Ret r /\ Dict.get tab n = Some r).
Proof.
  destruct (table_fold (nodes G) []) as (tab & Hrun & Hkeys & Hin & _).
  - now apply ok_nodes_nodup.
  - auto.
  - intros n _ [].
  - exists tab. repeat split; auto.
Qed.
End Table.

(** ** The constructed graph *)

Lemma create_grid_graph_returns :
  create_grid_graph = Ret (grid_graph, node_positions).
Proof. reflexivity. Qed.

Lemma grid_without_long_returns :
  build_graph node_positions (edges_without 2) = Ret grid_without_long.
Proof. reflexivity. Qed.

(** Deleting the weight-2 edges from the built graph gives the same graph
    as building it without them. *)
Lemma remove_weight_grid : remove_weight grid_graph 2 = grid_without_long.
Proof. vm_compute. reflexivity. Qed.

(** ** Properties of [compute_shortest_paths] *)

Lemma route_stays_inside (G : Graph) (inside : node -> bool)
    (a b : node) (p : list node) (w : Q) :
  closed_under_edges G inside = true ->
  route G a b p w -> inside a = true -> inside b = true.
Proof.
  intros Hclosed. induction 1 as [a | a b t p w r Hedge Hr IH]; auto.
  intros Ha. apply IH.
  unfold edge_weight in Hedge.
  destruct (Dict.get (_adj G) a) as [nb|] eqn:E; [|discriminate].
  apply DictFacts.get_In in E. apply DictFacts.get_In in Hedge.
  unfold closed_under_edges in Hclosed. rewrite forallb_forall in Hclosed.
  specialize (Hclosed _ E). simpl in Hclosed. rewrite Ha in Hclosed.
  simpl in Hclosed. rewrite forallb_forall in Hclosed.
  apply (Hclosed _ Hedge).
Qed.

(** An entry of the table: its key is a node other than the target, and
    it is what the loop body computes for that node. *)
Lemma table_entry_cases (G : Graph) (target : node) (tab : Dict.t RouteResult) :
  graph_ok G = true ->
  nonneg_weights G = true ->
  compute_shortest_paths G target = Ret tab ->
  forall n r, Dict.get tab n = Some r ->
    In n (nodes G) /\ n <> target
    /\ ((exists p d, r = path_result n target p d
                     /\ walk G n target p d
                     /\ forall q dq, walk G n target q dq -> fle d dq)
        \/ (r = no_path_result n target
            /\ forall q dq, ~ walk G n target q dq)).
Proof.
  intros Hok Hnn Hrun n r Hget.
  destruct (compute_shortest_paths_spec G target Hok Hnn)
    as (tab' & Hrun' & Hkeys & Hentries).
  assert (tab' = tab) by congruence. subst tab'.
  assert (In n (nodes G) /\ n <> target) as [Hn Hne].
  { assert (In n (Dict.keys tab)) as Hk.
    { apply DictFacts.mem_keys. unfold Dict.mem. now rewrite Hget. }
    rewrite Hkeys in Hk. apply filter_In in Hk. destruct Hk as [Hk1 Hk2].
    split; auto. unfold not_target in Hk2.
    apply negb_true_iff, Nat.eqb_neq in Hk2. exact Hk2. }
  split; [exact Hn|]. split; [exact Hne|].
  destruct (Hentries n Hn Hne) as (r' & Hr' & Hget').
  assert (r' = r) by congruence. subst r'.
  assert (has_node G n = true) as Hnode by now apply ok_has_node_In.
  destruct (route_entry_spec G n target Hok Hnn Hnode Hne)
    as [(p & d & He & Hw & Hopt) | (He & Hno)];
    rewrite He in Hr'; inversion Hr'; subst r;
    [left; exists p, d; auto | right; auto].
Qed.

Lemma table_entry_exists (G : Graph) (target : node) (tab : Dict.t RouteResult) :
  graph_ok G = true ->
  nonneg_weights G = true ->
  compute_shortest_paths G target = Ret tab ->
  forall n, In n (nodes G) -> n <> target -> exists r, Dict.get tab n = Some r.
Proof.
  intros Hok Hnn Hrun n Hn Hne.
  destruct (compute_shortest_paths_spec G target Hok Hnn)
    as (tab' & Hrun' & _ & Hentries).
  assert (tab' = tab) by congruence. subst tab'.
  destruct (Hentries n Hn Hne) as (r & _ & Hget). eauto.
Qed.


(** *** Sums that need no rounding *)






(** C5: a source with no route to the destination gets the normal result
    "No path found" with infinite weight and no path; the call returns, and
    every source's entry is what the loop body computes for that source
    alone. *)
Theorem unreachable_source_gets_no_path (G : Graph) (destination n : node) :
  graph_ok G = true ->
  nonneg_weights G = true ->
  In n (nodes G) ->
  n <> destination ->
  ~ reachable G n destination ->
  exists tab,
    compute_shortest_paths G destination = Ret tab
    /\ Dict.get tab n
       = Some (mkRoute n destination None Infinity "No path found")
    /\ forall m, In m (nodes G) -> m <> destination ->
         exists r, route_entry G m destination = Ret r /\ Dict.get tab m = Some r.
Proof.
  intros Hok Hnn Hn Hne Hunreach.
  destruct (compute_shortest_paths_spec G destination Hok Hnn)
    as (tab & Hrun & _ & Hentries).
  exists tab. repeat split; auto.
  destruct (Hentries n Hn Hne) as (r & Hr & Hget).
  assert (has_node G n = true) as Hnode by now apply ok_has_node_In.
  destruct (route_entry_spec G n destination Hok Hnn Hnode Hne)
    as [(p & d & _ & Hw & _) | (Hentry & _)].
  - exfalso. apply Hunreach. destruct (walk_route _ _ _ _ _ Hw) as (w & Hroute).
    exists p, w. exact Hroute.
  - rewrite Hentry in Hr. inversion Hr; subst r. exact Hget.
Qed.




(** C8: the table has an entry for every node of the graph except the
    destination, and none for the destination. *)
Theorem table_covers_all_but_destination (G : Graph) (destination : node) :
  graph_ok G = true ->
  nonneg_weights G = true ->
  exists tab,
    compute_shortest_paths G destination = Ret tab
    /\ (forall n, In n (nodes G) -> n <> destination -> Dict.mem tab n = true)
    /\ Dict.mem tab destination = false
    /\ Dict.keys tab = filter (fun n => negb (Nat.eqb n destination)) (nodes G).
Proof.
  intros Hok Hnn.
  destruct (compute_shortest_paths_spec G destination Hok Hnn)
    as (tab & Hrun & Hkeys & Hentries).
  exists tab. repeat split; auto.
  - intros n Hn Hne. destruct (Hentries n Hn Hne) as (r & _ & Hget).
    unfold Dict.mem. now rewrite Hget.
  - apply DictFacts.mem_false, DictFacts.get_None_keys. rewrite Hkeys.
    rewrite filter_In. unfold not_target. rewrite Nat.eqb_refl.
    intros [_ H]. discriminate.
Qed.

(** C2, refuted: node 99 is not in the grid graph, and the call with
    destination 99 returns a table instead of raising. *)
Lemma unknown_destination_does_not_raise :
  has_node grid_graph 99%nat = false
  /\ exists tab,
       compute_shortest_paths grid_graph 99%nat = Ret tab
       /\ Dict.get tab 0%nat
          = Some (mkRoute 0%nat 99%nat None Infinity "No path found").
Proof.
  split; [reflexivity|]. eexists. split; [vm_compute; reflexivity|]. reflexivity.
Qed.

(** C2, as the code behaves: a destination that is not a node of the graph
    raises nothing; the call returns a table in which every node of the
    graph has the "No path found" result. *)
Theorem unknown_destination_gives_no_path (G : Graph) (destination : node) :
  graph_ok G = true ->
  nonneg_weights G = true ->
  has_node G destination = false ->
  exists tab,
    compute_shortest_paths G destination = Ret tab
    /\ Dict.keys tab = nodes G
    /\ forall n, In n (nodes G) ->
         Dict.get tab n
         = Some (mkRoute n destination None Infinity "No path found").
Proof.
  intros Hok Hnn Hunknown.
  assert (forall n, In n (nodes G) -> n <> destination) as Hother.
  { intros n Hn ->. apply ok_has_node_In in Hn. congruence. }
  destruct (compute_shortest_paths_spec G destination Hok Hnn)
    as (tab & Hrun & Hkeys & Hentries).
  exists tab. split; [exact Hrun|]. split.
  - rewrite Hkeys. apply forallb_filter_id. apply forallb_forall.
    intros n Hn. unfold not_target. apply negb_true_iff, Nat.eqb_neq. auto.
  - intros n Hn. pose proof (Hother n Hn) as Hne.
    destruct (Hentries n Hn Hne) as (r & Hr & Hget).
    assert (has_node G n = true) as Hnode by now apply ok_has_node_In.
    destruct (route_entry_spec G n destination Hok Hnn Hnode Hne)
      as [(p & d & _ & Hw & _) | (Hentry & _)].
    + exfalso. destruct (walk_route _ _ _ _ _ Hw) as (w & Hroute).
      assert (exists nb, Dict.get (_adj G) destination = Some nb) as Hin.
      { apply (route_end_in_graph G Hok _ _ _ _ Hroute). now apply ok_has_node. }
      apply ok_has_node in Hin; auto. congruence.
    + rewrite Hentry in Hr. inversion Hr; subst r. exact Hget.
Qed.

(** ** Graph construction *)

Lemma aligned_mem (G : Graph) (n : node) :
  aligned G -> Dict.mem (_adj G) n = Dict.mem (_node G) n.
Proof.
  intros H. destruct (Dict.mem (_node G) n) eqn:E.
  - apply DictFacts.mem_keys. rewrite <- H. now apply DictFacts.mem_keys.
  - destruct (Dict.mem (_adj G) n) eqn:E'; auto.
    apply DictFacts.mem_keys in E'. rewrite <- H in E'.
    apply DictFacts.mem_keys in E'. congruence.
Qed.

Lemma touch_node_spec (G : Graph) (u : node) :
  aligned G ->
  aligned (touch_node G u)
  /\ has_node (touch_node G u) u = true
  /\ (forall x, has_node G x = true -> has_node (touch_node G u) x = true)
  /\ (forall x y, edge_weight (touch_node G u) x y = edge_weight G x y).
Proof.
  intros Hal. unfold touch_node, has_node.
  destruct (Dict.mem (_node G) u) eqn:E; cbn [negb].
  - repeat split; auto.
  - assert (Dict.mem (_adj G) u = false) as E' by (rewrite aligned_mem; auto).
    repeat split; cbn [_node _adj].
    + unfold aligned. cbn [_node _adj].
      rewrite !DictFacts.keys_set_new by auto. now f_equal.
    + unfold Dict.mem. now rewrite DictFacts.get_set_same.
    + intros x Hx. unfold Dict.mem in *.
      destruct (Nat.eq_dec u x) as [<- | Hne].
      * now rewrite DictFacts.get_set_same.
      * now rewrite DictFacts.get_set_other.
    + intros x y. unfold edge_weight. cbn [_adj].
      destruct (Nat.eq_dec u x) as [<- | Hne].
      * rewrite DictFacts.get_set_same. apply DictFacts.mem_false in E'.
        now rewrite E'.
      * now rewrite DictFacts.get_set_other.
Qed.

(** [add_edge] never raises on a graph the API has built, makes both
    endpoints nodes, and stores the weight as it is, in both directions. *)
Lemma add_edge_spec (G : Graph) (u v : node) (w : Q) :
  aligned G ->
  exists G',
    add_edge G u v w = Ret G'
    /\ aligned G'
    /\ has_node G' u = true /\ has_node G' v = true
    /\ (forall x, has_node G x = true -> has_node G' x = true)
    /\ (forall x y, edge_weight G' x y
                    = if joins u v x y then Some w else edge_weight G x y).
Proof.
  intros Hal.
  destruct (touch_node_spec G u Hal) as (Hal1 & Hu1 & Hmono1 & Hedge1).
  destruct (touch_node_spec (touch_node G u) v Hal1) as (Hal2 & Hv2 & Hmono2 & Hedge2).
  unfold add_edge.
  set (G2 := touch_node (touch_node G u) v) in *.
  assert (has_node G2 u = true) as Hu2 by auto.
  assert (forall x y, edge_weight G2 x y = edge_weight G x y) as Hedge.
  { intros x y. now rewrite Hedge2, Hedge1. }
  assert (Dict.mem (_adj G2) u = true) as Hmu by (rewrite aligned_mem; auto).
  assert (Dict.mem (_adj G2) v = true) as Hmv by (rewrite aligned_mem; auto).
  unfold Dict.item.
  destruct (Dict.get (_adj G2) u) as [adj_u|] eqn:Eu;
    [|unfold Dict.mem in Hmu; rewrite Eu in Hmu; discriminate].
  destruct (Dict.get (_adj G2) v) as [adj_v0|] eqn:Ev;
    [|unfold Dict.mem in Hmv; rewrite Ev in Hmv; discriminate].
  cbn [bind].
  set (adj3 := Dict.set (_adj G2) u (Dict.set adj_u v w)).
  assert (exists adj_v, Dict.get adj3 v = Some adj_v
            /\ forall y, y <> u ->
                 Dict.get adj_v y = edge_weight G v y) as (adj_v & Hadj_v & Hrest).
  { unfold adj3. destruct (Nat.eq_dec u v) as [<- | Hne].
    - rewrite DictFacts.get_set_same. eexists. split; [reflexivity|].
      intros y Hy. rewrite DictFacts.get_set_other by auto.
      rewrite <- Hedge. unfold edge_weight. now rewrite Eu.
    - rewrite DictFacts.get_set_other by auto. exists adj_v0. split; auto.
      intros y _. rewrite <- Hedge. unfold edge_weight. now rewrite Ev. }
  rewrite Hadj_v. cbn [bind].
  eexists. split; [reflexivity|].
  assert (Dict.mem adj3 v = true) as Hm3 by (unfold Dict.mem; now rewrite Hadj_v).
  split; [|split; [|split; [|split]]]; auto.
  - unfold aligned. cbn [_node _adj].
    rewrite DictFacts.keys_set_mem by auto.
    unfold adj3. rewrite DictFacts.keys_set_mem by auto. exact Hal2.
  - intros x Hx. apply (Hmono2 x), (Hmono1 x), Hx.
  - intros x y. unfold edge_weight at 1. cbn [_adj]. unfold joins.
    destruct (Nat.eqb_spec x v) as [-> | Hxv].
    + rewrite DictFacts.get_set_same.
      destruct (Nat.eqb_spec y u) as [-> | Hyu].
      * rewrite DictFacts.get_set_same. rewrite andb_true_l, orb_true_r.
        reflexivity.
      * rewrite DictFacts.get_set_other by auto.
        rewrite andb_false_r, orb_false_r. rewrite (Hrest y Hyu).
        destruct (Nat.eqb_spec v u) as [Heq | _]; [|reflexivity].
        destruct (Nat.eqb_spec y v) as [Hyv | _]; [congruence | reflexivity].
    + rewrite DictFacts.get_set_other by auto.
      rewrite andb_false_l, orb_false_r. unfold adj3.
      destruct (Nat.eqb_spec x u) as [-> | Hxu].
      * rewrite DictFacts.get_set_same.
        destruct (Nat.eqb_spec y v) as [-> | Hyv]; cbn [andb].
        -- apply DictFacts.get_set_same.
        -- rewrite DictFacts.get_set_other by auto.
           rewrite <- Hedge. unfold edge_weight. now rewrite Eu.
      * rewrite DictFacts.get_set_other by auto. cbn [andb].
        rewrite <- Hedge. reflexivity.
Qed.

Lemma add_node_aligned (G : Graph) (n : node) (pos : position) :
  aligned G -> aligned (add_node G n pos).
Proof.
  intros Hal. unfold add_node.
  destruct (Dict.mem (_node G) n) eqn:E; cbn [negb]; unfold aligned; cbn [_node _adj].
  - rewrite DictFacts.keys_set_mem by auto. exact Hal.
  - assert (Dict.mem (_adj G) n = false) as E' by (rewrite aligned_mem; auto).
    rewrite !DictFacts.keys_set_new by auto. now f_equal.
Qed.

Lemma add_nodes_aligned (positions : Dict.t position) (G : Graph) :
  aligned G ->
  aligned (fold_left (fun G '(n, pos) => add_node G n pos) positions G).
Proof.
  revert G. induction positions as [|[n pos] ps IH]; intros G Hal; simpl; auto.
  apply IH. now apply add_node_aligned.
Qed.

Lemma add_edges_spec (edge_list : list (node * node * Q)) (G0 : Graph) :
  aligned G0 ->
  exists G,
    for_each add_edge_step edge_list G0 = Ret G
    /\ aligned G
    /\ (forall x, has_node G0 x = true -> has_node G x = true)
    /\ (forall x y, edge_weight G0 x y <> None -> edge_weight G x y <> None)
    /\ (forall u v w, In (u, v, w) edge_list ->
          has_node G u = true /\ has_node G v = true
          /\ edge_weight G u v <> None)
    /\ (forall es u v w, edge_list = es ++ [(u, v, w)] ->
          edge_weight G u v = Some w /\ edge_weight G v u = Some w).
Proof.
  revert G0. induction edge_list as [|[[u v] w] l IH]; intros G0 Hal.
  - exists G0. split; [reflexivity|]. split; [exact Hal|].
    split; [auto|]. split; [auto|]. split.
    + intros u v w [].
    + intros es u v w Hes. destruct es; discriminate.
  - destruct (add_edge_spec G0 u v w Hal) as (G1 & Hadd & Hal1 & Hu & Hv & Hmono & Hedge).
    destruct (IH G1 Hal1) as (G & Hrun & HalG & HmonoG & HedgeG & Hin & Hlast).
    exists G.
    assert (edge_weight G1 u v = Some w /\ edge_weight G1 v u = Some w) as [Huv Hvu].
    { rewrite !Hedge. unfold joins. rewrite !Nat.eqb_refl. cbn [andb orb].
      split; [reflexivity|]. now rewrite orb_true_r. }
    split; [|split; [|split; [|split; [|split]]]]; auto.
    + change (for_each add_edge_step ((u, v, w) :: l) G0)
        with (G1 <- add_edge G0 u v w ;; for_each add_edge_step l G1).
      rewrite Hadd. exact Hrun.
    + intros x y Hxy. apply HedgeG. rewrite Hedge.
      destruct (joins u v x y); [discriminate | exact Hxy].
    + intros u' v' w' [Heq | Hl]; [|apply (Hin u' v' w' Hl)].
      inversion Heq; subst u' v' w'. repeat split; auto.
      apply HedgeG. rewrite Huv. discriminate.
    + intros es u' v' w' Hes. destruct es as [|e es].
      * simpl in Hes. inversion Hes; subst u' v' w' l.
        simpl in Hrun. inversion Hrun; subst G. auto.
      * simpl in Hes. inversion Hes; subst e l. eapply Hlast; eauto.
Qed.

(** ** Every constructed graph is well formed *)

Lemma NoDup_nodupb (l : list node) : NoDup l -> nodupb l = true.
Proof.
  induction 1 as [|x l Hx Hnd IH]; simpl; auto.
  rewrite IH, andb_true_r. apply negb_true_iff.
  destruct (existsb (Nat.eqb x) l) eqn:E; auto.
  apply existsb_exists in E. destruct E as (y & Hy & Hxy).
  apply Nat.eqb_eq in Hxy. subst y. contradiction.
Qed.

Lemma same_keys_refl (l : list node) : same_keys l l = true.
Proof. induction l as [|x l IH]; simpl; auto. now rewrite Nat.eqb_refl. Qed.

Lemma well_formed_graph_ok (G : Graph) : well_formed G -> graph_ok G = true.
Proof.
  intros (Hal & Hnd & Hinner & Hsym). unfold graph_ok.
  rewrite Hal, same_keys_refl, (NoDup_nodupb _ Hnd). cbn [andb].
  apply forallb_forall. intros [u nb] Hin.
  apply DictFacts.In_get in Hin; auto.
  pose proof (Hinner _ _ Hin) as Hnb.
  rewrite (NoDup_nodupb _ Hnb). cbn [andb].
  apply forallb_forall. intros [v w] Hvw.
  apply DictFacts.In_get in Hvw; auto.
  assert (edge_weight G u v = Some w) as He.
  { unfold edge_weight. now rewrite Hin. }
  rewrite (Hsym _ _ _ He). apply Qeq_bool_refl.
Qed.

Lemma well_formed_empty : well_formed empty_graph.
Proof.
  repeat split; simpl; try constructor; discriminate.
Qed.

Lemma touch_node_well_formed (G : Graph) (u : node) :
  well_formed G -> well_formed (touch_node G u).
Proof.
  intros (Hal & Hnd & Hinner & Hsym).
  destruct (touch_node_spec G u Hal) as (Hal' & _ & _ & Hedge).
  split; [exact Hal'|]. split; [|split].
  - unfold touch_node. destruct (negb (Dict.mem (_node G) u)); auto.
    cbn [_adj]. now apply DictFacts.keys_set_NoDup.
  - intros x nb. unfold touch_node.
    destruct (negb (Dict.mem (_node G) u)); [|apply Hinner].
    cbn [_adj]. intros H. apply DictFacts.get_set_inv in H.
    destruct H as [[_ ->] | [_ H]]; [constructor | eauto].
  - intros x y w. rewrite !Hedge. apply Hsym.
Qed.

Lemma add_node_well_formed (G : Graph) (n : node) (pos : position) :
  well_formed G -> well_formed (add_node G n pos).
Proof.
  intros (Hal & Hnd & Hinner & Hsym).
  pose proof (add_node_aligned G n pos Hal) as Hal'.
  assert (forall x y, edge_weight (add_node G n pos) x y = edge_weight G x y)
    as Hedge.
  { intros x y. unfold add_node.
    destruct (Dict.mem (_node G) n) eqn:E; cbn [negb]; [reflexivity|].
    unfold edge_weight. cbn [_adj].
    destruct (Nat.eq_dec n x) as [<- | Hne].
    - rewrite DictFacts.get_set_same.
      assert (Dict.mem (_adj G) n = false) as E' by (rewrite aligned_mem; auto).
      apply DictFacts.mem_false in E'. now rewrite E'.
    - now rewrite DictFacts.get_set_other. }
  split; [exact Hal'|]. split; [|split].
  - unfold add_node. destruct (negb (Dict.mem (_node G) n)); auto.
    cbn [_adj]. now apply DictFacts.keys_set_NoDup.
  - intros x nb. unfold add_node.
    destruct (negb (Dict.mem (_node G) n)); [|apply Hinner].
    cbn [_adj]. intros H. apply DictFacts.get_set_inv in H.
    destruct H as [[_ ->] | [_ H]]; [constructor | eauto].
  - intros x y w. rewrite !Hedge. apply Hsym.
Qed.

Lemma joins_sym (u v x y : node) : joins u v x y = joins u v y x.
Proof.
  unfold joins.
  destruct (Nat.eqb x u), (Nat.eqb y v), (Nat.eqb x v), (Nat.eqb y u);
    reflexivity.
Qed.

Lemma add_edge_well_formed (G G' : Graph) (u v : node) (w : Q) :
  well_formed G -> add_edge G u v w = Ret G' -> well_formed G'.
Proof.
  intros Hwf Hadd.
  pose proof (touch_node_well_formed _ v (touch_node_well_formed _ u Hwf)) as Hwf2.
  destruct Hwf as (Hal & _ & _ & Hsym).
  destruct (add_edge_spec G u v w Hal) as (G1 & Hadd1 & Hal1 & _ & _ & _ & Hedge).
  assert (G1 = G') by congruence. subst G1. clear Hadd1.
  destruct Hwf2 as (_ & Hnd2 & Hinner2 & _).
  unfold add_edge, Dict.item in Hadd.
  set (G2 := touch_node (touch_node G u) v) in *.
  destruct (Dict.get (_adj G2) u) as [adj_u|] eqn:Eu; [|discriminate].
  cbn [bind] in Hadd.
  destruct (Dict.get (Dict.set (_adj G2) u (Dict.set adj_u v w)) v)
    as [adj_v|] eqn:Ev; [|discriminate].
  cbn [bind] in Hadd. inversion Hadd; subst G'. clear Hadd.
  assert (NoDup (Dict.keys (Dict.set adj_u v w))) as Hnd_u.
  { apply DictFacts.keys_set_NoDup. eauto. }
  assert (NoDup (Dict.keys adj_v)) as Hnd_v.
  { apply DictFacts.get_set_inv in Ev.
    destruct Ev as [[_ ->] | [_ Ev]]; eauto. }
  split; [exact Hal1|]. split; [|split].
  - cbn [_adj]. now do 2 apply DictFacts.keys_set_NoDup.
  - intros x nb. cbn [_adj]. intros H.
    apply DictFacts.get_set_inv in H. destruct H as [[_ ->] | [_ H]].
    + now apply DictFacts.keys_set_NoDup.
    + apply DictFacts.get_set_inv in H. destruct H as [[_ ->] | [_ H]]; eauto.
  - intros x y w0. rewrite !Hedge, (joins_sym u v y x).
    destruct (joins u v x y); [auto | apply Hsym].
Qed.

Lemma add_nodes_well_formed (positions : Dict.t position) (G : Graph) :
  well_formed G ->
  well_formed (fold_left (fun G '(n, pos) => add_node G n pos) positions G).
Proof.
  revert G. induction positions as [|[n pos] ps IH]; intros G Hwf; simpl; auto.
  apply IH. now apply add_node_well_formed.
Qed.

Lemma add_edges_well_formed (edge_list : list (node * node * Q)) (G0 G : Graph) :
  well_formed G0 -> for_each add_edge_step edge_list G0 = Ret G -> well_formed G.
Proof.
  revert G0. induction edge_list as [|[[u v] w] l IH]; intros G0 Hwf Hrun.
  - simpl in Hrun. inversion Hrun; subst. exact Hwf.
  - change (for_each add_edge_step ((u, v, w) :: l) G0)
      with (G1 <- add_edge G0 u v w ;; for_each add_edge_step l G1) in Hrun.
    destruct (add_edge G0 u v w) as [G1| |] eqn:Hadd; try discriminate.
    cbn [bind] in Hrun. apply (IH G1); auto.
    eapply add_edge_well_formed; eauto.
Qed.

(** Whatever the node and edge data, the two construction loops return a
    graph that satisfies [graph_ok]: the hypothesis of the theorems about
    [compute_shortest_paths] holds for every graph the program can build. *)
Lemma build_graph_ok (positions : Dict.t position)
    (edge_list : list (node * node * Q)) :
  exists G, build_graph positions edge_list = Ret G /\ graph_ok G = true.
Proof.
  unfold build_graph.
  set (G0 := fold_left (fun G '(n, pos) => add_node G n pos) positions empty_graph).
  assert (well_formed G0) as Hwf0.
  { apply add_nodes_well_formed, well_formed_empty. }
  destruct (add_edges_spec edge_list G0) as (G & Hrun & _).
  { apply Hwf0. }
  exists G. split; [exact Hrun|].
  apply well_formed_graph_ok. eapply add_edges_well_formed; eauto.
Qed.

(** C3, refuted: an edge to the unknown node 99, an edge of weight -1 and a
    self-loop of weight 0 are all accepted; construction returns a graph
    that has node 99 and stores the weights -1 and 0. *)
Lemma malformed_edges_are_accepted :
  exists G,
    build_graph node_positions
      (edges_with_weights
         ++ [weighted 0 99 1; weighted 3 4 (-1); weighted 5 5 0]) = Ret G
    /\ Dict.mem node_positions 99%nat = false
    /\ has_node G 99%nat = true
    /\ edge_weight G 3%nat 4%nat = Some (-1)
    /\ edge_weight G 5%nat 5%nat = Some 0.
Proof.
  eexists. split; [vm_compute; reflexivity|]. repeat split; reflexivity.
Qed.

(** C3, as the code behaves: construction validates nothing and never
    raises.  An edge naming a node that is not in the node list makes that
    node a node of the graph, and the weight of an edge is stored as given,
    whatever its sign. *)
Theorem construction_accepts_any_edge_list
    (positions : Dict.t position) (edge_list : list (node * node * Q)) :
  exists G,
    build_graph positions edge_list = Ret G
    /\ (forall u v w, In (u, v, w) edge_list ->
          has_node G u = true /\ has_node G v = true
          /\ edge_weight G u v <> None)
    /\ (forall es u v w, edge_list = es ++ [(u, v, w)] ->
          edge_weight G u v = Some w /\ edge_weight G v u = Some w).
Proof.
  unfold build_graph.
  destruct (add_edges_spec edge_list
              (fold_left (fun G '(n, pos) => add_node G n pos) positions empty_graph))
    as (G & Hrun & _ & _ & _ & Hin & Hlast).
  { apply add_nodes_aligned. reflexivity. }
  exists G. split; [exact Hrun|]. split; auto.
Qed.

(** ** The 12-node topology *)

Lemma one_long_two_medium_weight (G : Graph) (p : list node) :
  one_long_two_medium G p = true ->
  length p = 4%nat /\ exists w, path_weight G p = Some w /\ w == 4.
Proof.
  unfold one_long_two_medium.
  destruct p as [|a [|b [|c0 [|d [|e p]]]]]; simpl; try discriminate.
  - destruct (edge_weight G a b); discriminate.
  - destruct (edge_weight G a b); [|discriminate].
    destruct (edge_weight G b c0); discriminate.
  - destruct (edge_weight G a b) as [x|]; [|discriminate].
    destruct (edge_weight G b c0) as [y|]; [|discriminate].
    destruct (edge_weight G c0 d) as [z|]; [|discriminate].
    intros H. split; [reflexivity|]. eexists. split; [reflexivity|].
    repeat (apply orb_prop in H; destruct H as [H | H]);
      apply andb_prop in H; destruct H as [H Hz];
      apply andb_prop in H; destruct H as [Hx Hy];
      apply Qeq_bool_eq in Hx, Hy, Hz; lra.
  - destruct (edge_weight G a b); [|discriminate].
    destruct (edge_weight G b c0); [|discriminate].
    destruct (edge_weight G c0 d); [|discriminate].
    destruct (edge_weight G d e); [|discriminate].
    destruct p as [|f p]; [discriminate|].
    destruct (edge_weight G e f); discriminate.
Qed.

(** A route of one weight-2 edge and two weight-1 edges sums to 4 in
    floats too, in whatever order the edges come. *)
Lemma one_long_two_medium_total (G : Graph) (p : list node) :
  one_long_two_medium G p = true -> path_total G p = Some (Finite 4).
Proof.
  unfold one_long_two_medium.
  destruct p as [|a [|b [|c0 [|d [|e p]]]]]; cbn [edge_weights]; try discriminate.
  - destruct (edge_weight G a b); discriminate.
  - destruct (edge_weight G a b); [|discriminate].
    destruct (edge_weight G b c0); discriminate.
  - cbn [path_total walk_sum].
    destruct (edge_weight G a b) as [x|]; [|discriminate].
    destruct (edge_weight G b c0) as [y|]; [|discriminate].
    destruct (edge_weight G c0 d) as [z|]; [|discriminate].
    intros H.
    repeat (apply orb_prop in H; destruct H as [H | H]);
      apply andb_prop in H; destruct H as [H Hz];
      apply andb_prop in H; destruct H as [Hx Hy];
      apply Qeq_bool_eq in Hx, Hy, Hz;
      rewrite (py_float_Qeq x _ ltac:(lra) Hx), (py_float_Qeq y _ ltac:(lra) Hy),
        (py_float_Qeq z _ ltac:(lra) Hz);
      vm_compute; reflexivity.
  - destruct (edge_weight G a b); [|discriminate].
    destruct (edge_weight G b c0); [|discriminate].
    destruct (edge_weight G c0 d); [|discriminate].
    destruct (edge_weight G d e); [|discriminate].
    destruct p as [|f p]; [discriminate|].
    destruct (edge_weight G e f); discriminate.
Qed.

Lemma grid_graph_ok : graph_ok grid_graph = true.
Proof. vm_compute. reflexivity. Qed.

Lemma grid_graph_positive : positive_weights grid_graph = true.
Proof. vm_compute. reflexivity. Qed.

Lemma grid_graph_nonneg : nonneg_weights grid_graph = true.
Proof. vm_compute. reflexivity. Qed.

Lemma get_Forall {V : Type} (P : node -> V -> Prop) (d : Dict.t V) :
  Forall (fun kv => P (fst kv) (snd kv)) d ->
  forall k v, Dict.get d k = Some v -> P k v.
Proof.
  intros H k v Hget. apply DictFacts.get_In in Hget.
  rewrite Forall_forall in H. apply (H _ Hget).
Qed.

Lemma main_paths_info_value : main_paths_info = Ret expected_paths_info.
Proof. vm_compute. reflexivity. Qed.

Lemma grid_paths_to_0 :
  compute_shortest_paths grid_graph 0%nat = Ret expected_paths_info.
Proof. vm_compute. reflexivity. Qed.

(** No entry of the table for destination 0 reports distance 4 or holds a
    route made of one weight-2 edge and two weight-1 edges. *)
Lemma expected_paths_info_no_4 (n : node) (r : RouteResult) :
  Dict.get expected_paths_info n = Some r ->
  total_weight r <> Finite 4
  /\ forall p, path r = Some p -> one_long_two_medium grid_graph p = false.
Proof.
  revert n r. apply get_Forall. unfold expected_paths_info, expected.
  repeat (apply Forall_cons || apply Forall_nil);
    (split; [discriminate|]);
    cbn [snd path]; intros p Hp; inversion Hp; subst p; vm_compute; reflexivity.
Qed.

(** Every entry of the table for destination 0 holds a route of the grid
    graph to node 0 whose weights sum to the reported distance, and that
    distance is not 4. *)
Lemma expected_paths_info_routes (n : node) (r : RouteResult) :
  Dict.get expected_paths_info n = Some r ->
  exists d p w,
    total_weight r = Finite d
    /\ path r = Some p
    /\ p <> []
    /\ route grid_graph n 0%nat p w
    /\ w == d
    /\ (d < 4 \/ 4 < d)
    /\ path_description r <> "No path found"%string.
Proof.
  revert n r.
  apply (get_Forall
           (fun n r => exists d p w,
                total_weight r = Finite d /\ path r = Some p /\ p <> []
                /\ route grid_graph n 0%nat p w /\ w == d
                /\ (d < 4 \/ 4 < d)
                /\ path_description r <> "No path found"%string)).
  unfold expected_paths_info, expected.
  repeat (apply Forall_cons || apply Forall_nil);
    cbn [fst snd total_weight path path_description];
    (eexists; eexists; eexists; split; [reflexivity|]; split; [reflexivity|];
     split; [discriminate|];
     split; [apply route_of_path_weight; reflexivity|];
     split; [vm_compute; reflexivity|];
     split; [first [left; reflexivity | right; reflexivity] | discriminate]).
Qed.

(** In the grid graph a route to node 0 made of one weight-2 edge and two
    weight-1 edges is never a minimum route: a strictly shorter route
    exists. *)
Lemma long_medium_medium_to_0_not_minimal (n : node) (q : list node) (w : Q) :
  route grid_graph n 0%nat q w ->
  one_long_two_medium grid_graph q = true ->
  exists q' w', route grid_graph n 0%nat q' w' /\ w' < w.
Proof.
  intros Hq Hshape.
  destruct (one_long_two_medium_weight _ _ Hshape) as (_ & w4 & Hw4 & H4).
  pose proof (route_path_weight _ _ _ _ _ Hq) as (Hw & Hhd & Hlast).
  assert (w4 = w) by congruence. subst w4.
  destruct (Nat.eq_dec n 0) as [-> | Hne].
  - exists [0%nat], 0. split; [constructor | lra].
  - assert (In n (nodes grid_graph)) as Hnode.
    { apply (ok_has_node_In grid_graph), (ok_has_node grid_graph grid_graph_ok).
      inversion Hq as [|a b t p' w1 r1 Hedge Hrest]; subst; [congruence|].
      unfold edge_weight in Hedge.
      destruct (Dict.get (_adj grid_graph) n) as [nb|]; [eauto | discriminate]. }
    destruct (table_entry_exists grid_graph 0%nat expected_paths_info
                grid_graph_ok grid_graph_nonneg grid_paths_to_0 n Hnode Hne)
      as (r & Hget).
    destruct (expected_paths_info_routes n r Hget)
      as (d & p' & w' & Htotal & _ & _ & Hroute & Hwd & Hnot4 & _).
    exists p', w'. split; [exact Hroute|].
    destruct (table_entry_cases grid_graph 0%nat expected_paths_info
                grid_graph_ok grid_graph_nonneg grid_paths_to_0 n r Hget)
      as (_ & _ & [(p1 & d1 & -> & _ & Hopt) | (-> & _)]); [|discriminate].
    cbn [total_weight path_result] in Htotal. unfold float in Htotal. subst d1.
    assert (walk grid_graph n 0%nat q (Finite 4)) as Hwalk.
    { apply walk_path_total. split; [|split]; auto.
      now apply one_long_two_medium_total. }
    specialize (Hopt _ _ Hwalk). simpl in Hopt. lra.
Qed.

(** C4, refuted for the default destination: with every source routed to
    node 0 no source reports distance 4, no returned route is made of one
    weight-2 edge and two weight-1 edges, and a route to node 0 of that
    shape is never a minimum route. *)
Lemma no_long_medium_medium_route_to_node_0 :
  exists tab,
    main_paths_info = Ret tab
    /\ (forall n r, Dict.get tab n = Some r ->
          total_weight r <> Finite 4
          /\ forall p, path r = Some p ->
               one_long_two_medium grid_graph p = false)
    /\ (forall n q w,
          route grid_graph n 0%nat q w ->
          one_long_two_medium grid_graph q = true ->
          exists q' w', route grid_graph n 0%nat q' w' /\ w' < w).
Proof.
  exists expected_paths_info. split; [exact main_paths_info_value|].
  split.
  - exact expected_paths_info_no_4.
  - exact long_medium_medium_to_0_not_minimal.
Qed.

(** C4, as the code behaves: whatever the destination, a source whose
    returned route is made of one weight-2 edge and two weight-1 edges
    reports distance 4 and a route of 4 nodes.  Source 7 with destination 10
    is such a source.  With the default destination 0 there is none: no
    source reports distance 4, and a route to node 0 of that shape is never
    a minimum route. *)
Theorem long_medium_medium_route_reports_4 :
  (forall destination n tab r p,
      compute_shortest_paths grid_graph destination = Ret tab ->
      Dict.get tab n = Some r ->
      path r = Some p ->
      one_long_two_medium grid_graph p = true ->
      total_weight r = Finite 4 /\ length p = 4%nat)
  /\ (exists tab r p,
        compute_shortest_paths grid_graph 10%nat = Ret tab
        /\ Dict.get tab 7%nat = Some r
        /\ path r = Some p
        /\ one_long_two_medium grid_graph p = true)
  /\ (exists tab,
        compute_shortest_paths grid_graph 0%nat = Ret tab
        /\ (forall n r, Dict.get tab n = Some r -> total_weight r <> Finite 4)
        /\ (forall n q w,
              route grid_graph n 0%nat q w ->
              one_long_two_medium grid_graph q = true ->
              exists q' w', route grid_graph n 0%nat q' w' /\ w' < w)).
Proof.
  split; [|split].
  - intros destination n tab r p Hrun Hget Hpath Hshape.
    destruct (one_long_two_medium_weight _ _ Hshape) as (Hlen & _).
    split; [|exact Hlen].
    destruct (table_entry_cases grid_graph destination tab
                grid_graph_ok grid_graph_nonneg Hrun n r Hget)
      as (_ & _ & [(p' & d & -> & Hw & _) | (-> & _)]); [|discriminate].
    cbn [path path_result] in Hpath. inversion Hpath; subst p'.
    apply walk_path_total in Hw. destruct Hw as (Hsum & _).
    rewrite (one_long_two_medium_total _ _ Hshape) in Hsum.
    inversion Hsum; subst d. reflexivity.
  - do 3 eexists. split; [vm_compute; reflexivity|].
    split; [reflexivity|]. split; [reflexivity|]. vm_compute. reflexivity.
  - exists expected_paths_info. split; [exact grid_paths_to_0|]. split.
    + intros n r Hget. apply (expected_paths_info_no_4 n r Hget).
    + exact long_medium_medium_to_0_not_minimal.
Qed.

(** C6: whatever node of the grid graph is the destination, some source
    that has a route in the full graph gets the "No path found" result once
    the weight-2 edges are gone. *)
Theorem removing_long_edges_disconnects :
  Forall
    (fun destination =>
       exists n tab r p tab',
         compute_shortest_paths grid_graph destination = Ret tab
         /\ Dict.get tab n = Some r
         /\ path r = Some p
         /\ compute_shortest_paths grid_without_long destination = Ret tab'
         /\ Dict.get tab' n
            = Some (mkRoute n destination None Infinity "No path found"))
    (nodes grid_graph).
Proof.
  assert (forall destination n : node,
            (match compute_shortest_paths grid_graph destination,
                   compute_shortest_paths grid_without_long destination with
             | Ret tab, Ret tab' =>
                 match Dict.get tab n, Dict.get tab' n with
                 | Some r, Some r' =>
                     match path r, path r', total_weight r' with
                     | Some _, None, Infinity =>
                         andb (Nat.eqb (start r') n)
                              (andb (Nat.eqb (goal r') destination)
                                    (String.eqb (path_description r')
                                                "No path found"))
                     | _, _, _ => false
                     end
                 | _, _ => false
                 end
             | _, _ => false
             end) = true ->
            exists tab r p tab',
              compute_shortest_paths grid_graph destination = Ret tab
              /\ Dict.get tab n = Some r
              /\ path r = Some p
              /\ compute_shortest_paths grid_without_long destination = Ret tab'
              /\ Dict.get tab' n
                 = Some (mkRoute n destination None Infinity "No path found"))
    as Hcheck.
  { intros destination n.
    destruct (compute_shortest_paths grid_graph destination) as [tab| |];
      try discriminate.
    destruct (compute_shortest_paths grid_without_long destination) as [tab'| |];
      try discriminate.
    destruct (Dict.get tab n) as [r|] eqn:Er; try discriminate.
    destruct (Dict.get tab' n) as [[s g p' tw text]|] eqn:Er'; try discriminate.
    destruct (path r) as [p|] eqn:Ep; try discriminate.
    cbn [path total_weight start goal path_description].
    destruct p'; try discriminate. destruct tw; try discriminate.
    intros H. apply andb_prop in H. destruct H as [Hs H].
    apply andb_prop in H. destruct H as [Hg Ht].
    apply Nat.eqb_eq in Hs, Hg. apply String.eqb_eq in Ht. subst.
    exists tab, r, p, tab'. repeat split; auto. }
  unfold nodes. cbn [Dict.keys map fst grid_graph _node].
  repeat (apply Forall_cons || apply Forall_nil);
    first [ exists 7%nat; apply Hcheck; vm_compute; reflexivity
          | exists 0%nat; apply Hcheck; vm_compute; reflexivity ].
Qed.

(** C9: the graph that [create_grid_graph] returns has the 12 nodes of the
    node list and 17 edges; every edge joins two distinct nodes of the
    graph and has a strictly positive weight, no two edges join the same
    unordered pair, and the adjacency is symmetric. *)
Theorem grid_graph_invariants :
  exists G,
    create_grid_graph = Ret (G, node_positions)
    /\ nodes G = Dict.keys node_positions
    /\ length (edges G) = length edges_with_weights
    /\ Forall (fun '(u, v, w) =>
                 u <> v /\ In u (nodes G) /\ In v (nodes G) /\ 0 < w)
              (edges G)
    /\ NoDup (map unordered (edges G))
    /\ NoDup (map unordered edges_with_weights)
    /\ graph_ok G = true
    /\ positive_weights G = true.
Proof.
  exists grid_graph. split; [reflexivity|]. split; [reflexivity|].
  split; [reflexivity|].
  split; [|split; [|split; [|split]]].
  - repeat (apply Forall_cons || apply Forall_nil);
      (split; [discriminate|]); (split; [|split]);
      try reflexivity; simpl; tauto.
  - apply (NoDup_map_inv (fun '(a, b) => (a * 12 + b)%nat)).
    apply nodupb_NoDup. vm_compute. reflexivity.
  - apply (NoDup_map_inv (fun '(a, b) => (a * 12 + b)%nat)).
    apply nodupb_NoDup. vm_compute. reflexivity.
  - exact grid_graph_ok.
  - exact grid_graph_positive.
Qed.

(** C10: with the default destination 0 the table has the 11 other nodes,
    each with a finite distance and a non-empty route to node 0 in the
    graph; the "No path found" branch is not taken. *)
Theorem default_pipeline_reaches_every_node :
  exists tab,
    main_paths_info = Ret tab
    /\ Dict.keys tab = [1; 2; 3; 4; 5; 6; 7; 8; 9; 10; 11]%nat
    /\ forall n r, Dict.get tab n = Some r ->
         exists d p w,
           total_weight r = Finite d
           /\ path r = Some p
           /\ p <> []
           /\ route grid_graph n 0%nat p w
           /\ w == d
           /\ path_description r <> "No path found"%string.
Proof.
  exists expected_paths_info. split; [exact main_paths_info_value|].
  split; [reflexivity|].
  intros n r Hget.
  destruct (expected_paths_info_routes n r Hget)
    as (d & p & w & H1 & H2 & H3 & H4 & H5 & _ & H6).
  exists d, p, w. repeat split; auto.
Qed.

(** ** The general theorems at concrete inputs *)

Lemma grid_without_long_ok : graph_ok grid_without_long = true.
Proof. vm_compute. reflexivity. Qed.

Lemma grid_without_long_nonneg : nonneg_weights grid_without_long = true.
Proof. vm_compute. reflexivity. Qed.

(** Without the weight-2 edges no route leads from node 7 to node 0: no
    edge leaves the block 6..11. *)
Lemma node_7_cut_off : ~ reachable grid_without_long 7%nat 0%nat.
Proof.
  intros (p & w & Hr).
  apply (route_stays_inside grid_without_long (fun n => Nat.leb 6 n)) in Hr;
    [discriminate | reflexivity | reflexivity].
Qed.


(** [unreachable_source_gets_no_path] for source 7 and destination 0 in the
    grid graph without its weight-2 edges. *)
Lemma unreachable_source_gets_no_path_witness :
  exists tab,
    compute_shortest_paths grid_without_long 0%nat = Ret tab
    /\ Dict.get tab 7%nat
       = Some (mkRoute 7%nat 0%nat None Infinity "No path found")
    /\ forall m, In m (nodes grid_without_long) -> m <> 0%nat ->
         exists r, route_entry grid_without_long m 0%nat = Ret r
                   /\ Dict.get tab m = Some r.
Proof.
  apply (unreachable_source_gets_no_path grid_without_long 0%nat 7%nat).
  - vm_compute. reflexivity.
  - vm_compute. reflexivity.
  - simpl. do 7 right. left. reflexivity.
  - discriminate.
  - exact node_7_cut_off.
Defined.


(** [table_covers_all_but_destination] for the grid graph and destination
    0. *)
Lemma table_covers_all_but_destination_witness :
  exists tab,
    compute_shortest_paths grid_graph 0%nat = Ret tab
    /\ (forall n, In n (nodes grid_graph) -> n <> 0%nat -> Dict.mem tab n = true)
    /\ Dict.mem tab 0%nat = false
    /\ Dict.keys tab
       = filter (fun n => negb (Nat.eqb n 0)) (nodes grid_graph).
Proof.
  apply (table_covers_all_but_destination grid_graph 0%nat).
  - vm_compute. reflexivity.
  - vm_compute. reflexivity.
Defined.

(** [unknown_destination_gives_no_path] for the grid graph and the unknown
    node 99. *)
Lemma unknown_destination_gives_no_path_witness :
  exists tab,
    compute_shortest_paths grid_graph 99%nat = Ret tab
    /\ Dict.keys tab = nodes grid_graph
    /\ forall n, In n (nodes grid_graph) ->
         Dict.get tab n
         = Some (mkRoute n 99%nat None Infinity "No path found").
Proof.
  apply (unknown_destination_gives_no_path grid_graph 99%nat).
  - vm_compute. reflexivity.
  - vm_compute. reflexivity.
  - vm_compute. reflexivity.
Defined.


(** On the grid graph no addition rounds: along every returned path, and
    along the same path walked backwards, every partial sum is a binary64
    value.  The distance from 7 to 0 and the distance from 0 to 7 are both
    6.5. *)
Lemma grid_sums_need_no_rounding :
  forallb (fun kv => match path (snd kv) with
                     | Some p => exact_path grid_graph p
                                 && exact_path grid_graph (rev p)
                     | None => false
                     end)
          expected_paths_info = true
  /\ exists tab_a r_ba,
       compute_shortest_paths grid_graph 7%nat = Ret tab_a
       /\ Dict.get tab_a 0%nat = Some r_ba
       /\ path r_ba = Some [0; 1; 2; 5; 6; 7]%nat
       /\ exact_path grid_graph [0; 1; 2; 5; 6; 7]%nat = true
       /\ exact_path grid_graph (rev [0; 1; 2; 5; 6; 7]%nat) = true
       /\ total_weight r_ba = Finite (13 # 2)
       /\ Dict.get expected_paths_info 7%nat
          = Some (mkRoute 7%nat 0%nat (Some [7; 6; 5; 4; 3; 0]%nat) (Finite (13 # 2))
                    "7 -> 6 -> 5 -> 4 -> 3 -> 0").
Proof.
  split; [vm_compute; reflexivity|].
  do 2 eexists. split; [vm_compute; reflexivity|].
  repeat split; reflexivity.
Qed.
(** * Further properties of the program *)

(** ** save_to_yaml *)

Lemma insert_item_perm {V : Type} (kv : node * V) (l : list (node * V)) :
  Permutation (insert_item kv l) (kv :: l).
Proof.
  induction l as [|kv' l IH]; simpl; auto.
  destruct (Nat.leb (fst kv) (fst kv')); auto.
  eapply perm_trans; [apply perm_skip, IH | apply perm_swap].
Qed.

Lemma sorted_items_perm {V : Type} (d : Dict.t V) :
  Permutation (sorted_items d) d.
Proof.
  induction d as [|kv d IH]; simpl; auto.
  eapply perm_trans; [apply insert_item_perm | now apply perm_skip].
Qed.

Lemma insert_item_sorted {V : Type} (kv : node * V) (l : list (node * V)) :
  StronglySorted le (map fst l) ->
  StronglySorted le (map fst (insert_item kv l)).
Proof.
  induction l as [|kv' l IH]; simpl; intros Hs.
  - repeat constructor.
  - inversion Hs as [|? ? Hs' Hall]; subst.
    destruct (Nat.leb_spec (fst kv) (fst kv')) as [Hle | Hgt]; simpl.
    + constructor; [exact Hs|]. constructor; [exact Hle|].
      eapply Forall_impl; [|exact Hall]. intros k Hk. simpl in Hk. lia.
    + constructor; [now apply IH|].
      assert (Forall (le (fst kv')) (map fst (kv :: l))) as Hall'.
      { constructor; [lia | exact Hall]. }
      eapply Permutation_Forall; [|exact Hall'].
      apply Permutation_map, Permutation_sym, insert_item_perm.
Qed.

Lemma sorted_items_sorted {V : Type} (d : Dict.t V) :
  StronglySorted le (map fst (sorted_items d)).
Proof.
  induction d as [|kv d IH]; simpl; [constructor|].
  now apply insert_item_sorted.
Qed.

Lemma sorted_nodup_strict (l : list node) :
  StronglySorted le l -> NoDup l -> StronglySorted lt l.
Proof.
  induction 1 as [|x l Hs IH Hall]; intros Hnd; constructor.
  - apply IH. now inversion Hnd.
  - inversion Hnd as [|? ? Hx _]; subst.
    rewrite Forall_forall in *. intros y Hy. specialize (Hall y Hy).
    assert (x <> y) by (intros ->; contradiction). lia.
Qed.

Lemma str_inj (n m : node) : str n = str m -> n = m.
Proof.
  unfold str. intros H. apply Unsigned.to_uint_inj.
  apply (f_equal NilEmpty.uint_of_string) in H.
  rewrite !NilEmpty.usu in H. congruence.
Qed.

Lemma from_node_inj (n m : node) : from_node n = from_node m -> n = m.
Proof.
  unfold from_node. intros H. apply str_inj.
  simpl in H. repeat (injection H as H). exact H.
Qed.

Lemma str_set_new {V : Type} (d : StrDict.t V) (k : string) (v : V) :
  ~ In k (StrDict.keys d) -> StrDict.set d k v = d ++ [(k, v)].
Proof.
  induction d as [|[k' v'] d IH]; simpl; intros Hk; auto.
  destruct (String.eqb_spec k' k) as [-> | _]; [tauto|].
  f_equal. apply IH. tauto.
Qed.

Lemma yaml_fold (l : list (node * RouteResult)) (sp : StrDict.t YamlRoute) :
  NoDup (map fst l) ->
  (forall kv, In kv l -> ~ In (from_node (fst kv)) (StrDict.keys sp)) ->
  fold_left
    (fun sp '(n, info) => StrDict.set sp (from_node n) (yaml_entry info)) l sp
  = sp ++ map (fun kv => (from_node (fst kv), yaml_entry (snd kv))) l.
Proof.
  revert sp. induction l as [|[n info] l IH]; intros sp Hnd Hfresh; simpl.
  - now rewrite app_nil_r.
  - inversion Hnd as [|? ? Hn Hnd']; subst.
    rewrite str_set_new by (apply (Hfresh (n, info)); now left).
    rewrite IH; auto.
    + now rewrite <- app_assoc.
    + intros kv Hkv. unfold StrDict.keys. rewrite map_app, in_app_iff.
      intros [H | [H | []]].
      * apply (Hfresh kv); [now right | exact H].
      * simpl in H. apply from_node_inj in H. apply Hn. rewrite H.
        now apply in_map.
Qed.

Lemma str_get_map (l : list (node * RouteResult)) (n : node) (info : RouteResult) :
  NoDup (map fst l) ->
  In (n, info) l ->
  StrDict.get (map (fun kv => (from_node (fst kv), yaml_entry (snd kv))) l)
              (from_node n)
  = Some (yaml_entry info).
Proof.
  induction l as [|[k v] l IH]; simpl; intros Hnd Hin; [contradiction|].
  inversion Hnd as [|? ? Hk Hnd']; subst.
  destruct Hin as [Heq | Hin].
  - inversion Heq; subst. now rewrite String.eqb_refl.
  - destruct (String.eqb_spec (str k) (str n)) as [E | _]; auto.
    apply str_inj in E. subst k. exfalso. apply Hk.
    apply (in_map fst) in Hin. exact Hin.
Qed.

(** The document of [save_to_yaml] has one entry per source of the table,
    by ascending node id whatever the order of the table, under the key
    [from_node_<id>]; no entry overwrites another, and the entry of a
    source carries the five fields of its result. *)
Theorem yaml_data_lists_sources_in_order (paths_info : Dict.t RouteResult) :
  NoDup (Dict.keys paths_info) ->
  shortest_paths (yaml_data paths_info)
  = map (fun kv => (from_node (fst kv), yaml_entry (snd kv)))
        (sorted_items paths_info)
  /\ Permutation (sorted_items paths_info) paths_info
  /\ StronglySorted lt (map fst (sorted_items paths_info))
  /\ forall n info,
       Dict.get paths_info n = Some info ->
       StrDict.get (shortest_paths (yaml_data paths_info)) (from_node n)
       = Some (yaml_entry info).
Proof.
  intros Hnd.
  pose proof (sorted_items_perm paths_info) as Hperm.
  assert (NoDup (map fst (sorted_items paths_info))) as Hnd'.
  { eapply Permutation_NoDup; [|exact Hnd].
    apply Permutation_map, Permutation_sym, Hperm. }
  assert (shortest_paths (yaml_data paths_info)
          = map (fun kv => (from_node (fst kv), yaml_entry (snd kv)))
                (sorted_items paths_info)) as Heq.
  { unfold yaml_data. cbn [shortest_paths].
    rewrite yaml_fold; auto. }
  split; [exact Heq|]. split; [exact Hperm|]. split.
  - apply sorted_nodup_strict; [apply sorted_items_sorted | exact Hnd'].
  - intros n info Hget. rewrite Heq. apply str_get_map; auto.
    eapply Permutation_in; [apply Permutation_sym, Hperm|].
    now apply DictFacts.get_In.
Qed.

(** ** Graph construction, for any node and edge data *)

Lemma add_node_edge_weight (G : Graph) (n : node) (pos : position) (x y : node) :
  aligned G -> edge_weight (add_node G n pos) x y = edge_weight G x y.
Proof.
  intros Hal. unfold add_node.
  destruct (Dict.mem (_node G) n) eqn:E; cbn [negb]; [reflexivity|].
  unfold edge_weight. cbn [_adj].
  destruct (Nat.eq_dec n x) as [<- | Hne].
  - rewrite DictFacts.get_set_same.
    assert (Dict.mem (_adj G) n = false) as E' by (rewrite aligned_mem; auto).
    apply DictFacts.mem_false in E'. now rewrite E'.
  - now rewrite DictFacts.get_set_other.
Qed.

Lemma mem_set {V : Type} (d : Dict.t V) (k x : node) (v : V) :
  Dict.mem (Dict.set d k v) x = Dict.mem d x || Nat.eqb x k.
Proof.
  unfold Dict.mem. destruct (Nat.eqb_spec x k) as [-> | Hne].
  - rewrite DictFacts.get_set_same. now rewrite orb_true_r.
  - rewrite DictFacts.get_set_other by congruence. now rewrite orb_false_r.
Qed.

Lemma add_node_has_node (G : Graph) (n : node) (pos : position) (x : node) :
  has_node (add_node G n pos) x = has_node G x || Nat.eqb x n.
Proof.
  unfold add_node, has_node.
  destruct (negb (Dict.mem (_node G) n)); cbn [_node]; apply mem_set.
Qed.

Lemma touch_node_has_node (G : Graph) (u x : node) :
  has_node (touch_node G u) x = has_node G x || Nat.eqb x u.
Proof.
  unfold touch_node, has_node.
  destruct (Dict.mem (_node G) u) eqn:E; cbn [negb _node].
  - destruct (Nat.eqb_spec x u) as [-> | _].
    + now rewrite E.
    + now rewrite orb_false_r.
  - apply mem_set.
Qed.

Lemma add_edge_has_node (G G' : Graph) (u v : node) (w : Q) (x : node) :
  add_edge G u v w = Ret G' ->
  has_node G' x = has_node G x || Nat.eqb x u || Nat.eqb x v.
Proof.
  unfold add_edge. intros H.
  destruct (Dict.item _ u) as [adj_u| |]; cbn [bind] in H; try discriminate.
  destruct (Dict.item _ v) as [adj_v| |]; cbn [bind] in H; try discriminate.
  inversion H; subst G'. unfold has_node at 1. cbn [_node].
  change (Dict.mem (_node (touch_node (touch_node G u) v)) x)
    with (has_node (touch_node (touch_node G u) v) x).
  now rewrite !touch_node_has_node.
Qed.

Lemma add_nodes_spec (positions : Dict.t position) (G : Graph) :
  aligned G ->
  let G' := fold_left (fun G '(n, pos) => add_node G n pos) positions G in
  (forall x, has_node G' x = has_node G x || existsb (Nat.eqb x) (Dict.keys positions))
  /\ (forall x y, edge_weight G' x y = edge_weight G x y).
Proof.
  revert G. induction positions as [|[n pos] ps IH]; intros G Hal; simpl.
  - split; auto. intros x. now rewrite orb_false_r.
  - destruct (IH (add_node G n pos) (add_node_aligned G n pos Hal)) as [Hn He].
    split.
    + intros x. rewrite Hn, add_node_has_node. now rewrite orb_assoc.
    + intros x y. rewrite He. now apply add_node_edge_weight.
Qed.

Lemma add_edges_lookup (edge_list : list (node * node * Q)) (G0 G : Graph) :
  aligned G0 ->
  for_each add_edge_step edge_list G0 = Ret G ->
  (forall x, has_node G x
             = has_node G0 x || existsb (Nat.eqb x) (endpoints edge_list))
  /\ (forall x y,
        edge_weight G x y
        = fold_left
            (fun acc e =>
               let '(u, v, w) := e in if joins u v x y then Some w else acc)
            edge_list (edge_weight G0 x y)).
Proof.
  revert G0. induction edge_list as [|[[u v] w] l IH]; intros G0 Hal Hrun.
  - simpl in Hrun. inversion Hrun; subst. split; auto.
    intros x. simpl. now rewrite orb_false_r.
  - change (for_each add_edge_step ((u, v, w) :: l) G0)
      with (G1 <- add_edge G0 u v w ;; for_each add_edge_step l G1) in Hrun.
    destruct (add_edge_spec G0 u v w Hal) as (G1 & Hadd & Hal1 & _ & _ & _ & Hedge).
    rewrite Hadd in Hrun. cbn [bind] in Hrun.
    destruct (IH G1 Hal1 Hrun) as [Hn He]. split.
    + intros x. rewrite Hn, (add_edge_has_node _ _ _ _ _ x Hadd).
      cbn [endpoints flat_map app existsb].
      now rewrite <- !orb_assoc.
    + intros x y. rewrite He. cbn [fold_left]. now rewrite Hedge.
Qed.

(** After construction, the weight between two nodes is the weight of the
    last triple of the edge list that joins them, in either direction (a
    repeated pair overwrites the earlier weight), and there is no edge
    between nodes that no triple joins. *)
Theorem built_weight_is_last_listed
    (positions : Dict.t position) (edge_list : list (node * node * Q)) :
  exists G,
    build_graph positions edge_list = Ret G
    /\ forall x y, edge_weight G x y = last_weight edge_list x y.
Proof.
  destruct (build_graph_ok positions edge_list) as (G & Hrun & _).
  exists G. split; [exact Hrun|].
  unfold build_graph in Hrun.
  assert (aligned empty_graph) as Hal0 by reflexivity.
  pose proof (add_nodes_spec positions empty_graph Hal0) as [_ He0].
  cbv zeta in He0.
  destruct (add_edges_lookup edge_list _ G (add_nodes_aligned positions _ Hal0) Hrun)
    as [_ He].
  intros x y. rewrite He, He0. reflexivity.
Qed.

(** The nodes of the constructed graph are the nodes of the node list and
    the endpoints of the edge list, nothing else, each once. *)
Theorem built_nodes_are_listed_or_endpoints
    (positions : Dict.t position) (edge_list : list (node * node * Q)) :
  exists G,
    build_graph positions edge_list = Ret G
    /\ NoDup (nodes G)
    /\ forall x, In x (nodes G)
                 <-> In x (Dict.keys positions) \/ In x (endpoints edge_list).
Proof.
  destruct (build_graph_ok positions edge_list) as (G & Hrun & Hok).
  exists G. split; [exact Hrun|]. split; [now apply ok_nodes_nodup|].
  unfold build_graph in Hrun.
  assert (aligned empty_graph) as Hal0 by reflexivity.
  pose proof (add_nodes_spec positions empty_graph Hal0) as [Hn0 _].
  cbv zeta in Hn0.
  destruct (add_edges_lookup edge_list _ G (add_nodes_aligned positions _ Hal0) Hrun)
    as [Hn _].
  intros x. rewrite <- ok_has_node_In, Hn, Hn0.
  change (has_node empty_graph x) with false. cbn [orb].
  rewrite orb_true_iff, !existsb_exists.
  split.
  - intros [(y & Hy & E) | (y & Hy & E)]; apply Nat.eqb_eq in E; subst y; auto.
  - intros [H | H]; [left | right]; exists x; split; auto; apply Nat.eqb_refl.
Qed.

(** Whatever the node and edge data, construction returns a graph in which
    the node and adjacency dictionaries list the same nodes, no key occurs
    twice, and every edge is stored in both directions with one weight:
    the graph is a well-formed undirected graph. *)
Theorem constructed_graph_is_well_formed
    (positions : Dict.t position) (edge_list : list (node * node * Q)) :
  exists G,
    build_graph positions edge_list = Ret G
    /\ graph_ok G = true
    /\ Dict.keys (_node G) = Dict.keys (_adj G)
    /\ NoDup (nodes G)
    /\ forall u v w, edge_weight G u v = Some w ->
         exists w', edge_weight G v u = Some w' /\ w == w'.
Proof.
  destruct (build_graph_ok positions edge_list) as (G & Hrun & Hok).
  exists G. split; [exact Hrun|]. split; [exact Hok|].
  split; [now apply ok_same_keys|]. split; [now apply ok_nodes_nodup|].
  intros u v w. now apply ok_symmetric.
Qed.

(** ** What [compute_shortest_paths] can raise *)

Lemma relax_raises (v : node) (d : pyfloat) (st : dijkstra_state) (ue : node * Q)
    (e : exn) :
  relax v d st ue = Raise e -> e = ValueError \/ e = KeyError.
Proof.
  destruct ue as [u cost]. unfold relax.
  destruct (Dict.get (dist st) u).
  - destruct (flt _ _); [|discriminate]. intros H; inversion H; auto.
  - destruct (match Dict.get (seen st) u with None => true | Some s => flt _ s end);
      [|discriminate].
    destruct (paths st) as [ps|]; simpl; [|discriminate].
    unfold Dict.item. destruct (Dict.get ps v); simpl; [discriminate|].
    intros H; inversion H; auto.
Qed.

Lemma for_each_relax_raises (v : node) (d : pyfloat) (nbrs : Dict.t Q)
    (st : dijkstra_state) (e : exn) :
  for_each (relax v d) nbrs st = Raise e -> e = ValueError \/ e = KeyError.
Proof.
  revert st. induction nbrs as [|ue nbrs IH]; simpl; intros st; [discriminate|].
  destruct (relax v d st ue) as [st1| e1 |] eqn:E; simpl.
  - apply IH.
  - intros H; inversion H; subst. eapply relax_raises; eauto.
  - discriminate.
Qed.

Lemma dijkstra_loop_raises (G_succ : Dict.t (Dict.t Q)) (target : node)
    (fuel : nat) (st : dijkstra_state) (e : exn) :
  dijkstra_loop fuel G_succ target st = Raise e ->
  e = ValueError \/ e = KeyError.
Proof.
  revert st. induction fuel as [|fuel IH]; intros st; simpl; [discriminate|].
  destruct (heappop (fringe st)) as [[[[d k] v] rest]|]; [|discriminate].
  destruct (Dict.mem (dist st) v); [apply IH|].
  destruct (Nat.eqb v target); [discriminate|].
  unfold Dict.item. destruct (Dict.get G_succ v) as [nbrs|]; simpl.
  - destruct (for_each (relax v d) nbrs _) as [st1| e1 |] eqn:E; simpl.
    + apply IH.
    + intros H; inversion H; subst. eapply for_each_relax_raises; eauto.
    + discriminate.
  - intros H; inversion H; auto.
Qed.

Lemma dijkstra_multisource_outcome (G : Graph) (source target : node)
    (paths0 : option (Dict.t (list node))) :
  (exists st, _dijkstra_multisource G source paths0 target = Ret st)
  \/ _dijkstra_multisource G source paths0 target = Raise ValueError
  \/ _dijkstra_multisource G source paths0 target = Raise KeyError.
Proof.
  unfold _dijkstra_multisource.
  pose proof (dijkstra_loop_terminates (_adj G) target (dijkstra_fuel G)
    (mkState [] [(source, Finite 0)] (heappush [] (Finite 0, 0%nat, source))
             1%nat paths0))
    as Hterm.
  destruct (dijkstra_loop _ _ _ _) as [st| e |] eqn:E.
  - left. eauto.
  - right. apply dijkstra_loop_raises in E. destruct E; subst; auto.
  - exfalso. apply Hterm; [|reflexivity].
    cbn [dist fringe]. unfold dijkstra_fuel, heappush. simpl length.
    pose proof (pending_le_all (_adj G) []). lia.
Qed.

(** One source of the graph: a result, or one of the two exceptions that
    the handler does not catch. *)
Lemma route_entry_outcome (G : Graph) (source target : node) :
  has_node G source = true ->
  (exists r, route_entry G source target = Ret r)
  \/ route_entry G source target = Raise ValueError
  \/ route_entry G source target = Raise KeyError.
Proof.
  intros Hs. unfold route_entry, dijkstra_path, dijkstra_path_length.
  rewrite Hs. cbn [negb].
  destruct (Nat.eqb target source).
  - cbn [bind]. destruct (Nat.eqb source target); cbn [bind]; [eauto|].
    destruct (dijkstra_multisource_outcome G source target None)
      as [(st & ->) | [-> | ->]]; cbn [bind]; auto.
    destruct (Dict.get (dist st) target); cbn [bind]; eauto.
  - destruct (dijkstra_multisource_outcome G source target
                (Some [(source, [source])])) as [(st & ->) | [-> | ->]];
      cbn [bind]; auto.
    assert (forall A (k : list node -> outcome A) (m : outcome (list node)),
              m = Raise NetworkXNoPath -> bind m k = Raise NetworkXNoPath)
      as Hno by (intros A k m ->; reflexivity).
    destruct (match Dict.get (dist st) target, paths st with
              | Some _, Some ps =>
                  match Dict.get ps target with
                  | Some p => Ret p
                  | None => Raise NetworkXNoPath
                  end
              | _, _ => Raise NetworkXNoPath
              end) as [p| e |] eqn:Epath.
    + cbn [bind]. destruct (Nat.eqb source target); cbn [bind]; [eauto|].
      destruct (dijkstra_multisource_outcome G source target None)
        as [(st' & ->) | [-> | ->]]; cbn [bind]; auto.
      destruct (Dict.get (dist st') target); cbn [bind]; eauto.
    + assert (e = NetworkXNoPath) as ->.
      { destruct (Dict.get (dist st) target); [|congruence].
        destruct (paths st) as [ps|]; [|congruence].
        destruct (Dict.get ps target); congruence. }
      cbn [bind]. eauto.
    + exfalso. destruct (Dict.get (dist st) target); [|discriminate].
      destruct (paths st) as [ps|]; [|discriminate].
      destruct (Dict.get ps target); discriminate.
Qed.

Lemma table_outcome (G : Graph) (target : node) (l : list node)
    (acc : Dict.t RouteResult) :
  (forall n, In n l -> has_node G n = true) ->
  (exists tab, for_each (table_step G target) l acc = Ret tab)
  \/ for_each (table_step G target) l acc = Raise ValueError
  \/ for_each (table_step G target) l acc = Raise KeyError.
Proof.
  revert acc. induction l as [|x l IH]; intros acc Hl.
  - left. simpl. eauto.
  - change (for_each (table_step G target) (x :: l) acc)
      with (acc' <- table_step G target acc x ;;
            for_each (table_step G target) l acc').
    assert (forall n, In n l -> has_node G n = true) as Hl'.
    { intros n Hn. apply Hl. now right. }
    assert ((exists acc', table_step G target acc x = Ret acc')
            \/ table_step G target acc x = Raise ValueError
            \/ table_step G target acc x = Raise KeyError) as Hstep.
    { unfold table_step. destruct (Nat.eqb x target); [eauto|].
      destruct (route_entry_outcome G x target) as [(r & ->) | [-> | ->]];
        cbn [bind]; eauto.
      apply Hl. now left. }
    destruct Hstep as [(acc' & ->) | [-> | ->]]; cbn [bind]; auto.
Qed.

Lemma mem_set_mono {V : Type} (d : Dict.t V) (k x : node) (v : V) :
  Dict.mem d x = true -> Dict.mem (Dict.set d k v) x = true.
Proof. intros H. now rewrite mem_set, H. Qed.

Lemma relax_keys_known (G : Graph) (v : node) (d : pyfloat) (st : dijkstra_state)
    (u : node) (cost : Q) :
  graph_ok G = true ->
  keys_known G st ->
  Dict.mem (dist st) v = true ->
  edge_weight G v u = Some cost ->
  relax v d st (u, cost) <> Raise KeyError
  /\ forall st', relax v d st (u, cost) = Ret st' ->
       keys_known G st' /\ dist st' = dist st.
Proof.
  intros Hok (Hf & Hs & Hd & Hp) Hv Hedge. unfold relax.
  destruct (Dict.get (dist st) u).
  - destruct (flt _ _).
    + split; [discriminate | intros st' H; discriminate].
    + split; [discriminate|]. intros st' H. inversion H; subst.
      repeat split; auto.
  - destruct (match Dict.get (seen st) u with None => true | Some s => flt _ s end).
    + assert (forall paths',
                (forall ps', paths' = Some ps' ->
                   exists ps pv, paths st = Some ps
                                 /\ ps' = Dict.set ps u (pv ++ [u])) ->
                keys_known G
                  (mkState (dist st)
                           (Dict.set (seen st) u (fadd d (py_float cost)))
                           (heappush (fringe st)
                                     (fadd d (py_float cost), c st, u))
                           (S (c st)) paths')) as Hnew.
      { intros paths' Hpaths'. repeat split; cbn [dist seen fringe c paths].
        - intros d1 k1 x [Heq | Hin].
          + inversion Heq; subst. rewrite mem_set, Nat.eqb_refl.
            apply orb_true_r.
          + apply mem_set_mono. eapply Hf; eauto.
        - intros x. rewrite mem_set, orb_true_iff.
          intros [Hx | Hx]; [auto|]. apply Nat.eqb_eq in Hx. subst x.
          destruct (ok_edge_target G Hok _ _ _ Hedge) as (nb & Hnb).
          unfold Dict.mem. now rewrite Hnb.
        - intros x Hx. apply mem_set_mono. auto.
        - intros ps' Hps' x. destruct (Hpaths' _ Hps') as (ps & pv & Hps & ->).
          rewrite !mem_set. intros Hx. apply orb_true_iff in Hx.
          destruct Hx as [Hx | Hx]; [|now rewrite Hx, orb_true_r].
          rewrite (Hp ps Hps x Hx). reflexivity. }
      destruct (paths st) as [ps|] eqn:Eps; simpl.
      * unfold Dict.item.
        assert (Dict.mem ps v = true) as Hpv by (apply (Hp ps eq_refl); auto).
        unfold Dict.mem in Hpv. destruct (Dict.get ps v) as [pv|]; [|discriminate].
        simpl. split; [discriminate|]. intros st' H. inversion H; subst.
        split; [|reflexivity]. apply Hnew.
        intros ps' Hps'. inversion Hps'; subst. eauto.
      * split; [discriminate|]. intros st' H. inversion H; subst.
        split; [|reflexivity]. apply Hnew. intros ps' Hps'. discriminate.
    + split; [discriminate|]. intros st' H. inversion H; subst.
      repeat split; auto.
Qed.

Lemma for_each_relax_keys_known (G : Graph) (v : node) (d : pyfloat)
    (nbrs : Dict.t Q) (st : dijkstra_state) :
  graph_ok G = true ->
  keys_known G st ->
  Dict.mem (dist st) v = true ->
  (forall u w, In (u, w) nbrs -> edge_weight G v u = Some w) ->
  for_each (relax v d) nbrs st <> Raise KeyError
  /\ forall st', for_each (relax v d) nbrs st = Ret st' -> keys_known G st'.
Proof.
  intros Hok. revert st. induction nbrs as [|[u cost] nbrs IH];
    intros st Hkeys Hv Hall.
  - simpl. split; [discriminate|]. intros st' H. inversion H; subst. exact Hkeys.
  - change (for_each (relax v d) ((u, cost) :: nbrs) st)
      with (st1 <- relax v d st (u, cost) ;; for_each (relax v d) nbrs st1).
    destruct (relax_keys_known G v d st u cost Hok Hkeys Hv) as [Hno Hret].
    { apply Hall. now left. }
    destruct (relax v d st (u, cost)) as [st1| e |]; cbn [bind].
    + destruct (Hret st1 eq_refl) as [Hkeys1 Hd1].
      apply IH; auto.
      * now rewrite Hd1.
      * intros u' w' Hin. apply Hall. now right.
    + split; [congruence | discriminate].
    + split; discriminate.
Qed.

Lemma dijkstra_loop_no_KeyError (G : Graph) (target : node) (fuel : nat)
    (st : dijkstra_state) :
  graph_ok G = true ->
  keys_known G st ->
  dijkstra_loop fuel (_adj G) target st <> Raise KeyError.
Proof.
  intros Hok. revert st. induction fuel as [|fuel IH]; intros st Hkeys; simpl;
    [discriminate|].
  destruct (heappop (fringe st)) as [[[[d k] v] rest]|] eqn:Epop; [|discriminate].
  apply heappop_Some in Epop. destruct Epop as (Hin & _ & _).
  destruct Hkeys as (Hf & Hs & Hd & Hp).
  assert (forall d1 k1 x, In (d1, k1, x) rest -> Dict.mem (seen st) x = true)
    as Hf'.
  { intros d1 k1 x Hx. apply (Hf d1 k1 x). apply Hin. now right. }
  assert (Dict.mem (seen st) v = true) as Hv.
  { apply (Hf d k v). apply Hin. now left. }
  destruct (Dict.mem (dist st) v) eqn:Emem.
  - apply IH. repeat split; auto.
  - destruct (Nat.eqb v target); [discriminate|].
    pose proof (Hs v Hv) as Hadj. unfold Dict.mem in Hadj. unfold Dict.item.
    destruct (Dict.get (_adj G) v) as [nbrs|] eqn:Enb; [|discriminate].
    cbn [bind].
    set (st1 := mkState (Dict.set (dist st) v d) (seen st) rest (c st) (paths st)).
    destruct (for_each_relax_keys_known G v d nbrs st1 Hok) as [Hno Hret].
    + subst st1. repeat split; cbn [dist seen fringe c paths]; auto.
      intros x. rewrite mem_set, orb_true_iff.
      intros [Hx | Hx]; [auto|]. apply Nat.eqb_eq in Hx. now subst x.
    + subst st1. cbn [dist]. rewrite mem_set, Nat.eqb_refl. apply orb_true_r.
    + intros u w Hu. eapply ok_item_edge; eauto.
    + destruct (for_each (relax v d) nbrs st1) as [st'| e |]; cbn [bind].
      * apply IH. now apply Hret.
      * congruence.
      * discriminate.
Qed.

Lemma dijkstra_multisource_no_KeyError (G : Graph) (source target : node)
    (paths0 : option (Dict.t (list node))) :
  graph_ok G = true ->
  has_node G source = true ->
  (forall ps, paths0 = Some ps -> ps = [(source, [source])]) ->
  _dijkstra_multisource G source paths0 target <> Raise KeyError.
Proof.
  intros Hok Hs Hps. apply dijkstra_loop_no_KeyError; auto.
  repeat split; cbn [dist seen fringe c paths].
  - intros d k v [Heq | []]. inversion Heq; subst.
    unfold Dict.mem. simpl. now rewrite Nat.eqb_refl.
  - intros v Hv. unfold Dict.mem in Hv. simpl in Hv.
    destruct (Nat.eqb_spec source v) as [E | _]; [subst v | discriminate].
    apply (ok_has_node G Hok) in Hs. destruct Hs as (nb & Hnb).
    unfold Dict.mem. now rewrite Hnb.
  - intros v Hv. discriminate.
  - intros ps Hps' v Hv. rewrite (Hps ps Hps').
    unfold Dict.mem in *. simpl in *.
    destruct (Nat.eqb source v); [reflexivity | discriminate].
Qed.

Lemma route_entry_no_KeyError (G : Graph) (source target : node) :
  graph_ok G = true ->
  has_node G source = true ->
  route_entry G source target <> Raise KeyError.
Proof.
  intros Hok Hs. unfold route_entry, dijkstra_path, dijkstra_path_length.
  rewrite Hs. cbn [negb].
  pose proof (dijkstra_multisource_no_KeyError G source target None Hok Hs)
    as Hlen.
  pose proof (dijkstra_multisource_no_KeyError G source target
                (Some [(source, [source])]) Hok Hs) as Hpath.
  assert (forall st : dijkstra_state,
            (d <- match Dict.get (dist st) target with
                  | Some d => Ret d
                  | None => Raise NetworkXNoPath
                  end ;; Ret d) <> Raise KeyError) as Hd.
  { intros st. destruct (Dict.get (dist st) target); discriminate. }
  destruct (Nat.eqb target source).
  - cbn [bind]. destruct (Nat.eqb source target); cbn [bind]; [discriminate|].
    destruct (_dijkstra_multisource G source None target) as [st| e |];
      cbn [bind].
    + destruct (Dict.get (dist st) target); discriminate.
    + destruct e; try discriminate. exfalso. apply Hlen; auto. discriminate.
    + discriminate.
  - destruct (_dijkstra_multisource G source (Some [(source, [source])]) target)
      as [st| e |]; cbn [bind].
    + destruct (match Dict.get (dist st) target, paths st with
                | Some _, Some ps =>
                    match Dict.get ps target with
                    | Some p => Ret p
                    | None => Raise NetworkXNoPath
                    end
                | _, _ => Raise NetworkXNoPath
                end) as [p| e |] eqn:Epath; cbn [bind].
      * destruct (Nat.eqb source target); cbn [bind]; [discriminate|].
        destruct (_dijkstra_multisource G source None target) as [st'| e |];
          cbn [bind].
        -- destruct (Dict.get (dist st') target); discriminate.
        -- destruct e; try discriminate. exfalso. apply Hlen; auto. discriminate.
        -- discriminate.
      * destruct e; try discriminate. exfalso.
        destruct (Dict.get (dist st) target); [|discriminate].
        destruct (paths st) as [ps|]; [|discriminate].
        destruct (Dict.get ps target); discriminate.
      * discriminate.
    + destruct e; try discriminate. exfalso. apply Hpath; auto.
      intros ps H. now inversion H.
    + discriminate.
Qed.

Lemma table_no_KeyError (G : Graph) (target : node) (l : list node)
    (acc : Dict.t RouteResult) :
  graph_ok G = true ->
  (forall n, In n l -> has_node G n = true) ->
  for_each (table_step G target) l acc <> Raise KeyError.
Proof.
  intros Hok. revert acc. induction l as [|x l IH]; intros acc Hl;
    [discriminate|].
  change (for_each (table_step G target) (x :: l) acc)
    with (acc' <- table_step G target acc x ;;
          for_each (table_step G target) l acc').
  assert (forall n, In n l -> has_node G n = true) as Hl'.
  { intros n Hn. apply Hl. now right. }
  assert (table_step G target acc x <> Raise KeyError) as Hstep.
  { unfold table_step. destruct (Nat.eqb x target); [discriminate|].
    pose proof (route_entry_no_KeyError G x target Hok (Hl x (or_introl eq_refl))).
    destruct (route_entry G x target) as [r| e |]; cbn [bind];
      [discriminate | congruence | discriminate]. }
  destruct (table_step G target acc x) as [acc'| e |]; cbn [bind].
  - now apply IH.
  - congruence.
  - discriminate.
Qed.

(** [compute_shortest_paths] catches [NetworkXNoPath] and looks up its
    sources in the graph itself.  On any graph the call ends, and neither
    [NetworkXNoPath] nor [NodeNotFound] escapes; on a graph built by the
    graph API no [KeyError] escapes either; and [ValueError] does escape
    when a weight is negative, as on the triangle 0-1-2 with weights 1, 3
    and -5 and target 3. *)
Theorem compute_shortest_paths_failure_modes :
  (forall G target,
      compute_shortest_paths G target <> OutOfFuel
      /\ compute_shortest_paths G target <> Raise NetworkXNoPath
      /\ compute_shortest_paths G target <> Raise NodeNotFound)
  /\ (forall G target,
        graph_ok G = true ->
        compute_shortest_paths G target <> Raise KeyError)
  /\ (graph_ok negative_triangle = true
      /\ compute_shortest_paths negative_triangle 3%nat = Raise ValueError).
Proof.
  split; [|split].
  - intros G target.
    destruct (table_outcome G target (nodes G) [])
      as [(tab & H) | [H | H]];
      [intros n Hn; now apply ok_has_node_In | ..];
      unfold compute_shortest_paths; rewrite H; repeat split; discriminate.
  - intros G target Hok. apply table_no_KeyError; auto.
    intros n Hn. now apply ok_has_node_In.
  - split; vm_compute; reflexivity.
Qed.

(** ** The entries of the table *)




(** ** Returned routes visit no node twice *)

Lemma positive_nonneg (G : Graph) :
  positive_weights G = true -> nonneg_weights G = true.
Proof.
  unfold positive_weights, nonneg_weights. rewrite !forallb_forall.
  intros H [u nb] Hin. specialize (H _ Hin). simpl in *.
  rewrite forallb_forall in *. intros [v w] Hvw. specialize (H _ Hvw).
  simpl in *. apply Qltb_true in H. apply Qle_bool_iff. lra.
Qed.

Lemma route_nodes_in_graph (G : Graph) (a t : node) (p : list node) (w : Q) :
  graph_ok G = true ->
  route G a t p w -> has_node G a = true ->
  forall x, In x p -> In x (nodes G).
Proof.
  intros Hok Hr. induction Hr as [a | a b t p w r Hedge Hr IH]; intros Ha x Hx.
  - destruct Hx as [<- | []]. now apply ok_has_node_In.
  - destruct Hx as [<- | Hx]; [now apply ok_has_node_In|].
    apply IH; auto. apply (ok_has_node G Hok).
    eapply ok_edge_target; eauto.
Qed.

Lemma NoDup_snoc (l : list node) (x : node) :
  NoDup l -> ~ In x l -> NoDup (l ++ [x]).
Proof.
  intros Hnd Hx. apply NoDup_rev in Hnd. rewrite <- (rev_involutive (l ++ [x])).
  apply NoDup_rev. rewrite rev_app_distr. simpl. constructor; auto.
  now rewrite <- in_rev.
Qed.

(** [paths[u] = paths[v] + [u]] is executed for a final [v] and a [u] that
    is not final, so the new path repeats no node. *)
Lemma relax_simple (v : node) (d : pyfloat) (st st' : dijkstra_state)
    (ue : node * Q) :
  paths_simple st ->
  Dict.mem (dist st) v = true ->
  relax v d st ue = Ret st' ->
  paths_simple st' /\ dist st' = dist st.
Proof.
  intros Hsimple Hv. destruct ue as [u cost]. unfold relax.
  destruct (Dict.get (dist st) u) as [du|] eqn:Eu.
  - destruct (flt _ _); [discriminate|]. intros H; inversion H; subst. auto.
  - destruct (match Dict.get (seen st) u with
              | None => true
              | Some s => flt _ s
              end).
    + destruct (paths st) as [ps|] eqn:Eps; simpl.
      * unfold Dict.item.
        destruct (Dict.get ps v) as [pv|] eqn:Epv; simpl; [|discriminate].
        intros H; inversion H; subst st'. clear H. split; [|reflexivity].
        intros ps' Hps' u' p Hget. cbn [paths dist] in *.
        inversion Hps'; subst ps'. clear Hps'.
        destruct (Nat.eq_dec u u') as [<- | Hne].
        -- rewrite DictFacts.get_set_same in Hget. inversion Hget; subst p.
           destruct (Hsimple ps Eps v pv Epv) as (Hnd & p0 & -> & Hfinal).
           assert (forall x, In x (p0 ++ [v]) -> Dict.mem (dist st) x = true)
             as Hall.
           { intros x Hx. apply in_app_or in Hx.
             destruct Hx as [Hx | [<- | []]]; auto. }
           split.
           ++ apply NoDup_snoc; auto. intros Hin. apply Hall in Hin.
              apply DictFacts.mem_false in Eu. congruence.
           ++ exists (p0 ++ [v]). auto.
        -- rewrite DictFacts.get_set_other in Hget by auto.
           apply (Hsimple ps Eps u' p Hget).
      * intros H; inversion H; subst st'. split; [|reflexivity].
        intros ps' Hps'. discriminate.
    + intros H; inversion H; subst. auto.
Qed.

Lemma for_each_relax_simple (v : node) (d : pyfloat) (nbrs : Dict.t Q)
    (st st' : dijkstra_state) :
  paths_simple st ->
  Dict.mem (dist st) v = true ->
  for_each (relax v d) nbrs st = Ret st' ->
  paths_simple st'.
Proof.
  revert st. induction nbrs as [|ue nbrs IH]; simpl; intros st Hsimple Hv H.
  - inversion H; subst. exact Hsimple.
  - destruct (relax v d st ue) as [st1| |] eqn:E; simpl in H; try discriminate.
    destruct (relax_simple _ _ _ _ _ Hsimple Hv E) as [Hsimple1 Hdist].
    apply (IH st1); auto. now rewrite Hdist.
Qed.

Lemma dijkstra_loop_simple (G_succ : Dict.t (Dict.t Q)) (target : node)
    (fuel : nat) (st st' : dijkstra_state) :
  paths_simple st ->
  dijkstra_loop fuel G_succ target st = Ret st' ->
  paths_simple st'.
Proof.
  revert st. induction fuel as [|fuel IH]; intros st Hsimple; simpl;
    [discriminate|].
  destruct (heappop (fringe st)) as [[[[d k] v] rest]|].
  - destruct (Dict.mem (dist st) v) eqn:Ev.
    + apply IH. exact Hsimple.
    + assert (paths_simple (mkState (Dict.set (dist st) v d) (seen st) rest
                                    (c st) (paths st))) as Hsimple1.
      { intros ps Hps u p Hget. cbn [paths dist] in *.
        destruct (Hsimple ps Hps u p Hget) as (Hnd & p0 & Hp & Hfinal).
        split; auto. exists p0. split; auto.
        intros x Hx. rewrite mem_set, (Hfinal x Hx). reflexivity. }
      destruct (Nat.eqb v target).
      * intros H. inversion H; subst. exact Hsimple1.
      * destruct (Dict.item G_succ v) as [nbrs| |]; simpl; try discriminate.
        destruct (for_each (relax v d) nbrs _) as [st1| |] eqn:E; simpl;
          try discriminate.
        apply IH. eapply for_each_relax_simple; eauto.
        cbn [dist]. rewrite mem_set, Nat.eqb_refl. apply orb_true_r.
  - intros H. inversion H; subst. exact Hsimple.
Qed.

(** The node list that [nx.dijkstra_path] returns visits no node twice,
    whatever the weights are. *)
Lemma dijkstra_path_simple (G : Graph) (source target : node) (p : list node) :
  dijkstra_path G source target = Ret p -> NoDup p.
Proof.
  unfold dijkstra_path. destruct (has_node G source); simpl; [|discriminate].
  destruct (Nat.eqb target source).
  - intros H. inversion H. repeat constructor. simpl. tauto.
  - destruct (_dijkstra_multisource G source (Some [(source, [source])]) target)
      as [st| |] eqn:Hrun; simpl; try discriminate.
    assert (paths_simple st) as Hsimple.
    { unfold _dijkstra_multisource in Hrun.
      eapply dijkstra_loop_simple; [|exact Hrun].
      intros ps Hps u q Hget. cbn [paths dist] in *.
      inversion Hps; subst ps. simpl in Hget.
      destruct (Nat.eqb_spec source u) as [<- | _]; [|discriminate].
      inversion Hget; subst q. split.
      - repeat constructor. simpl. tauto.
      - exists []. split; [reflexivity|]. intros x []. }
    destruct (Dict.get (dist st) target); [|discriminate].
    destruct (paths st) as [ps|] eqn:Eps; [|discriminate].
    destruct (Dict.get ps target) as [q|] eqn:Eq; [|discriminate].
    intros H. inversion H; subst q.
    apply (Hsimple ps Eps target p Eq).
Qed.

(** The path of an entry is what [nx.dijkstra_path] returned. *)
Lemma route_entry_path (G : Graph) (source target : node) (r : RouteResult)
    (p : list node) :
  route_entry G source target = Ret r -> path r = Some p ->
  dijkstra_path G source target = Ret p.
Proof.
  unfold route_entry.
  destruct (dijkstra_path G source target) as [q|e|]; simpl.
  - destruct (dijkstra_path_length G source target) as [d|e|]; simpl.
    + intros H Hp. inversion H; subst r. simpl in Hp. congruence.
    + destruct e; intros H Hp; inversion H; subst r; discriminate.
    + discriminate.
  - destruct e; intros H Hp; inversion H; subst r; discriminate.
  - discriminate.
Qed.

(** With strictly positive weights every returned path is a simple path:
    no node occurs twice, so it has at most as many nodes as the graph. *)
Theorem returned_paths_are_simple (G : Graph) (target : node) :
  graph_ok G = true ->
  positive_weights G = true ->
  exists tab,
    compute_shortest_paths G target = Ret tab
    /\ forall n r p, Dict.get tab n = Some r -> path r = Some p ->
         NoDup p /\ (length p <= length (nodes G))%nat.
Proof.
  intros Hok Hpos. pose proof (positive_nonneg G Hpos) as Hnn.
  destruct (compute_shortest_paths_spec G target Hok Hnn)
    as (tab & Hrun & _ & Hentries).
  exists tab. split; [exact Hrun|].
  intros n r p Hget Hpath.
  destruct (table_entry_cases G target tab Hok Hnn Hrun n r Hget)
    as (Hn & Hne & [(p' & d & Hr & Hwalk & _) | (-> & _)]);
    [|discriminate].
  destruct (Hentries n Hn Hne) as (r' & Hentry & Hget').
  assert (r' = r) by congruence. subst r'.
  assert (NoDup p) as Hnd.
  { eapply dijkstra_path_simple, route_entry_path; eauto. }
  split; [exact Hnd|].
  rewrite Hr in Hpath. cbn [path path_result] in Hpath.
  inversion Hpath; subst p'.
  destruct (walk_route _ _ _ _ _ Hwalk) as (w & Hroute).
  apply NoDup_incl_length; auto.
  intros x Hx. eapply route_nodes_in_graph; eauto.
  now apply ok_has_node_In.
Qed.

(** ** The distances along a returned path and across an edge *)





(** ** The distances depend on the weights only *)

Lemma weights_within_edge (G1 G2 : Graph) (u v : node) (w : Q) :
  weights_within G1 G2 = true ->
  edge_weight G1 u v = Some w ->
  exists w', edge_weight G2 u v = Some w' /\ w == w'.
Proof.
  intros Hin. unfold edge_weight at 1.
  destruct (Dict.get (_adj G1) u) as [nb|] eqn:E; [|discriminate].
  intros Hget. apply DictFacts.get_In in Hget. apply DictFacts.get_In in E.
  unfold weights_within in Hin. rewrite forallb_forall in Hin.
  specialize (Hin _ E). simpl in Hin. rewrite forallb_forall in Hin.
  specialize (Hin _ Hget). simpl in Hin.
  destruct (edge_weight G2 u v) as [w'|]; [|discriminate].
  exists w'. split; auto. now apply Qeq_bool_eq.
Qed.

Lemma weights_within_walk (G1 G2 : Graph) (a b : node) (p : list node)
    (d : pyfloat) :
  nonneg_weights G1 = true ->
  weights_within G1 G2 = true ->
  walk G1 a b p d -> walk G2 a b p d.
Proof.
  intros Hnn Hin. induction 1 as [|v u p d w Hw IH Hedge]; [constructor|].
  destruct (weights_within_edge _ _ _ _ _ Hin Hedge) as (w' & Hedge' & Hww).
  rewrite (py_float_Qeq w w'); auto.
  - eapply walk_snoc; eauto.
  - eapply nonneg_edge; eauto.
Qed.

Lemma weights_within_nonneg (G1 G2 : Graph) :
  weights_within G2 G1 = true ->
  nonneg_weights G1 = true -> nonneg_weights G2 = true.
Proof.
  intros Hin Hnn. unfold nonneg_weights. apply forallb_forall.
  intros [u nb] Hu. apply forallb_forall. intros [v w] Hv.
  unfold weights_within in Hin. rewrite forallb_forall in Hin.
  specialize (Hin _ Hu). simpl in Hin. rewrite forallb_forall in Hin.
  specialize (Hin _ Hv). simpl in Hin.
  destruct (edge_weight G1 u v) as [w'|] eqn:E; [|discriminate].
  apply Qeq_bool_eq in Hin. apply nonneg_edge in E; auto.
  apply Qle_bool_iff. lra.
Qed.

(** Two graphs with the same edges and weights give every source the same
    distance, whatever the order in which their nodes and edges were added;
    only the choice among routes of equal length can differ. *)
Theorem distance_ignores_insertion_order (G1 G2 : Graph) (target n : node) :
  graph_ok G1 = true ->
  graph_ok G2 = true ->
  nonneg_weights G1 = true ->
  same_weights G1 G2 = true ->
  In n (nodes G1) ->
  In n (nodes G2) ->
  n <> target ->
  exists tab1 tab2 r1 r2,
    compute_shortest_paths G1 target = Ret tab1
    /\ Dict.get tab1 n = Some r1
    /\ compute_shortest_paths G2 target = Ret tab2
    /\ Dict.get tab2 n = Some r2
    /\ total_weight r1 = total_weight r2.
Proof.
  intros Hok1 Hok2 Hnn1 Hsame Hn1 Hn2 Hne.
  apply andb_prop in Hsame. destruct Hsame as [H12 H21].
  pose proof (weights_within_nonneg G1 G2 H21 Hnn1) as Hnn2.
  destruct (compute_shortest_paths_spec G1 target Hok1 Hnn1) as (tab1 & Hrun1 & _).
  destruct (compute_shortest_paths_spec G2 target Hok2 Hnn2) as (tab2 & Hrun2 & _).
  destruct (table_entry_exists G1 target tab1 Hok1 Hnn1 Hrun1 n Hn1 Hne)
    as (r1 & Hget1).
  destruct (table_entry_exists G2 target tab2 Hok2 Hnn2 Hrun2 n Hn2 Hne)
    as (r2 & Hget2).
  exists tab1, tab2, r1, r2. repeat split; auto.
  destruct (table_entry_cases G1 target tab1 Hok1 Hnn1 Hrun1 n r1 Hget1)
    as (_ & _ & [(p1 & d1 & -> & Hwalk1 & Hopt1) | (-> & Hno1)]);
  destruct (table_entry_cases G2 target tab2 Hok2 Hnn2 Hrun2 n r2 Hget2)
    as (_ & _ & [(p2 & d2 & -> & Hwalk2 & Hopt2) | (-> & Hno2)]).
  - cbn [total_weight path_result]. unfold float.
    pose proof (weights_within_walk _ _ _ _ _ _ Hnn1 H12 Hwalk1) as Hw12.
    pose proof (weights_within_walk _ _ _ _ _ _ Hnn2 H21 Hwalk2) as Hw21.
    apply fle_antisym; eauto using walk_dval.
  - exfalso.
    apply (Hno2 _ _ (weights_within_walk _ _ _ _ _ _ Hnn1 H12 Hwalk1)).
  - exfalso.
    apply (Hno1 _ _ (weights_within_walk _ _ _ _ _ _ Hnn2 H21 Hwalk2)).
  - reflexivity.
Qed.

(** ** Path descriptions *)

Lemma string_of_uint_no_blank (d : Decimal.uint) :
  no_blank (NilEmpty.string_of_uint d) = true.
Proof. induction d; simpl; auto. Qed.

Lemma join_cons (sep x : string) (xs : list string) :
  join sep (x :: xs) = String.append x (join_rest sep xs).
Proof.
  destruct xs as [|y xs]; simpl.
  - clear. induction x as [|ch x IH]; simpl; [reflexivity | now rewrite <- IH].
  - reflexivity.
Qed.

(** An item without blanks is cut off from what follows it in one way. *)
Lemma append_cut (s1 s2 t1 t2 : string) :
  no_blank s1 = true -> no_blank s2 = true ->
  blank_or_end t1 = true -> blank_or_end t2 = true ->
  String.append s1 t1 = String.append s2 t2 ->
  s1 = s2 /\ t1 = t2.
Proof.
  revert s2. induction s1 as [|c1 s1 IH]; intros s2 H1 H2 Ht1 Ht2 Heq.
  - destruct s2 as [|c2 s2]; [auto|]. exfalso. simpl in *.
    subst t1. simpl in Ht1. apply andb_prop in H2. destruct H2 as [H2 _].
    rewrite Ht1 in H2. discriminate.
  - destruct s2 as [|c2 s2].
    + exfalso. simpl in *. subst t2. simpl in Ht2.
      apply andb_prop in H1. destruct H1 as [H1 _].
      rewrite Ht2 in H1. discriminate.
    + simpl in *. inversion Heq; subst c2.
      apply andb_prop in H1. destruct H1 as [_ H1].
      apply andb_prop in H2. destruct H2 as [_ H2].
      destruct (IH s2 H1 H2 Ht1 Ht2) as [-> ->]; auto.
Qed.

Lemma join_rest_blank (xs : list string) : blank_or_end (join_rest " -> " xs) = true.
Proof. destruct xs; reflexivity. Qed.

Lemma path_description_inj (p q : list node) :
  p <> [] -> q <> [] ->
  join " -> " (map str p) = join " -> " (map str q) -> p = q.
Proof.
  revert q. induction p as [|a p IH]; intros q Hp Hq Heq; [congruence|].
  destruct q as [|b q]; [congruence|].
  cbn [map] in Heq. rewrite !join_cons in Heq.
  apply append_cut in Heq;
    try apply string_of_uint_no_blank; try apply join_rest_blank.
  destruct Heq as [Hab Hrest]. apply str_inj in Hab. subst b. f_equal.
  destruct p as [|a' p], q as [|b' q]; auto; try discriminate.
  apply IH; try discriminate.
  cbn [map join_rest] in Hrest. simpl in Hrest.
  repeat (injection Hrest as Hrest). exact Hrest.
Qed.

Lemma path_description_not_no_path (p : list node) :
  join " -> " (map str p) <> "No path found"%string.
Proof.
  destruct p as [|a p]; [discriminate|].
  cbn [map]. rewrite join_cons. unfold str.
  destruct (Nat.to_uint a); simpl; try discriminate.
  destruct p; simpl; discriminate.
Qed.

(** The description determines the path: two different non-empty paths are
    never written as the same text, and the text of a path is never the
    marker "No path found". *)
Theorem path_description_is_unambiguous (p q : list node) :
  p <> [] ->
  q <> [] ->
  join " -> " (map str p) = join " -> " (map str q) ->
  p = q /\ join " -> " (map str p) <> "No path found"%string.
Proof.
  intros Hp Hq Heq. split.
  - now apply path_description_inj.
  - apply path_description_not_no_path.
Qed.

(** ** The document of a computed table *)

Lemma yaml_data_shortest_paths (paths_info : Dict.t RouteResult) :
  NoDup (Dict.keys paths_info) ->
  shortest_paths (yaml_data paths_info)
  = map (fun kv => (from_node (fst kv), yaml_entry (snd kv)))
        (sorted_items paths_info).
Proof.
  intros Hnd. unfold yaml_data. cbn [shortest_paths].
  rewrite yaml_fold; auto.
  eapply Permutation_NoDup; [|exact Hnd].
  apply Permutation_map, Permutation_sym, sorted_items_perm.
Qed.

(** Computing the table and building the document from it: the document
    lists exactly the nodes of the graph other than the target, by
    ascending node id, each under the key made from its own [start_node]
    and with the target as [goal_node]. *)
Theorem document_of_computed_table (G : Graph) (target : node) :
  graph_ok G = true ->
  nonneg_weights G = true ->
  exists tab,
    compute_shortest_paths G target = Ret tab
    /\ StronglySorted lt
         (map (fun e => start_node (snd e)) (shortest_paths (yaml_data tab)))
    /\ (forall n,
          In n (map (fun e => start_node (snd e)) (shortest_paths (yaml_data tab)))
          <-> In n (nodes G) /\ n <> target)
    /\ Forall (fun e => fst e = from_node (start_node (snd e))
                        /\ goal_node (snd e) = target)
              (shortest_paths (yaml_data tab)).
Proof.
  intros Hok Hnn.
  destruct (compute_shortest_paths_spec G target Hok Hnn)
    as (tab & Hrun & Hkeys & _).
  exists tab. split; [exact Hrun|].
  assert (NoDup (Dict.keys tab)) as Hnd.
  { rewrite Hkeys. apply NoDup_filter. now apply ok_nodes_nodup. }
  pose proof (sorted_items_perm tab) as Hperm.
  assert (forall kv, In kv (sorted_items tab) ->
            start (snd kv) = fst kv /\ goal (snd kv) = target) as Hfields.
  { intros [n r] Hin. cbn [fst snd].
    assert (Dict.get tab n = Some r) as Hget.
    { apply DictFacts.In_get; auto.
      eapply Permutation_in; [exact Hperm | exact Hin]. }
    destruct (table_entry_cases G target tab Hok Hnn Hrun n r Hget)
      as (_ & _ & [(p & w & -> & _) | (-> & _)]); split; reflexivity. }
  assert (map (fun e => start_node (snd e)) (shortest_paths (yaml_data tab))
          = map fst (sorted_items tab)) as Hstarts.
  { rewrite yaml_data_shortest_paths by auto. rewrite map_map.
    apply map_ext_in. intros kv Hin. cbn [snd yaml_entry start_node].
    now apply Hfields. }
  split; [|split].
  - rewrite Hstarts. apply sorted_nodup_strict; [apply sorted_items_sorted|].
    eapply Permutation_NoDup; [|exact Hnd].
    apply Permutation_map, Permutation_sym, Hperm.
  - intros n. rewrite Hstarts.
    assert (In n (map fst (sorted_items tab)) <-> In n (Dict.keys tab)) as ->.
    { split; apply Permutation_in; apply Permutation_map; auto.
      now apply Permutation_sym. }
    rewrite Hkeys, filter_In. unfold not_target.
    rewrite negb_true_iff, Nat.eqb_neq. tauto.
  - rewrite yaml_data_shortest_paths by auto.
    apply Forall_forall. intros e He. apply in_map_iff in He.
    destruct He as (kv & <- & Hin). cbn [fst snd yaml_entry start_node goal_node].
    destruct (Hfields kv Hin) as [-> ->]. auto.
Qed.

(** ** More edges never lengthen a route *)

(** If every edge of [G1] is an edge of [G2] with the same weight, a source
    that reaches the target in [G1] reaches it in [G2], at a distance that
    is not larger. *)
Theorem distance_shrinks_with_more_edges (G1 G2 : Graph) (target n : node)
    (tab1 : Dict.t RouteResult) (r1 : RouteResult) (d1 : Q) :
  graph_ok G1 = true ->
  graph_ok G2 = true ->
  nonneg_weights G1 = true ->
  nonneg_weights G2 = true ->
  weights_within G1 G2 = true ->
  compute_shortest_paths G1 target = Ret tab1 ->
  Dict.get tab1 n = Some r1 ->
  total_weight r1 = Finite d1 ->
  exists tab2 r2 d2,
    compute_shortest_paths G2 target = Ret tab2
    /\ Dict.get tab2 n = Some r2
    /\ total_weight r2 = Finite d2
    /\ d2 <= d1.
Proof.
  intros Hok1 Hok2 Hnn1 Hnn2 H12 Hrun1 Hget1 Hd1.
  destruct (table_entry_cases G1 target tab1 Hok1 Hnn1 Hrun1 n r1 Hget1)
    as (_ & Hne & [(p1 & x1 & -> & Hwalk1 & _) | (-> & _)]); [|discriminate].
  cbn [total_weight path_result] in Hd1. unfold float in Hd1. subst x1.
  pose proof (weights_within_walk _ _ _ _ _ _ Hnn1 H12 Hwalk1) as Hwalk2.
  assert (In n (nodes G2)) as Hn2.
  { apply ok_has_node_In; auto. apply (ok_has_node G2 Hok2).
    destruct (walk_route _ _ _ _ _ Hwalk2) as (w & Hr).
    destruct Hr as [a | a b t p w r Hedge Hr]; [congruence|].
    unfold edge_weight in Hedge.
    destruct (Dict.get (_adj G2) a) as [nb|]; [eauto | discriminate]. }
  destruct (compute_shortest_paths_spec G2 target Hok2 Hnn2) as (tab2 & Hrun2 & _).
  destruct (table_entry_exists G2 target tab2 Hok2 Hnn2 Hrun2 n Hn2 Hne)
    as (r2 & Hget2).
  destruct (table_entry_cases G2 target tab2 Hok2 Hnn2 Hrun2 n r2 Hget2)
    as (_ & _ & [(p2 & x2 & -> & Hwalk & Hopt2) | (-> & Hno2)]).
  - specialize (Hopt2 _ _ Hwalk2).
    pose proof (walk_dval G2 n Hnn2 _ _ _ Hwalk) as Hx2.
    destruct x2 as [d2| | |]; simpl in Hopt2, Hx2; try tauto.
    exists tab2, (path_result n target p2 (Finite d2)), d2.
    repeat split; auto.
  - exfalso. eapply Hno2; eauto.
Qed.

(** ** G.edges() *)

Lemma edges_from_In (adj : Dict.t (Dict.t Q)) (done : list node)
    (u v : node) (w : Q) :
  In (u, v, w) (edges_from adj done)
  <-> exists pre nb post,
        adj = pre ++ (u, nb) :: post
        /\ In (v, w) nb /\ ~ In v done /\ ~ In v (Dict.keys pre).
Proof.
  revert done. induction adj as [|[u0 nb0] adj IH]; intros done; simpl.
  - split; [tauto|]. intros (pre & nb & post & H & _). destruct pre; discriminate.
  - rewrite in_app_iff, in_map_iff. split.
    + intros [((v0 & w0) & Heq & Hin) | Hin].
      * inversion Heq; subst. apply filter_In in Hin. destruct Hin as [Hin Hf].
        exists [], nb0, adj. repeat split; auto.
        intros Hd. apply negb_true_iff in Hf.
        assert (existsb (Nat.eqb v) done = true) as E.
        { apply existsb_exists. exists v. split; auto. apply Nat.eqb_refl. }
        congruence.
      * apply IH in Hin. destruct Hin as (pre & nb & post & -> & Hv & Hd & Hp).
        exists ((u0, nb0) :: pre), nb, post. repeat split; auto.
        -- intros H. apply Hd. now right.
        -- simpl. intros [-> | H]; [apply Hd; now left | contradiction].
    + intros (pre & nb & post & Heq & Hv & Hd & Hp).
      destruct pre as [|[u1 nb1] pre]; simpl in Heq; inversion Heq; subst.
      * left. exists (v, w). split; auto. apply filter_In. split; auto.
        apply negb_true_iff. destruct (existsb (Nat.eqb v) done) eqn:E; auto.
        apply existsb_exists in E. destruct E as (y & Hy & Hvy).
        apply Nat.eqb_eq in Hvy. subst y. contradiction.
      * right. apply IH. exists pre, nb, post. repeat split; auto.
        -- intros [-> | H]; [apply Hp; now left | contradiction].
        -- intros H. apply Hp. now right.
Qed.

Lemma edges_from_NoDup (adj : Dict.t (Dict.t Q)) (done : list node) :
  NoDup (Dict.keys adj) ->
  (forall u nb, In (u, nb) adj -> NoDup (Dict.keys nb)) ->
  NoDup (map unordered (edges_from adj done)).
Proof.
  revert done. induction adj as [|[u0 nb0] adj IH]; intros done Hnd Hinner;
    simpl; [constructor|].
  inversion Hnd as [|? ? Hu0 Hnd']; subst.
  rewrite map_app. apply NoDup_app.
  - assert (NoDup (Dict.keys nb0)) as Hnb by (apply (Hinner u0); now left).
    clear - Hnb. induction nb0 as [|[v w] nb IHnb]; simpl; [constructor|].
    inversion Hnb as [|? ? Hv Hnb']; subst.
    destruct (negb (existsb (Nat.eqb v) done)); simpl; [|now apply IHnb].
    constructor; [|now apply IHnb].
    intros Hin. apply in_map_iff in Hin. destruct Hin as ([[u' v'] w'] & Heq & Hin).
    apply in_map_iff in Hin. destruct Hin as ((v1 & w1) & Heq1 & Hin).
    inversion Heq1; subst. unfold unordered in Heq. injection Heq as E1 E2.
    assert (v' = v) by lia. subst v'.
    apply filter_In in Hin. destruct Hin as [Hin _].
    apply Hv. apply (in_map fst) in Hin. exact Hin.
  - apply IH; auto. intros u nb Hin. apply (Hinner u). now right.
  - intros pr H1 H2.
    apply in_map_iff in H1. destruct H1 as ([[a b] w1] & Hpr1 & H1).
    apply in_map_iff in H1. destruct H1 as ((v1 & w1') & Heq1 & H1).
    inversion Heq1; subst a b w1'. clear Heq1.
    apply in_map_iff in H2. destruct H2 as ([[u' v'] w2] & Hpr2 & H2).
    apply edges_from_In in H2.
    destruct H2 as (pre & nb & post & Hadj & _ & Hd & _).
    assert (u' <> u0) as Hne.
    { intros ->. apply Hu0. rewrite Hadj. unfold Dict.keys.
      rewrite map_app, in_app_iff. right. now left. }
    assert (v' <> u0) as Hne' by (intros ->; apply Hd; now left).
    subst pr. unfold unordered in Hpr2. inversion Hpr2. lia.
Qed.

(** On a graph built by the graph API, [G.edges()] lists every edge of the
    graph once: each listed triple is an edge with its weight, each edge is
    listed in one of its two directions, and no unordered pair occurs
    twice.  In particular no two listed triples start with the same pair of
    nodes, so sorting the triples, as [main] does, is decided by the node
    ids and never has to compare the data of two edges. *)
Theorem edges_lists_each_edge_once (G : Graph) :
  graph_ok G = true ->
  (forall u v w, In (u, v, w) (edges G) -> edge_weight G u v = Some w)
  /\ (forall u v w, edge_weight G u v = Some w ->
        In (u, v, w) (edges G)
        \/ exists w', In (v, u, w') (edges G) /\ w' == w)
  /\ NoDup (map unordered (edges G))
  /\ NoDup (map fst (edges G)).
Proof.
  intros Hok.
  assert (NoDup (Dict.keys (_adj G))) as Hnd.
  { rewrite <- ok_same_keys by auto. now apply ok_nodes_nodup. }
  assert (forall u nb, In (u, nb) (_adj G) -> Dict.get (_adj G) u = Some nb)
    as Hget by (intros u nb; now apply DictFacts.In_get).
  split; [|split].
  - intros u v w Hin. apply edges_from_In in Hin.
    destruct Hin as (pre & nb & post & Hadj & Hv & _).
    apply (ok_item_edge G Hok u v nb w); auto.
    apply Hget. rewrite Hadj. apply in_elt.
  - intros u v w Hedge.
    destruct (ok_symmetric G Hok _ _ _ Hedge) as (w' & Hedge' & Hww).
    unfold edge_weight in Hedge, Hedge'.
    destruct (Dict.get (_adj G) u) as [nb|] eqn:Eu; [|discriminate].
    destruct (Dict.get (_adj G) v) as [nbv|] eqn:Ev; [|discriminate].
    apply DictFacts.get_In in Hedge, Hedge'.
    pose proof (DictFacts.get_In _ _ _ Eu) as Hu.
    apply in_split in Hu. destruct Hu as (pre & post & Hadj).
    destruct (in_dec Nat.eq_dec v (Dict.keys pre)) as [Hvpre | Hvpre].
    + right. exists w'. split; [|lra].
      apply in_map_iff in Hvpre. destruct Hvpre as ([v0 nb0] & Hv0 & Hin0).
      simpl in Hv0. subst v0.
      apply in_split in Hin0. destruct Hin0 as (pre1 & pre2 & Hpre).
      assert (nb0 = nbv) as ->.
      { assert (Dict.get (_adj G) v = Some nb0) as H.
        { apply Hget. rewrite Hadj, Hpre. rewrite in_app_iff. left. apply in_elt. }
        congruence. }
      apply edges_from_In. exists pre1, nbv, (pre2 ++ (u, nb) :: post).
      split; [|split; [|split]]; auto.
      * rewrite Hadj, Hpre. now rewrite <- app_assoc.
      * intros Hu1. pose proof Hnd as Hnd2. rewrite Hadj in Hnd2.
        unfold Dict.keys in Hnd2, Hu1. rewrite map_app in Hnd2. simpl in Hnd2.
        apply NoDup_remove_2 in Hnd2. apply Hnd2.
        rewrite in_app_iff. left. rewrite Hpre, map_app, in_app_iff. now left.
    + left. apply edges_from_In. exists pre, nb, post. repeat split; auto.
  - assert (NoDup (map unordered (edges G))) as Hun.
    { apply edges_from_NoDup; auto.
      intros u nb Hin. apply (ok_entry G Hok u nb). now apply Hget. }
    split; [exact Hun|].
    apply (NoDup_map_inv (fun pr => (Nat.min (fst pr) (snd pr),
                                      Nat.max (fst pr) (snd pr)))).
    rewrite map_map.
    erewrite map_ext; [exact Hun|]. now intros [[u v] w].
Qed.

(** ** Instances on the grid graph *)

(** [yaml_data_lists_sources_in_order] for the table of the default
    pipeline. *)
Lemma yaml_data_lists_sources_in_order_witness :
  shortest_paths (yaml_data expected_paths_info)
  = map (fun kv => (from_node (fst kv), yaml_entry (snd kv)))
        (sorted_items expected_paths_info)
  /\ Permutation (sorted_items expected_paths_info) expected_paths_info
  /\ StronglySorted lt (map fst (sorted_items expected_paths_info))
  /\ forall n info,
       Dict.get expected_paths_info n = Some info ->
       StrDict.get (shortest_paths (yaml_data expected_paths_info)) (from_node n)
       = Some (yaml_entry info).
Proof.
  apply (yaml_data_lists_sources_in_order expected_paths_info).
  apply nodupb_NoDup. vm_compute. reflexivity.
Defined.


(** [returned_paths_are_simple] for the grid graph and destination 0. *)
Lemma returned_paths_are_simple_witness :
  exists tab,
    compute_shortest_paths grid_graph 0%nat = Ret tab
    /\ forall n r p, Dict.get tab n = Some r -> path r = Some p ->
         NoDup p /\ (length p <= length (nodes grid_graph))%nat.
Proof.
  apply (returned_paths_are_simple grid_graph 0%nat).
  - vm_compute. reflexivity.
  - vm_compute. reflexivity.
Defined.



(** [distance_ignores_insertion_order] for the grid graph and the graph
    built from the reversed node and edge lists, source 7, destination 0. *)
Lemma distance_ignores_insertion_order_witness :
  exists tab1 tab2 r1 r2,
    compute_shortest_paths grid_graph 0%nat = Ret tab1
    /\ Dict.get tab1 7%nat = Some r1
    /\ compute_shortest_paths grid_graph_reversed 0%nat = Ret tab2
    /\ Dict.get tab2 7%nat = Some r2
    /\ total_weight r1 = total_weight r2.
Proof.
  apply (distance_ignores_insertion_order grid_graph grid_graph_reversed
           0%nat 7%nat).
  - vm_compute. reflexivity.
  - vm_compute. reflexivity.
  - vm_compute. reflexivity.
  - vm_compute. reflexivity.
  - simpl. do 7 right. left. reflexivity.
  - simpl. do 4 right. left. reflexivity.
  - discriminate.
Defined.

(** [path_description_is_unambiguous] for the text "7 -> 6". *)
Lemma path_description_is_unambiguous_witness :
  [7; 6]%nat = [7; 6]%nat
  /\ join " -> " (map str [7; 6]%nat) <> "No path found"%string.
Proof.
  apply (path_description_is_unambiguous [7; 6]%nat [7; 6]%nat).
  - discriminate.
  - discriminate.
  - reflexivity.
Defined.

(** [document_of_computed_table] for the grid graph and destination 0. *)
Lemma document_of_computed_table_witness :
  exists tab,
    compute_shortest_paths grid_graph 0%nat = Ret tab
    /\ StronglySorted lt
         (map (fun e => start_node (snd e)) (shortest_paths (yaml_data tab)))
    /\ (forall n,
          In n (map (fun e => start_node (snd e)) (shortest_paths (yaml_data tab)))
          <-> In n (nodes grid_graph) /\ n <> 0%nat)
    /\ Forall (fun e => fst e = from_node (start_node (snd e))
                        /\ goal_node (snd e) = 0%nat)
              (shortest_paths (yaml_data tab)).
Proof.
  apply (document_of_computed_table grid_graph 0%nat).
  - vm_compute. reflexivity.
  - vm_compute. reflexivity.
Defined.

(** [distance_shrinks_with_more_edges] for the grid graph without its
    weight-2 edges and the full grid graph, source 3, destination 0. *)
Lemma distance_shrinks_with_more_edges_witness :
  exists tab2 r2 d2,
    compute_shortest_paths grid_graph 0%nat = Ret tab2
    /\ Dict.get tab2 3%nat = Some r2
    /\ total_weight r2 = Finite d2
    /\ d2 <= 1.
Proof.
  eapply (distance_shrinks_with_more_edges grid_without_long grid_graph
            0%nat 3%nat).
  - vm_compute. reflexivity.
  - vm_compute. reflexivity.
  - vm_compute. reflexivity.
  - vm_compute. reflexivity.
  - vm_compute. reflexivity.
  - vm_compute. reflexivity.
  - vm_compute. reflexivity.
  - vm_compute. reflexivity.
Defined.

(** [edges_lists_each_edge_once] for the grid graph. *)
Lemma edges_lists_each_edge_once_witness :
  (forall u v w, In (u, v, w) (edges grid_graph) ->
     edge_weight grid_graph u v = Some w)
  /\ (forall u v w, edge_weight grid_graph u v = Some w ->
        In (u, v, w) (edges grid_graph)
        \/ exists w', In (v, u, w') (edges grid_graph) /\ w' == w)
  /\ NoDup (map unordered (edges grid_graph))
  /\ NoDup (map fst (edges grid_graph)).
Proof.
  apply (edges_lists_each_edge_once grid_graph).
  vm_compute. reflexivity.
Defined.

